(** * Paillier partially homomorphic encryption: a shallow embedding

    The development follows [phe/paillier.py]: public and private keys,
    scalar ciphertexts ([EncryptedNumber]), vector ciphertexts
    ([EncryptedVector]) and key generation.  Python integers are [Z],
    Python's [%] and [//] on a positive modulus are [Z.modulo] and [Z.div]
    (both floor), exceptions are an explicit [result], and every random
    draw is read from an explicit tape. *)

From Stdlib Require Import ZArith Znumtheory Zpow_facts Zdivisibility Zcong.
From Stdlib Require Import ZmodInv.
From Stdlib Require Import String DecimalString Floats.
From Stdlib Require Import Lia List Bool QArith Qabs Qround Qpower Lqa.
Import ListNotations.

#[local] Open Scope Z_scope.

(* Decimal float literals stand for the nearest binary64 value. *)
#[local] Set Warnings "-inexact-float".

(** ** Exceptions and fallible computations *)

Inductive exn : Set :=
| TypeError
| ValueError
| NotImplementedError
| ZeroDivisionError
| IndexError
| AssertionError.

Inductive result (A : Type) : Type :=
| Ok (a : A)
| Raise (e : exn).

Arguments Ok {A} a.
Arguments Raise {A} e.

Definition bind {A B : Type} (m : result A) (k : A -> result B) : result B :=
  match m with
  | Ok a => k a
  | Raise e => Raise e
  end.

Notation "x <- m ;; k" := (bind m (fun x => k))
  (at level 61, m at next level, right associativity).
Notation "' pat <- m ;; k" := (bind m (fun x => match x with pat => k end))
  (at level 61, pat pattern, m at next level, right associativity).

Definition raises {A : Type} (m : result A) : Prop :=
  exists e, m = Raise e.

(** [mapM f l] is the list comprehension [[f x for x in l]]: the first
    exception raised, if any, aborts it. *)
Fixpoint mapM {A B : Type} (f : A -> result B) (l : list A) : result (list B) :=
  match l with
  | [] => Ok []
  | x :: l' => y <- f x ;; ys <- mapM f l' ;; Ok (y :: ys)
  end.

(** Indexing a Python list or array with a non-negative index. *)
Definition getitem {A : Type} (l : list A) (i : nat) : result A :=
  match nth_error l i with
  | Some x => Ok x
  | None => Raise IndexError
  end.

(** ** Randomness

    The program draws from [random] and from [random.SystemRandom].  A
    source of draws is a tape of integers and a position on it; each draw
    reads one cell and moves on. *)

Record Rng : Type := mkRng { tape : nat -> Z; pos : nat }.

Definition draw (r : Rng) : Z * Rng :=
  (tape r (pos r), mkRng (tape r) (S (pos r))).

(** [random.randint(lo, hi)]: a value of [lo..hi], both ends included. *)
Definition randint (lo hi : Z) (r : Rng) : Z * Rng :=
  let (x, r') := draw r in (lo + x mod (hi - lo + 1), r').

(** [randrange(lo, hi)]: a value of [lo..hi-1]; an empty range is an error. *)
Definition randrange (lo hi : Z) (r : Rng) : result (Z * Rng) :=
  if hi <=? lo then Raise ValueError
  else let (x, r') := draw r in Ok (lo + x mod (hi - lo), r').

(** ** Numbers handed to and returned by the library

    A scalar is a Python [int] or a Python [float].  A float is carried as
    the rational it denotes and its arithmetic is exact. *)

Inductive pynum : Type :=
| PInt (z : Z)
| PFloat (q : Q).

Definition to_Q (v : pynum) : Q :=
  match v with
  | PInt z => inject_Z z
  | PFloat q => q
  end.


(** The rational a binary64 literal denotes (zero for infinities and NaN,
    which no literal of this development is). *)
Definition Q_of_float (f : float) : Q :=
  match Prim2SF f with
  | S754_finite s m e =>
      let v := if (0 <=? e)%Z then inject_Z (Zpos m * 2 ^ e)
               else Qmake (Zpos m) (Z.to_pos (2 ^ (- e))) in
      if s then Qopp v else v
  | _ => 0%Q
  end.

(** Python's [round]: to the nearest integer, ties to the even one. *)
Definition py_round (x : Q) : Z :=
  let f := Qfloor x in
  let d := Qminus x (inject_Z f) in
  match Qcompare d (1 # 2) with
  | Lt => f
  | Gt => f + 1
  | Eq => if Z.even f then f else f + 1
  end.

(** [v * -1] on a Python number: an int stays an int, a float a float. *)
Definition times_minus_1 (v : pynum) : pynum :=
  match v with
  | PInt z => PInt (z * -1)
  | PFloat q => PFloat (Qmult q (inject_Z (-1)))
  end.

(** Python's [int.bit_length]. *)
Definition bit_length (x : Z) : Z :=
  if x =? 0 then 0 else Z.log2 (Z.abs x) + 1.

(** ** [phe.util] *)

Module util.

(** Modelled from the spec: [phe/util.py] is not among the sources; the
    spec (4.1) describes [powmod(base, exp, mod)] as fast modular
    exponentiation. *)
Definition powmod (base exp m : Z) : Z := Zpow_mod base exp m.

(** Modelled from the spec: [invert(a, m)] is the modular inverse of [a]
    mod [m]; when there is none the call fails. *)
Definition invert (a m : Z) : result Z :=
  if Z.gcd a m =? 1 then Ok (Z.invmod a m) else Raise ZeroDivisionError.

(** Modelled from the spec: [mul_mod], [mod], [mul] and [mul_mod_new] are
    the modular multiply and reduce building blocks; [mul_mod_new] is
    numerically [(a*b) mod m]. *)
Definition mul (a b : Z) : Z := a * b.
Definition mod_ (a m : Z) : Z := a mod m.
Definition mul_mod (a b m : Z) : Z := (a * b) mod m.
Definition mul_mod_new (a b m : Z) : Z := (a * b) mod m.


(** Modelled from the spec: [getprimeover(bits)] returns a random probable
    prime of exactly the given bit length.  The draw is read from the
    tape; [prime_of_bits] is the contract the cell read has to meet. *)
Definition getprimeover (bits : Z) (r : Rng) : Z * Rng := draw r.

Definition prime_of_bits (bits x : Z) : Prop :=
  Z.prime x /\ bit_length x = bits.

(** Modelled from the spec: [rand_int_bits(bits)] is a random integer of
    the given bit length. *)
Definition rand_int_bits (bits : Z) (r : Rng) : Z * Rng :=
  let (x, r') := draw r in (2 ^ (bits - 1) + x mod 2 ^ (bits - 1), r').

End util.

(** ** [phe.encoding]

    Fixed-point encoding of signed numbers: a value is held as
    [encoding * BASE ^ exponent], negative mantissas folded to the top of
    [0..n-1].  The radix [BASE] is a constant of the missing module and a
    parameter here. *)

Module EncodedNumber.

Record t : Type := mk { n : Z; max_int : Z; encoding : Z; exponent : Z }.

Section WithBase.
Variable BASE : Z.

(** Does rounding [q] at scale [BASE ^ (-k)] stay within [prec] of [q]? *)
Definition meets (k : Z) (prec q : Q) : bool :=
  let scaled := Qmult q (inject_Z (BASE ^ k)) in
  Qle_bool (Qabs (Qminus (inject_Z (py_round scaled)) scaled))
           (Qmult prec (inject_Z (BASE ^ k))).

(** The exponent of least magnitude, among [-k, -k-1, ..., -k-fuel], at
    which every value of [qs] meets the precision. *)
Fixpoint find_exponent (fuel : nat) (k : Z) (prec : Q) (qs : list Q)
  : option Z :=
  if forallb (meets k prec) qs then Some (- k)
  else match fuel with
       | O => None
       | S fuel' => find_exponent fuel' (k + 1) prec qs
       end.

(** Scales worth trying: a binary fraction is exact at a power of an
    even radix no larger than its denominator. *)
Definition search_bound (qs : list Q) : nat :=
  fold_right (fun q b => Nat.max (Z.to_nat (Z.log2_up (Zpos (Qden q)))) b)
             O qs.

Definition precision_or_exact (precision : option Q) : Q :=
  match precision with Some p => p | None => 0%Q end.

Definition cap_exponent (max_exponent : option Z) (e : Z) : Z :=
  match max_exponent with Some m => Z.min m e | None => e end.

(** The integer mantissa of [scalar] at [exponent] (never positive). *)
Definition int_rep (scalar : pynum) (exponent : Z) : Z :=
  match scalar with
  | PInt z => z * BASE ^ (- exponent)
  | PFloat q => py_round (Qmult q (inject_Z (BASE ^ (- exponent))))
  end.

(** Range check and fold of one mantissa into [0..n-1]. *)
Definition wrap (n max_int : Z) (scalar : pynum) (m : Z) : result Z :=
  if max_int <? Z.abs m then Raise ValueError
  else if (m =? 0) && negb (Qeq_bool (to_Q scalar) 0) then Raise ValueError
  else Ok (if m <? 0 then n - Z.abs m else m).

(** Modelled from the spec: [phe/encoding.py] is not among the sources.
    Spec 4.2: integers get exponent 0; a float gets the exponent of
    least magnitude at which its rounding meets the requested absolute
    precision (is exact when none is given); [max_exponent] caps the
    exponent; negatives are wrapped as [n - |value|]; the call fails
    when the mantissa exceeds [max_int] or a nonzero value rounds to
    zero. *)
Definition encode (n max_int : Z) (scalar : pynum)
    (precision : option Q) (max_exponent : option Z) : result t :=
  prec_exponent <-
    match scalar with
    | PInt _ => Ok 0
    | PFloat q =>
        match find_exponent (search_bound [q]) 0
                (precision_or_exact precision) [q] with
        | Some e => Ok e
        | None => Raise ValueError
        end
    end ;;
  let exponent := cap_exponent max_exponent prec_exponent in
  enc <- wrap n max_int scalar (int_rep scalar exponent) ;;
  Ok (mk n max_int enc exponent).

(** The signed mantissa: the negative half is [encoding > n - max_int]. *)
Definition mantissa (n max_int encoding : Z) : Z :=
  if n - max_int <? encoding then encoding - n else encoding.

(** [mantissa * pow(BASE, exponent)]: an int for a non-negative
    exponent, a float otherwise. *)
Definition scale (m exponent : Z) : pynum :=
  if 0 <=? exponent then PInt (m * BASE ^ exponent)
  else PFloat (Qmake m (Z.to_pos (BASE ^ (- exponent)))).

(** Modelled from the spec: [decode()] is the inverse mapping; it tells
    the negative half ([encoding > n - max_int]) from the positive half
    and returns a signed int or float. *)
Definition decode (self : t) : pynum :=
  scale (mantissa (n self) (max_int self) (encoding self)) (exponent self).

(** Modelled from the spec (4.6): [decrease_exponent_to(target)]
    multiplies the encoding by [BASE^(old-target)] and lowers the
    exponent; asking for a larger exponent fails. *)
Definition decrease_exponent_to (self : t) (new_exp : Z) : result t :=
  if exponent self <? new_exp then Raise ValueError
  else Ok (mk (n self) (max_int self)
              ((encoding self * BASE ^ (exponent self - new_exp)) mod n self)
              new_exp).

End WithBase.

End EncodedNumber.

Module EncodedVector.

Record t : Type :=
  mk { n : Z; max_int : Z; encoding : list Z; exponent : Z }.

Section WithBase.
Variable BASE : Z.

(** Modelled from the spec: the vector variant applies the algorithm of
    [EncodedNumber.encode] jointly to all elements, which share one
    exponent sized for the worst-case element. *)
Definition encode (n max_int : Z) (value : list pynum)
    (precision : option Q) (max_exponent : option Z) : result t :=
  let qs := map to_Q value in
  prec_exponent <-
    match EncodedNumber.find_exponent BASE (EncodedNumber.search_bound qs) 0
            (EncodedNumber.precision_or_exact precision) qs with
    | Some e => Ok e
    | None => Raise ValueError
    end ;;
  let exponent := EncodedNumber.cap_exponent max_exponent prec_exponent in
  enc <- mapM (fun v => EncodedNumber.wrap n max_int v
                          (EncodedNumber.int_rep BASE v exponent)) value ;;
  Ok (mk n max_int enc exponent).

(** Modelled from the spec: element-wise [decode]. *)
Definition decode (self : t) : list pynum :=
  map (fun e => EncodedNumber.scale BASE
                  (EncodedNumber.mantissa (n self) (max_int self) e)
                  (exponent self))
      (encoding self).

(** Modelled from the spec: element-wise [decrease_exponent_to]. *)
Definition decrease_exponent_to (self : t) (new_exp : Z) : result t :=
  if exponent self <? new_exp then Raise ValueError
  else Ok (mk (n self) (max_int self)
              (map (fun e => (e * BASE ^ (exponent self - new_exp)) mod n self)
                   (encoding self))
              new_exp).

End WithBase.

End EncodedVector.

(** ** [EncryptedNumber]: a scalar ciphertext

    [__init__] stores its arguments; its only check rejects a ciphertext
    that is itself an [EncryptedNumber], which the type of [ciphertext]
    excludes.  The [isinstance(plaintext, int)] guards of the raw
    operations are discharged by typing in the same way. *)

Module EncryptedNumber.

Record t : Type :=
  mk { n : Z; nsquare : Z; max_int : Z; ciphertext : Z; exponent : Z }.

(** What [+] and [*] dispatch on with [isinstance]. *)
Inductive operand : Type :=
| Encrypted (c : t)
| Encoded (e : EncodedNumber.t)
| Scalar (v : pynum).

Section WithBase.
Variable BASE : Z.

Definition _raw_mul (self : t) (plaintext : Z) : result Z :=
  if (plaintext <? 0) || (n self <=? plaintext) then Raise ValueError
  else if n self - max_int self <=? plaintext then
    neg_c <- util.invert (ciphertext self) (nsquare self) ;;
    let neg_scalar := n self - plaintext in
    Ok (util.powmod neg_c neg_scalar (nsquare self))
  else Ok (util.powmod (ciphertext self) plaintext (nsquare self)).

Definition __mul__ (self : t) (other : operand) : result t :=
  match other with
  | Encrypted _ => Raise NotImplementedError
  | Encoded _ | Scalar _ =>
      encoding <-
        match other with
        | Scalar v =>
            EncodedNumber.encode BASE (n self) (max_int self) v None None
        | Encoded e => Ok e
        | Encrypted _ => Raise NotImplementedError
        end ;;
      product <- _raw_mul self (EncodedNumber.encoding encoding) ;;
      let exponent := exponent self + EncodedNumber.exponent encoding in
      Ok (mk (n self) (nsquare self) (max_int self) product exponent)
  end.

Definition __rmul__ (self : t) (other : operand) : result t :=
  __mul__ self other.

Definition decrease_exponent_to (self : t) (new_exp : Z) : result t :=
  if exponent self <? new_exp then Raise ValueError
  else
    multiplied <-
      __mul__ self (Scalar (PInt (BASE ^ (exponent self - new_exp)))) ;;
    Ok (mk (n multiplied) (nsquare multiplied) (max_int multiplied)
           (ciphertext multiplied) new_exp).

Definition _raw_encrypt (self : t) (plaintext : Z) : result Z :=
  if (n self - max_int self <=? plaintext) && (plaintext <? n self) then
    let neg_plaintext := n self - plaintext in
    let neg_ciphertext :=
      util.mod_ (util.mul (n self) neg_plaintext + 1) (nsquare self) in
    util.invert neg_ciphertext (nsquare self)
  else
    Ok (util.mod_ (util.mul (n self) plaintext + 1) (nsquare self)).

Definition _raw_add (self : t) (e_a e_b : Z) : Z :=
  util.mul_mod e_a e_b (nsquare self).

Definition _add_encoded (self : t) (encoded : EncodedNumber.t) : result t :=
  if negb (n self =? EncodedNumber.n encoded) then Raise ValueError
  else
    '(a, b) <-
      (if EncodedNumber.exponent encoded <? exponent self then
         a <- decrease_exponent_to self (EncodedNumber.exponent encoded) ;;
         Ok (a, encoded)
       else if exponent self <? EncodedNumber.exponent encoded then
         b <- EncodedNumber.decrease_exponent_to BASE encoded (exponent self) ;;
         Ok (self, b)
       else Ok (self, encoded)) ;;
    encrypted_scalar <- _raw_encrypt a (EncodedNumber.encoding b) ;;
    let sum_ciphertext := _raw_add a (ciphertext a) encrypted_scalar in
    Ok (mk (n a) (nsquare a) (max_int a) sum_ciphertext (exponent a)).

Definition _add_scalar (self : t) (scalar : pynum) : result t :=
  encoded <- EncodedNumber.encode BASE (n self) (max_int self) scalar
               None (Some (exponent self)) ;;
  _add_encoded self encoded.

Definition _add_encrypted (self other : t) : result t :=
  if negb (n self =? n other) then Raise ValueError
  else
    '(a, b) <-
      (if exponent other <? exponent self then
         a <- decrease_exponent_to self (exponent other) ;; Ok (a, other)
       else if exponent self <? exponent other then
         b <- decrease_exponent_to other (exponent self) ;; Ok (self, b)
       else Ok (self, other)) ;;
    let sum_ciphertext := _raw_add a (ciphertext a) (ciphertext b) in
    Ok (mk (n a) (nsquare a) (max_int a) sum_ciphertext (exponent a)).

Definition __add__ (self : t) (other : operand) : result t :=
  match other with
  | Encrypted c => _add_encrypted self c
  | Encoded e => _add_encoded self e
  | Scalar v => _add_scalar self v
  end.

Definition __radd__ (self : t) (other : operand) : result t :=
  __add__ self other.

(** What [-] takes on its right: a ciphertext, or a Python number.  (An
    [EncodedNumber] operand would need the [*] of the encoding module.) *)
Inductive subtrahend : Type :=
| SubEncrypted (c : t)
| SubScalar (v : pynum).

(** [self + (other * -1)]. *)
Definition __sub__ (self : t) (other : subtrahend) : result t :=
  match other with
  | SubEncrypted c =>
      negative <- __mul__ c (Scalar (PInt (-1))) ;;
      __add__ self (Encrypted negative)
  | SubScalar v => __add__ self (Scalar (times_minus_1 v))
  end.

(** [other + (self * -1)], for a Python number [other]: its own [+] gives
    way to [__radd__]. *)
Definition __rsub__ (self : t) (other : pynum) : result t :=
  negative <- __mul__ self (Scalar (PInt (-1))) ;;
  __radd__ negative (Scalar other).

End WithBase.

End EncryptedNumber.

(** ** [EncryptedVector]: a vector ciphertext

    The residues are a Python list or a numpy array; both are a [list Z]
    here, indexed with [getitem]. *)

Module EncryptedVector.

Record t : Type :=
  mk { n : Z; nsquare : Z; max_int : Z; ciphertext : list Z; exponent : Z }.

(** What [+] dispatches on: another ciphertext vector, or anything else,
    which [_add_scalar] wraps into a one-element array unless it is an
    array already.  (An [EncodedVector] operand goes through numpy's
    [astype(int)] and is left out.) *)
Inductive addend : Type :=
| AEncrypted (c : t)
| AScalar (v : pynum)
| AArray (l : list pynum).

(** What [*] dispatches on: a ciphertext vector, a scalar
    ([np.isscalar]), or an array. *)
Inductive multiplier : Type :=
| MEncrypted (c : t)
| MScalar (v : pynum)
| MArray (l : list pynum).

Section WithBase.
Variable BASE : Z.

Definition _raw_add (self : t) (e_a e_b : Z) : Z :=
  util.mul_mod e_a e_b (nsquare self).

Definition _raw_mul_2 (self : t) (ciphertext plaintext : Z) : result Z :=
  if (plaintext <? 0) || (n self <=? plaintext) then Raise ValueError
  else if n self - max_int self <=? plaintext then
    neg_c <- util.invert ciphertext (nsquare self) ;;
    let neg_scalar := n self - plaintext in
    Ok (util.powmod neg_c neg_scalar (nsquare self))
  else Ok (util.powmod ciphertext plaintext (nsquare self)).

Definition __getitem__ (self : t) (item : nat) : result t :=
  c <- getitem (ciphertext self) item ;;
  Ok (mk (n self) (nsquare self) (max_int self) [c] (exponent self)).

Definition __mul__ (self : t) (other : multiplier) : result t :=
  match other with
  | MEncrypted _ => Raise NotImplementedError
  | MScalar v =>
      encoding <-
        EncodedVector.encode BASE (n self) (max_int self) [v] None None ;;
      product <-
        mapM (fun cipher =>
                e0 <- getitem (EncodedVector.encoding encoding) 0 ;;
                _raw_mul_2 self cipher e0)
             (ciphertext self) ;;
      let exponent := exponent self + EncodedVector.exponent encoding in
      Ok (mk (n self) (nsquare self) (max_int self) product exponent)
  | MArray other =>
      if (length other =? length (ciphertext self))%nat then
        encodings <-
          EncodedVector.encode BASE (n self) (max_int self) other
            None None ;;
        product <-
          mapM (fun i =>
                  c <- getitem (ciphertext self) i ;;
                  e <- getitem (EncodedVector.encoding encodings) i ;;
                  _raw_mul_2 self c e)
               (seq 0 (length (ciphertext self))) ;;
        let exponent := exponent self + EncodedVector.exponent encodings in
        Ok (mk (n self) (nsquare self) (max_int self) product exponent)
      else Raise TypeError
  end.

Definition __rmul__ (self : t) (other : multiplier) : result t :=
  __mul__ self other.

(** The assertion of [bind_to_vector] tests an f-string. *)
Definition bind_message (len : nat) : string :=
  ("Only support to bind ONE cipher list in to EncryptedVector, but get "
     ++ NilEmpty.string_of_uint (Nat.to_uint len))%string.

(** A Python string is true when it is not empty. *)
Definition truthy (s : string) : bool :=
  negb (String.eqb s EmptyString).

Definition py_assert (cond : bool) : result unit :=
  if cond then Ok tt else Raise AssertionError.

Definition bind_to_vector (cipher_list : list t) : result t :=
  tmp_cipher <- getitem cipher_list 0 ;;
  _ <- (if negb (length (ciphertext tmp_cipher) =? 0)%nat
        then py_assert (truthy (bind_message (length (ciphertext tmp_cipher))))
        else Ok tt) ;;
  product <-
    mapM (fun i =>
            c <- getitem cipher_list i ;;
            getitem (ciphertext c) 0)
         (seq 0 (length cipher_list)) ;;
  Ok (mk (n tmp_cipher) (nsquare tmp_cipher) (max_int tmp_cipher) product
         (exponent tmp_cipher)).

Definition shift_cipher (self : t) : result t :=
  __mul__ self (MScalar (PInt (2 ^ 32))).

Definition decrease_exponent_to (self : t) (new_exp : Z) : result t :=
  if exponent self <? new_exp then Raise ValueError
  else
    multiplied <-
      __mul__ self (MScalar (PInt (BASE ^ (exponent self - new_exp)))) ;;
    Ok (mk (n multiplied) (nsquare multiplied) (max_int multiplied)
           (ciphertext multiplied) new_exp).

Definition _raw_encrypt (self : t) (plaintextvector : list Z)
  : result (list Z) :=
  mapM (fun plaintext =>
          if (n self - max_int self <=? plaintext) && (plaintext <? n self)
          then
            let neg_plaintext := n self - plaintext in
            let neg_ciphertext :=
              util.mod_ (util.mul (n self) neg_plaintext + 1)
                        (nsquare self) in
            util.invert neg_ciphertext (nsquare self)
          else
            Ok (util.mod_ (util.mul (n self) plaintext + 1) (nsquare self)))
       plaintextvector.

Definition _add_encoded_scalar (self : t) (encoded : EncodedVector.t)
  : result t :=
  if negb (n self =? EncodedVector.n encoded) then Raise ValueError
  else
    '(a, b) <-
      (if EncodedVector.exponent encoded <? exponent self then
         a <- decrease_exponent_to self (EncodedVector.exponent encoded) ;;
         Ok (a, encoded)
       else if exponent self <? EncodedVector.exponent encoded then
         b <- EncodedVector.decrease_exponent_to BASE encoded
                (exponent self) ;;
         Ok (self, b)
       else Ok (self, encoded)) ;;
    encrypted_scalar <- _raw_encrypt a (EncodedVector.encoding b) ;;
    sum_ciphertext <-
      mapM (fun i =>
              x <- getitem (ciphertext a) i ;;
              y <- getitem encrypted_scalar i ;;
              Ok (_raw_add a x y))
           (seq 0 (length encrypted_scalar)) ;;
    Ok (mk (n a) (nsquare a) (max_int a) sum_ciphertext (exponent a)).

Definition _add_scalar (self : t) (scalar : list pynum) : result t :=
  encoded <- EncodedVector.encode BASE (n self) (max_int self) scalar
               None (Some (exponent self)) ;;
  _add_encoded_scalar self encoded.

Definition _add_encrypted (self other : t) : result t :=
  if negb (n self =? n other) then Raise ValueError
  else
    '(a, b) <-
      (if exponent other <? exponent self then
         a <- decrease_exponent_to self (exponent other) ;; Ok (a, other)
       else if exponent self <? exponent other then
         b <- decrease_exponent_to other (exponent self) ;; Ok (self, b)
       else Ok (self, other)) ;;
    sum_ciphertext <-
      mapM (fun i =>
              x <- getitem (ciphertext a) i ;;
              y <- getitem (ciphertext b) i ;;
              Ok (_raw_add a x y))
           (seq 0 (length (ciphertext a))) ;;
    Ok (mk (n a) (nsquare a) (max_int a) sum_ciphertext (exponent a)).

Definition __add__ (self : t) (other : addend) : result t :=
  match other with
  | AEncrypted c => _add_encrypted self c
  | AScalar v => _add_scalar self [v]
  | AArray l => _add_scalar self l
  end.

Definition __radd__ (self : t) (other : addend) : result t :=
  __add__ self other.



(** [self + (other * -1)]: a ciphertext vector is multiplied by the scalar
    [-1], a number or an array is negated by Python or numpy. *)
Definition __sub__ (self : t) (other : addend) : result t :=
  match other with
  | AEncrypted c =>
      negative <- __mul__ c (MScalar (PInt (-1))) ;;
      __add__ self (AEncrypted negative)
  | AScalar v => __add__ self (AScalar (times_minus_1 v))
  | AArray l => __add__ self (AArray (map times_minus_1 l))
  end.

End WithBase.

End EncryptedVector.

(** ** [PaillierPublicKey] *)

(** The values [encrypt] accepts: an [EncodedNumber], or a number to
    encode. *)
Inductive plain : Type :=
| PlainEncoded (e : EncodedNumber.t)
| PlainNumber (v : pynum).

(** The values [encrypt_new] accepts: an [EncodedVector], or a sequence of
    numbers to encode. *)
Inductive plain_vector : Type :=
| PlainEncodedVector (e : EncodedVector.t)
| PlainNumbers (l : list pynum).

Module PaillierPublicKey.

Record t : Type :=
  mk { g : Z; n : Z; nsquare : Z; max_int : Z;
       r_pow_n_l : option (list Z); noise : Z; n_length : Z }.

Definition default_n_length : Z := 2048.
Definition default_noise : Z := 3.

Definition __init__ (n : Z) (r_pow_n_l : option (list Z))
    (n_length noise : Z) : t :=
  mk (n + 1) n (n * n) (n / 3 - 1) r_pow_n_l noise n_length.

(** Public keys compare by their modulus alone. *)
Definition __eq__ (self other : t) : bool := n self =? n other.

Definition get_random_lt_n (self : t) (r : Rng) : result (Z * Rng) :=
  randrange 1 (n self) r.

(** [if self.r_pow_n_l:] holds for a list that is there and not empty. *)
Definition has_table (self : t) : bool :=
  match r_pow_n_l self with
  | Some (_ :: _) => true
  | _ => false
  end.

Definition table (self : t) : list Z :=
  match r_pow_n_l self with
  | Some l => l
  | None => []
  end.

(** [for _ in range(count)]: multiply a randomly indexed table entry in. *)
Fixpoint blend (self : t) (count : nat) (obfuscator : Z) (r : Rng)
  : result (Z * Rng) :=
  match count with
  | O => Ok (obfuscator, r)
  | S count' =>
      let (idx, r') := randint 1 16383 r in
      entry <- getitem (table self) (Z.to_nat idx) ;;
      blend self count' (util.mul_mod obfuscator entry (nsquare self)) r'
  end.

Definition raw_encrypt (self : t) (plaintext : Z) (r_value : option Z)
    (r : Rng) : result (Z * Rng) :=
  nude_ciphertext <-
    (if (n self - max_int self <=? plaintext) && (plaintext <? n self) then
       let neg_plaintext := n self - plaintext in
       let neg_ciphertext :=
         util.mod_ (util.mul (n self) neg_plaintext + 1) (nsquare self) in
       util.invert neg_ciphertext (nsquare self)
     else
       Ok (util.mod_ (util.mul (n self) plaintext + 1) (nsquare self))) ;;
  '(obfuscator, r') <-
    (if has_table self then blend self (Z.to_nat (noise self)) 1 r
     else
       '(rv, r') <- get_random_lt_n self r ;;
       Ok (util.powmod rv (n self) (nsquare self), r')) ;;
  Ok (util.mul_mod nude_ciphertext obfuscator (nsquare self), r').

(** [r_value or 1]. *)
Definition or_1 (r_value : option Z) : Z :=
  match r_value with
  | Some v => if v =? 0 then 1 else v
  | None => 1
  end.

Definition encrypt_encoded (self : t) (encoding : EncodedNumber.t)
    (r_value : option Z) (r : Rng) : result (EncryptedNumber.t * Rng) :=
  let obfuscator := or_1 r_value in
  '(ciphertext, r') <-
    raw_encrypt self (EncodedNumber.encoding encoding) (Some obfuscator) r ;;
  Ok (EncryptedNumber.mk (n self) (nsquare self) (max_int self) ciphertext
        (EncodedNumber.exponent encoding), r').

(** [[self.raw_encrypt(plaintext) for plaintext in encoding]]. *)
Fixpoint raw_encrypt_each (self : t) (plaintexts : list Z) (r : Rng)
  : result (list Z * Rng) :=
  match plaintexts with
  | [] => Ok ([], r)
  | plaintext :: rest =>
      '(c, r') <- raw_encrypt self plaintext None r ;;
      '(cs, r'') <- raw_encrypt_each self rest r' ;;
      Ok (c :: cs, r'')
  end.

Definition encrypt_encoded_new (self : t) (encoding : EncodedVector.t)
    (r : Rng) : result (EncryptedVector.t * Rng) :=
  '(ciphertext, r') <-
    raw_encrypt_each self (EncodedVector.encoding encoding) r ;;
  Ok (EncryptedVector.mk (n self) (nsquare self) (max_int self) ciphertext
        (EncodedVector.exponent encoding), r').

Section WithBase.
Variable BASE : Z.

Definition encrypt (self : t) (value : plain) (precision : option Q)
    (r_value : option Z) (r : Rng) : result (EncryptedNumber.t * Rng) :=
  encoding <-
    match value with
    | PlainEncoded e => Ok e
    | PlainNumber v =>
        EncodedNumber.encode BASE (n self) (max_int self) v precision None
    end ;;
  encrypt_encoded self encoding r_value r.

Definition encrypt_new (self : t) (value : plain_vector)
    (precision : option Q) (r : Rng) : result (EncryptedVector.t * Rng) :=
  encoding <-
    match value with
    | PlainEncodedVector e => Ok e
    | PlainNumbers l =>
        EncodedVector.encode BASE (n self) (max_int self) l precision None
    end ;;
  encrypt_encoded_new self encoding r.

End WithBase.

End PaillierPublicKey.

(** ** [PaillierPrivateKey] *)

Module PaillierPrivateKey.

Record t : Type :=
  mk { public_key : PaillierPublicKey.t;
       p : Z; q : Z; psquare : Z; qsquare : Z;
       p_inverse : Z; hp : Z; hq : Z }.

Definition l_function (x p : Z) : Z := (x - 1) / p.

Definition h_function (public_key : PaillierPublicKey.t) (x xsquare : Z)
  : result Z :=
  util.invert
    (l_function (util.powmod (PaillierPublicKey.g public_key) (x - 1) xsquare)
                x)
    x.

Definition __init__ (public_key : PaillierPublicKey.t) (p q : Z) : result t :=
  if negb (p * q =? PaillierPublicKey.n public_key) then Raise ValueError
  else if p =? q then Raise ValueError
  else
    let '(p, q) := if q <? p then (q, p) else (p, q) in
    let psquare := p * p in
    let qsquare := q * q in
    p_inverse <- util.invert p q ;;
    hp <- h_function public_key p psquare ;;
    hq <- h_function public_key q qsquare ;;
    Ok (mk public_key p q psquare qsquare p_inverse hp hq).


(** Private keys compare by their primes. *)
Definition __eq__ (self other : t) : bool :=
  (p self =? p other) && (q self =? q other).

Definition crt (self : t) (mp mq : Z) : Z :=
  let u := util.mul_mod_new (mq - mp) (p_inverse self) (q self) in
  mp + u * p self.

Definition raw_decrypt (self : t) (ciphertext : Z) : Z :=
  let decrypt_to_p :=
    util.mul_mod
      (l_function (util.powmod ciphertext (p self - 1) (psquare self))
                  (p self))
      (hp self) (p self) in
  let decrypt_to_q :=
    util.mul_mod
      (l_function (util.powmod ciphertext (q self - 1) (qsquare self))
                  (q self))
      (hq self) (q self) in
  crt self decrypt_to_p decrypt_to_q.

Definition decrypt_encoded (self : t) (encrypted_number : EncryptedNumber.t)
  : result EncodedNumber.t :=
  if negb (PaillierPublicKey.n (public_key self)
           =? EncryptedNumber.n encrypted_number)
  then Raise ValueError
  else
    let encoded := raw_decrypt self (EncryptedNumber.ciphertext encrypted_number) in
    Ok (EncodedNumber.mk (PaillierPublicKey.n (public_key self))
          (PaillierPublicKey.max_int (public_key self)) encoded
          (EncryptedNumber.exponent encrypted_number)).

Definition decrypt_encoded_new (self : t) (encrypted_number : EncryptedVector.t)
  : result EncodedVector.t :=
  if negb (PaillierPublicKey.n (public_key self)
           =? EncryptedVector.n encrypted_number)
  then Raise ValueError
  else
    let encoded :=
      map (raw_decrypt self) (EncryptedVector.ciphertext encrypted_number) in
    Ok (EncodedVector.mk (PaillierPublicKey.n (public_key self))
          (PaillierPublicKey.max_int (public_key self)) encoded
          (EncryptedVector.exponent encrypted_number)).

Definition decrypt_no_decode (self : t) (cipher_text : EncryptedVector.t)
  : result (list Z) :=
  encoded <- decrypt_encoded_new self cipher_text ;;
  Ok (EncodedVector.encoding encoded).

Section WithBase.
Variable BASE : Z.

Definition decrypt (self : t) (encrypted_number : EncryptedNumber.t)
  : result pynum :=
  encoded <- decrypt_encoded self encrypted_number ;;
  Ok (EncodedNumber.decode BASE encoded).

Definition decrypt_new (self : t) (cipher_text : EncryptedVector.t)
  : result (list pynum) :=
  encoded <- decrypt_encoded_new self cipher_text ;;
  Ok (EncodedVector.decode BASE encoded).

End WithBase.

End PaillierPrivateKey.

(** ** Key generation *)

(** The vendored big-integer library: only its modular inverse is used. *)
Module libnum.

Definition invmod (a m : Z) : result Z :=
  if Z.gcd a m =? 1 then Ok (Z.invmod a m) else Raise ValueError.

End libnum.

(** The record pickled to [table.pkl]. *)
Record key_table : Type :=
  mk_table { table_n : Z; table_n_length : Z; table_p : Z; table_q : Z;
             table_r_pow_n_l : list Z }.

Definition keypair : Type := (PaillierPublicKey.t * PaillierPrivateKey.t)%type.

(** One slot of the blinding table: [base ^ exp] modulo [psquare * qsquare],
    computed modulo each square and recombined. *)
Definition pow_mod_n2 (base : option Z)
    (exp n_length psquare qsquare qsquare_inv : Z) (r : Rng) : Z * Rng :=
  let (base, r') :=
    match base with
    | None => util.rand_int_bits (n_length / 3) r
    | Some b => (b, r)
    end in
  let x_p := util.powmod base exp psquare in
  let x_q := util.powmod base exp qsquare in
  let x := (qsquare_inv * (x_p - x_q)) mod psquare in
  (x * qsquare + x_q, r').

(** [q = p; while q == p: q = getprimeover(bits)].  [None]: the loop has
    not ended within [fuel] draws. *)
Fixpoint draw_other_prime (fuel : nat) (bits p : Z) (r : Rng)
  : option (Z * Rng) :=
  match fuel with
  | O => None
  | S fuel' =>
      let (q, r') := util.getprimeover bits r in
      if q =? p then draw_other_prime fuel' bits p r' else Some (q, r')
  end.

(** [while n_len != n_length: ...], entered with [n_len = 0]. *)
Fixpoint draw_primes (fuel : nat) (n_length : Z) (r : Rng)
  : option (Z * Z * Z * Z * Rng) :=
  match fuel with
  | O => None
  | S fuel' =>
      let (p, r1) := util.getprimeover (n_length / 2) r in
      match draw_other_prime fuel' (n_length / 2) p r1 with
      | None => None
      | Some (q, r2) =>
          let n := p * q in
          let n_len := bit_length n in
          if n_len =? n_length then Some (p, q, n, n_len, r2)
          else draw_primes fuel' n_length r2
      end
  end.

(** The slots are computed by a process pool over [range(16384)]; the
    result is the list in index order. *)
Definition table_size : nat := Z.to_nat 16384.

(** [generate_keys]: [None] when the prime search has not ended within
    [fuel] rounds; otherwise the key pair, the table written to
    [table.pkl] (if any) and the tape.  With [n_length = 0] the loop is
    not entered and the arithmetic on [None] raises. *)
Definition generate_keys (fuel : nat) (n_length : Z) (precompute : bool)
    (r : Rng) : option (result (keypair * option key_table * Rng)) :=
  if n_length =? 0 then Some (Raise TypeError)
  else
    match draw_primes fuel n_length r with
    | None => None
    | Some (p, q, n, n_len, r') =>
        Some
          (if precompute then
             let psquare := p * p in
             let qsquare := q * q in
             qsquare_inv <- libnum.invmod qsquare psquare ;;
             let r_pow_n_l :=
               map (fun i => fst (pow_mod_n2 (Some (Z.of_nat i)) n n_len
                                    psquare qsquare qsquare_inv r'))
                   (seq 0 table_size) in
             let public_key :=
               PaillierPublicKey.__init__ n (Some r_pow_n_l) n_length
                 PaillierPublicKey.default_noise in
             let table := mk_table n n_length p q r_pow_n_l in
             private_key <- PaillierPrivateKey.__init__ public_key p q ;;
             Ok (public_key, private_key, Some table, r')
           else
             let public_key :=
               PaillierPublicKey.__init__ n None
                 PaillierPublicKey.default_n_length
                 PaillierPublicKey.default_noise in
             private_key <- PaillierPrivateKey.__init__ public_key p q ;;
             Ok (public_key, private_key, None, r'))
    end.

(** [generate_paillier_keypair]: [file] is the content of [table.pkl] under
    [table_path], if the file exists; the result carries the content after
    the call. *)
Definition generate_paillier_keypair (fuel : nat) (n_length : Z)
    (precompute : bool) (file : option key_table) (r : Rng)
  : option (result (keypair * option key_table * Rng)) :=
  let fresh :=
    match generate_keys fuel n_length precompute r with
    | None => None
    | Some res =>
        Some ('(keys, written, r') <- res ;;
              Ok (keys, match written with Some w => Some w | None => file end,
                  r'))
    end in
  match file with
  | Some table =>
      if negb (table_n_length table =? n_length) then fresh
      else
        let public_key :=
          PaillierPublicKey.__init__ (table_n table)
            (Some (table_r_pow_n_l table))
            PaillierPublicKey.default_n_length
            PaillierPublicKey.default_noise in
        Some (private_key <-
                PaillierPrivateKey.__init__ public_key (table_p table)
                  (table_q table) ;;
              Ok (public_key, private_key, file, r))
  | None => fresh
  end.

(** ** The vector demo ([enc_vector.py])

    [demo] is the body of the script from the key pair on: it returns the
    two decrypted vectors the script prints. *)
Section Demo.
Variable BASE : Z.

Definition vector : list Q :=
  [Q_of_float 3.5; Q_of_float 2.1; Q_of_float 7.9].

Definition demo (public_key : PaillierPublicKey.t)
    (private_key : PaillierPrivateKey.t) (r : Rng)
  : result (list pynum * list pynum) :=
  '(ciphertext, _) <-
    PaillierPublicKey.encrypt_new BASE public_key
      (PlainNumbers (map PFloat vector)) None r ;;
  ciphertext <-
    EncryptedVector.__add__ BASE ciphertext
      (EncryptedVector.AEncrypted ciphertext) ;;
  plaintext <- PaillierPrivateKey.decrypt_new BASE private_key ciphertext ;;
  ciphertext <-
    EncryptedVector.__mul__ BASE ciphertext
      (EncryptedVector.MScalar (PInt 4)) ;;
  plaintext2 <- PaillierPrivateKey.decrypt_new BASE private_key ciphertext ;;
  Ok (plaintext, plaintext2).

End Demo.

(** * Statements and proofs

    ** Vocabulary of the statements *)

(** The L-value of [c ^ (P-1)] modulo [P^2]. *)
Definition lam (P c : Z) : Z :=
  PaillierPrivateKey.l_function (util.powmod c (P - 1) (P * P)) P.

(** A well-formed private key: what [__init__] establishes from two
    distinct primes. *)
Record key_ok (sk : PaillierPrivateKey.t) : Prop := mk_key_ok {
  ok_p : Z.prime (PaillierPrivateKey.p sk);
  ok_q : Z.prime (PaillierPrivateKey.q sk);
  ok_lt : PaillierPrivateKey.p sk < PaillierPrivateKey.q sk;
  ok_n : PaillierPublicKey.n (PaillierPrivateKey.public_key sk)
         = PaillierPrivateKey.p sk * PaillierPrivateKey.q sk;
  ok_g : PaillierPublicKey.g (PaillierPrivateKey.public_key sk)
         = PaillierPublicKey.n (PaillierPrivateKey.public_key sk) + 1;
  ok_nsquare :
    PaillierPublicKey.nsquare (PaillierPrivateKey.public_key sk)
    = PaillierPublicKey.n (PaillierPrivateKey.public_key sk)
      * PaillierPublicKey.n (PaillierPrivateKey.public_key sk);
  ok_max_int :
    PaillierPublicKey.max_int (PaillierPrivateKey.public_key sk)
    = PaillierPublicKey.n (PaillierPrivateKey.public_key sk) / 3 - 1;
  ok_psquare : PaillierPrivateKey.psquare sk
               = PaillierPrivateKey.p sk * PaillierPrivateKey.p sk;
  ok_qsquare : PaillierPrivateKey.qsquare sk
               = PaillierPrivateKey.q sk * PaillierPrivateKey.q sk;
  ok_p_inverse :
    (PaillierPrivateKey.p_inverse sk * PaillierPrivateKey.p sk)
      mod PaillierPrivateKey.q sk = 1;
  ok_hp :
    (lam (PaillierPrivateKey.p sk)
         (PaillierPublicKey.g (PaillierPrivateKey.public_key sk))
     * PaillierPrivateKey.hp sk) mod PaillierPrivateKey.p sk = 1;
  ok_hq :
    (lam (PaillierPrivateKey.q sk)
         (PaillierPublicKey.g (PaillierPrivateKey.public_key sk))
     * PaillierPrivateKey.hq sk) mod PaillierPrivateKey.q sk = 1
}.

(** A key pair built by the two constructors from two primes. *)
Definition generated (pk : PaillierPublicKey.t) (sk : PaillierPrivateKey.t)
  : Prop :=
  exists p q r_pow_n_l n_length noise,
    Z.prime p /\ Z.prime q
    /\ pk = PaillierPublicKey.__init__ (p * q) r_pow_n_l n_length noise
    /\ PaillierPrivateKey.__init__ pk p q = Ok sk.

(** The unblinded ciphertext of the three [raw_encrypt] routines. *)
Definition nude_ciphertext (n max_int nsquare plaintext : Z) : result Z :=
  if (n - max_int <=? plaintext) && (plaintext <? n) then
    let neg_plaintext := n - plaintext in
    let neg_ciphertext := util.mod_ (util.mul n neg_plaintext + 1) nsquare in
    util.invert neg_ciphertext nsquare
  else Ok (util.mod_ (util.mul n plaintext + 1) nsquare).

(** The blinding factor [raw_encrypt] draws. *)
Definition obfuscator (pk : PaillierPublicKey.t) (r : Rng) : result (Z * Rng) :=
  if PaillierPublicKey.has_table pk then
    PaillierPublicKey.blend pk (Z.to_nat (PaillierPublicKey.noise pk)) 1 r
  else
    '(rv, r') <- PaillierPublicKey.get_random_lt_n pk r ;;
    Ok (util.powmod rv (PaillierPublicKey.n pk) (PaillierPublicKey.nsquare pk),
        r').

(** A blinding factor is the [n]-th power of a unit. *)
Definition blinding (n o : Z) : Prop :=
  exists b, Z.gcd b n = 1 /\ o = b ^ n mod (n * n).

Definition well_blinded (pk : PaillierPublicKey.t) (r : Rng) : Prop :=
  exists o r', obfuscator pk r = Ok (o, r')
               /\ blinding (PaillierPublicKey.n pk) o.

(** [c] is a ciphertext of the residue of [m] modulo [n]. *)
Definition encrypts (sk : PaillierPrivateKey.t) (c m : Z) : Prop :=
  Z.gcd c (PaillierPublicKey.n (PaillierPrivateKey.public_key sk)) = 1
  /\ PaillierPrivateKey.raw_decrypt sk c
     = m mod PaillierPublicKey.n (PaillierPrivateKey.public_key sk).

(** The public parameters a ciphertext carries are those of the key. *)
Definition cipher_ok (sk : PaillierPrivateKey.t) (c : EncryptedNumber.t) : Prop :=
  let pk := PaillierPrivateKey.public_key sk in
  EncryptedNumber.n c = PaillierPublicKey.n pk
  /\ EncryptedNumber.nsquare c = PaillierPublicKey.n pk * PaillierPublicKey.n pk
  /\ EncryptedNumber.max_int c = PaillierPublicKey.max_int pk.

(** [c] encrypts the mantissa [m] at exponent [e]: the value [m * BASE^e]. *)
Definition holds (sk : PaillierPrivateKey.t) (c : EncryptedNumber.t)
    (m e : Z) : Prop :=
  cipher_ok sk c /\ EncryptedNumber.exponent c = e
  /\ encrypts sk (EncryptedNumber.ciphertext c) m.

(** The value a mantissa and an exponent stand for. *)
Definition value (BASE m e : Z) : Q :=
  Qmult (inject_Z m) (Qpower (inject_Z BASE) e).

Definition in_range (max_int m : Z) : Prop := - max_int < m <= max_int.



(** A primality test by trial division, for concrete keys. *)

Fixpoint no_divisor (fuel : nat) (d x : Z) : bool :=
  match fuel with
  | O => true
  | S fuel' =>
      if x <? d * d then true
      else if x mod d =? 0 then false
      else no_divisor fuel' (d + 1) x
  end.

Definition is_prime (x : Z) : bool :=
  (1 <? x) && no_divisor (Z.to_nat (Z.sqrt x)) 2 x.

(** Concrete data for the examples: a tape with given first cells, and the
    key pair of the primes 5 and 7. *)
Definition tape_of (cells : list Z) : Rng := mkRng (fun i => nth i cells 0) 0.
Definition pk35 : PaillierPublicKey.t := PaillierPublicKey.__init__ 35 None 2048 3.
Definition sk35 : PaillierPrivateKey.t := PaillierPrivateKey.mk pk35 5 7 25 49 3 2 4.

(** The pipelines the statements speak of. *)
Definition roundtrip (BASE : Z) (pk : PaillierPublicKey.t) (sk : PaillierPrivateKey.t)
    (v : pynum) (precision : option Q) (r : Rng) : result pynum :=
  '(c, _) <- PaillierPublicKey.encrypt BASE pk (PlainNumber v) precision None r ;;
  PaillierPrivateKey.decrypt BASE sk c.




(** Vector ciphertexts of a key. *)
Definition vector_ok (sk : PaillierPrivateKey.t) (c : EncryptedVector.t) : Prop :=
  let pk := PaillierPrivateKey.public_key sk in
  EncryptedVector.n c = PaillierPublicKey.n pk
  /\ EncryptedVector.nsquare c = PaillierPublicKey.n pk * PaillierPublicKey.n pk
  /\ EncryptedVector.max_int c = PaillierPublicKey.max_int pk.

(** [c] is a vector of [sk] whose residues encrypt the mantissas [ms], at
    exponent [e]. *)
Definition holds_each (sk : PaillierPrivateKey.t) (c : EncryptedVector.t)
    (ms : list Z) (e : Z) : Prop :=
  vector_ok sk c /\ EncryptedVector.exponent c = e
  /\ Forall2 (encrypts sk) (EncryptedVector.ciphertext c) ms.

(** The next [count] blinding factors drawn from [r] are n-th powers of
    units. *)
Fixpoint well_blinded_each (pk : PaillierPublicKey.t) (count : nat) (r : Rng)
  : Prop :=
  match count with
  | O => True
  | S count' =>
      exists o r', obfuscator pk r = Ok (o, r')
                   /\ blinding (PaillierPublicKey.n pk) o
                   /\ well_blinded_each pk count' r'
  end.

Definition zip_with {A B C : Type} (f : A -> B -> C) (la : list A) (lb : list B)
  : list C :=
  map (fun xy => f (fst xy) (snd xy)) (combine la lb).

(** The key pair of the primes 11 and 13, and one of two 31-bit primes,
    large enough for the mantissas of the vector demo. *)
Definition pk143 : PaillierPublicKey.t :=
  PaillierPublicKey.__init__ 143 None 2048 3.
Definition sk143 : PaillierPrivateKey.t :=
  PaillierPrivateKey.mk pk143 11 13 121 169 6 5 7.
Definition pk62 : PaillierPublicKey.t :=
  PaillierPublicKey.__init__ 4611685975477714963 None 2048 3.
Definition sk62 : PaillierPrivateKey.t :=
  PaillierPrivateKey.mk pk62 2147483629 2147483647 4611685936823009641
    4611686014132420609 119304647 119304646 2028179000.

(** The lists the comments of the demo give, and eight times the input. *)
Definition doubled : list Q :=
  [Q_of_float 7.0; Q_of_float 4.2; Q_of_float 15.8].
Definition quadrupled : list Q :=
  [Q_of_float 14.0; Q_of_float 8.4; Q_of_float 31.6].
Definition octupled : list Q :=
  [Q_of_float 28.0; Q_of_float 16.8; Q_of_float 63.2].

(** The numbers [ds] denote the rationals [qs], element by element. *)
Definition values_are (ds : list pynum) (qs : list Q) : Prop :=
  Forall2 (fun d q => Qeq (to_Q d) q) ds qs.



(** A tape whose cells alternate between the primes 5 and 7, and one whose
    cells alternate between 2 and 3. *)
Definition tape_5_7 : Rng := mkRng (fun i => if Nat.even i then 5 else 7) 0.

(** The contract of [getprimeover] on every cell of the tape. *)
Definition primes_of_bits (bits : Z) (r : Rng) : Prop :=
  forall i, util.prime_of_bits bits (tape r i).

(** A blinding table of a modulus: slot [i] holds [i ^ n] modulo [n^2]. *)
Definition power_table (n : Z) (tbl : list Z) : Prop :=
  length tbl = table_size
  /\ forall i, (i < table_size)%nat ->
               nth_error tbl i = Some (Z.of_nat i ^ n mod (n * n)).

(** A tape whose cells alternate between the 15-bit primes 16411 and
    32749. *)
Definition tape_15_bits : Rng :=
  mkRng (fun i => if Nat.even i then 16411 else 32749) 0.


(** ** Modular arithmetic *)

Lemma powmod_correct b e m : m <> 0 -> util.powmod b e m = b ^ e mod m.
Proof. intros Hm. unfold util.powmod. now apply Zpow_mod_correct. Qed.

Lemma invert_coprime a m :
  Z.gcd a m = 1 -> util.invert a m = Ok (Z.invmod a m).
Proof. intros H. unfold util.invert. now rewrite H. Qed.

Lemma invert_Ok a m x :
  util.invert a m = Ok x -> Z.gcd a m = 1 /\ x = Z.invmod a m.
Proof.
  unfold util.invert. destruct (Z.eqb_spec (Z.gcd a m) 1); [|discriminate].
  intros [= <-]. auto.
Qed.

(** Reduction modulo a multiple does not change a power modulo a divisor. *)
Lemma pow_mod_divide c k M m :
  (m | M) -> (c mod M) ^ k mod m = c ^ k mod m.
Proof.
  intros Hd. rewrite <- Z.mod_pow_l. rewrite Z.mod_mod_divide by exact Hd.
  apply Z.mod_pow_l.
Qed.

Lemma mul_mod_divide a b M m :
  (m | M) -> ((a * b) mod M) mod m = ((a mod m) * (b mod m)) mod m.
Proof.
  intros Hd. rewrite Z.mod_mod_divide by exact Hd. apply Zmult_mod.
Qed.

(** [(1 + a)^k = 1 + k*a] modulo [a^2]. *)
Lemma one_plus_pow a k :
  0 <= k -> (1 + a) ^ k mod (a * a) = (1 + k * a) mod (a * a).
Proof.
  intros Hk. pattern k. apply natlike_ind; [reflexivity | | exact Hk].
  clear k Hk. intros k Hk IH.
  rewrite Z.pow_succ_r by exact Hk.
  rewrite Zmult_mod, IH, <- Zmult_mod.
  replace ((1 + a) * (1 + k * a)) with (1 + Z.succ k * a + k * (a * a)) by ring.
  apply Z_mod_plus_full.
Qed.

Section OnePrime.
Variable P : Z.
Hypothesis P_prime : Z.prime P.

Let P_ge_2 : 2 <= P := Z.prime_ge_2 P P_prime.

Lemma lam_spec c :
  c mod P <> 0 ->
  0 <= lam P c < P /\ c ^ (P - 1) mod (P * P) = 1 + P * lam P c.
Proof.
  intros Hc. unfold lam, PaillierPrivateKey.l_function.
  rewrite powmod_correct by nia.
  set (x := c ^ (P - 1) mod (P * P)).
  assert (Hx : 0 <= x < P * P) by (apply Z.mod_pos_bound; nia).
  assert (Hx1 : x mod P = 1).
  { unfold x. rewrite Z.mod_mod_divide by (exists P; ring).
    now apply Z.fermat_nz. }
  pose proof (Z.div_mod x P ltac:(lia)) as Hdm. rewrite Hx1 in Hdm.
  replace (x - 1) with (x / P * P) by lia.
  rewrite Z.div_mul by lia.
  assert (0 <= x / P) by (apply Z.div_pos; lia).
  assert (x / P < P) by (apply Z.div_lt_upper_bound; lia).
  split; [lia | lia].
Qed.

Lemma coprime_nz c : Z.gcd c P = 1 -> c mod P <> 0.
Proof.
  intros Hg H. apply Z.mod_divide in H; [|lia].
  assert (Hd : (P | Z.gcd c P)) by (apply Z.gcd_greatest; [exact H | exists 1; ring]).
  rewrite Hg in Hd. apply Z.divide_1_r in Hd. lia.
Qed.

Lemma nz_coprime c : c mod P <> 0 -> Z.gcd c P = 1.
Proof.
  intros H. rewrite Z.gcd_comm. apply Z.coprime_prime_l; [exact P_prime|].
  intros Hd. apply Z.mod_divide in Hd; lia.
Qed.

Lemma lam_mul c1 c2 :
  Z.gcd c1 P = 1 -> Z.gcd c2 P = 1 ->
  lam P (c1 * c2) = (lam P c1 + lam P c2) mod P.
Proof.
  intros G1 G2.
  destruct (lam_spec c1 (coprime_nz _ G1)) as [R1 E1].
  destruct (lam_spec c2 (coprime_nz _ G2)) as [R2 E2].
  assert (G : Z.gcd (c1 * c2) P = 1) by (now apply Z.coprime_mul_l).
  destruct (lam_spec (c1 * c2) (coprime_nz _ G)) as [R E].
  rewrite Z.pow_mul_l, Zmult_mod, E1, E2 in E.
  replace ((1 + P * lam P c1) * (1 + P * lam P c2))
    with (1 + P * ((lam P c1 + lam P c2) mod P)
          + ((lam P c1 + lam P c2) / P + lam P c1 * lam P c2) * (P * P)) in E.
  2:{ pose proof (Z.div_mod (lam P c1 + lam P c2) P ltac:(lia)). nia. }
  rewrite Z_mod_plus_full in E.
  pose proof (Z.mod_pos_bound (lam P c1 + lam P c2) P ltac:(lia)) as Hs.
  rewrite Z.mod_small in E by nia.
  nia.
Qed.

Lemma lam_mod c M : (P * P | M) -> lam P (c mod M) = lam P c.
Proof.
  intros Hd. unfold lam. rewrite !powmod_correct by nia.
  now rewrite pow_mod_divide.
Qed.

Lemma lam_1 : lam P 1 = 0.
Proof.
  unfold lam, PaillierPrivateKey.l_function. rewrite powmod_correct by nia.
  rewrite Z.pow_1_l by lia. rewrite Z.mod_small by nia. reflexivity.
Qed.

Lemma lam_pow c k :
  Z.gcd c P = 1 -> 0 <= k -> lam P (c ^ k) = (k * lam P c) mod P.
Proof.
  intros Hc Hk. pattern k. apply natlike_ind; [ | | exact Hk].
  - rewrite Z.pow_0_r, lam_1. now rewrite Z.mod_0_l by lia.
  - clear k Hk. intros k Hk IH.
    rewrite Z.pow_succ_r by exact Hk.
    rewrite lam_mul; [ | exact Hc | now apply Z.coprime_pow_l ].
    rewrite IH. rewrite Zplus_mod_idemp_r. f_equal. ring.
Qed.

(** The L-value of the generator [1 + P*Q]. *)
Lemma lam_g Q : lam P (1 + P * Q) = ((P - 1) * Q) mod P.
Proof.
  assert (G : Z.gcd (1 + P * Q) P = 1).
  { apply nz_coprime. rewrite (Z.mul_comm P Q), Z_mod_plus_full.
    rewrite Z.mod_small; lia. }
  destruct (lam_spec _ (coprime_nz _ G)) as [R E].
  assert (Hd : (P * P | (P * Q) * (P * Q))) by (exists (Q * Q); ring).
  pose proof (one_plus_pow (P * Q) (P - 1) ltac:(lia)) as Hb.
  apply (f_equal (fun x => x mod (P * P))) in Hb.
  rewrite !Z.mod_mod_divide in Hb by exact Hd.
  rewrite E in Hb.
  replace (1 + (P - 1) * (P * Q))
    with (1 + P * (((P - 1) * Q) mod P) + ((P - 1) * Q / P) * (P * P)) in Hb.
  2:{ pose proof (Z.div_mod ((P - 1) * Q) P ltac:(lia)). nia. }
  rewrite Z_mod_plus_full in Hb.
  pose proof (Z.mod_pos_bound ((P - 1) * Q) P ltac:(lia)) as Hs.
  rewrite !Z.mod_small in Hb by nia.
  nia.
Qed.
End OnePrime.

(** ** Chinese remaindering *)

Lemma crt_unique p q x y :
  0 < p -> 0 < q -> Z.gcd p q = 1 ->
  0 <= x < p * q -> 0 <= y < p * q ->
  x mod p = y mod p -> x mod q = y mod q -> x = y.
Proof.
  intros Hp Hq Hg Hx Hy Ep Eq.
  assert (Dp : (p | x - y)).
  { apply Z.mod_divide; [lia|]. rewrite Zminus_mod, Ep, Z.sub_diag. apply Z.mod_0_l; lia. }
  assert (Dq : (q | x - y)).
  { apply Z.mod_divide; [lia|]. rewrite Zminus_mod, Eq, Z.sub_diag. apply Z.mod_0_l; lia. }
  destruct Dp as [k Hk].
  assert (Dk : (q | k)).
  { apply Z.gauss with (m := p); [rewrite Z.mul_comm, <- Hk; exact Dq|].
    now rewrite Z.gcd_comm. }
  destruct Dk as [j Hj]. subst k.
  assert (j = 0) by nia. subst j. lia.
Qed.

Section KeyPair.
Variable sk : PaillierPrivateKey.t.
Hypothesis K : key_ok sk.

Let p := PaillierPrivateKey.p sk.
Let q := PaillierPrivateKey.q sk.
Let n := PaillierPublicKey.n (PaillierPrivateKey.public_key sk).
Let hp := PaillierPrivateKey.hp sk.
Let hq := PaillierPrivateKey.hq sk.

Let p_ge_2 : 2 <= p := Z.prime_ge_2 _ (ok_p sk K).
Let q_ge_2 : 2 <= q := Z.prime_ge_2 _ (ok_q sk K).
Let n_eq : n = p * q := ok_n sk K.

Lemma pq_coprime : Z.gcd p q = 1.
Proof.
  apply Z.coprime_prime_l; [exact (ok_p sk K)|].
  intros Hd. apply Z.divide_prime_prime in Hd;
    [|exact (ok_p sk K)|exact (ok_q sk K)].
  pose proof (ok_lt sk K) as Hlt. fold p q in Hlt. lia.
Qed.

Lemma unit_p c : Z.gcd c n = 1 -> Z.gcd c p = 1.
Proof.
  intros H. apply Z.le_antisymm.
  - rewrite <- H. apply Z.divide_pos_le.
    + rewrite H. lia.
    + apply Z.gcd_greatest; [apply Z.gcd_divide_l|].
      apply Z.divide_trans with p; [apply Z.gcd_divide_r|].
      exists q. rewrite n_eq. ring.
  - pose proof (Z.gcd_nonneg c p).
    assert (Z.gcd c p <> 0); [|lia].
    intros E. apply Z.gcd_eq_0_r in E. lia.
Qed.

Lemma unit_q c : Z.gcd c n = 1 -> Z.gcd c q = 1.
Proof.
  intros H. apply Z.le_antisymm.
  - rewrite <- H. apply Z.divide_pos_le.
    + rewrite H. lia.
    + apply Z.gcd_greatest; [apply Z.gcd_divide_l|].
      apply Z.divide_trans with q; [apply Z.gcd_divide_r|].
      exists p. rewrite n_eq. ring.
  - pose proof (Z.gcd_nonneg c q).
    assert (Z.gcd c q <> 0); [|lia].
    intros E. apply Z.gcd_eq_0_r in E. lia.
Qed.

Lemma unit_n c : Z.gcd c p = 1 -> Z.gcd c q = 1 -> Z.gcd c n = 1.
Proof. intros Hp Hq. rewrite n_eq. now apply Z.coprime_mul_r. Qed.

(** [raw_decrypt] is the number below [n] with the two residues the
    L-function gives. *)
Lemma raw_decrypt_spec c :
  let x := PaillierPrivateKey.raw_decrypt sk c in
  0 <= x < n
  /\ x mod p = (lam p c * hp) mod p
  /\ x mod q = (lam q c * hq) mod q.
Proof.
  unfold PaillierPrivateKey.raw_decrypt, PaillierPrivateKey.crt,
    util.mul_mod, util.mul_mod_new.
  rewrite (ok_psquare sk K), (ok_qsquare sk K).
  fold p q hp hq. fold (lam p c) (lam q c).
  set (a := (lam p c * hp) mod p).
  set (b := (lam q c * hq) mod q).
  set (u := ((b - a) * PaillierPrivateKey.p_inverse sk) mod q).
  assert (Ha : 0 <= a < p) by (apply Z.mod_pos_bound; lia).
  assert (Hb : 0 <= b < q) by (apply Z.mod_pos_bound; lia).
  assert (Hu : 0 <= u < q) by (apply Z.mod_pos_bound; lia).
  cbv zeta. split; [rewrite n_eq; nia|]. split.
  - rewrite Z_mod_plus_full. apply Z.mod_small; lia.
  - unfold u. rewrite Zplus_mod, Zmult_mod, Zmod_mod, <- Zmult_mod, <- Zplus_mod.
    replace (a + (b - a) * PaillierPrivateKey.p_inverse sk * p)
      with (a + (b - a) * (PaillierPrivateKey.p_inverse sk * p)) by ring.
    rewrite Zplus_mod, Zmult_mod. fold p q.
    pose proof (ok_p_inverse sk K) as Hi. fold p q in Hi. rewrite Hi.
    rewrite Z.mul_1_r, Zmod_mod, <- Zplus_mod.
    replace (a + (b - a)) with b by ring.
    apply Z.mod_small; lia.
Qed.

Lemma raw_decrypt_range c : 0 <= PaillierPrivateKey.raw_decrypt sk c < n.
Proof. apply raw_decrypt_spec. Qed.

Lemma raw_decrypt_intro c x :
  0 <= x < n ->
  x mod p = (lam p c * hp) mod p ->
  x mod q = (lam q c * hq) mod q ->
  PaillierPrivateKey.raw_decrypt sk c = x.
Proof.
  intros Hx Ep Eq.
  destruct (raw_decrypt_spec c) as (Hr & Rp & Rq).
  apply crt_unique with (p := p) (q := q);
    [ lia | lia | apply pq_coprime | rewrite <- n_eq; exact Hr
    | rewrite <- n_eq; exact Hx | congruence | congruence ].
Qed.

Lemma raw_decrypt_mod c :
  PaillierPrivateKey.raw_decrypt sk (c mod (n * n))
  = PaillierPrivateKey.raw_decrypt sk c.
Proof.
  destruct (raw_decrypt_spec c) as (Hr & Rp & Rq).
  apply raw_decrypt_intro; [exact Hr | |].
  - rewrite lam_mod; [exact Rp | exact (ok_p sk K) |].
    exists (q * q). rewrite n_eq. ring.
  - rewrite lam_mod; [exact Rq | exact (ok_q sk K) |].
    exists (p * p). rewrite n_eq. ring.
Qed.

Lemma raw_decrypt_mul c1 c2 :
  Z.gcd c1 n = 1 -> Z.gcd c2 n = 1 ->
  PaillierPrivateKey.raw_decrypt sk (c1 * c2)
  = (PaillierPrivateKey.raw_decrypt sk c1
     + PaillierPrivateKey.raw_decrypt sk c2) mod n.
Proof.
  intros G1 G2.
  destruct (raw_decrypt_spec c1) as (H1 & P1 & Q1).
  destruct (raw_decrypt_spec c2) as (H2 & P2 & Q2).
  apply raw_decrypt_intro.
  - apply Z.mod_pos_bound. lia.
  - rewrite n_eq at 1. rewrite Z.mod_mod_divide by (exists q; ring).
    rewrite Zplus_mod, P1, P2, <- Zplus_mod.
    rewrite (lam_mul p (ok_p sk K)) by (now apply unit_p).
    rewrite Zmult_mod_idemp_l. f_equal. ring.
  - rewrite n_eq at 1. rewrite Z.mod_mod_divide by (exists p; ring).
    rewrite Zplus_mod, Q1, Q2, <- Zplus_mod.
    rewrite (lam_mul q (ok_q sk K)) by (now apply unit_q).
    rewrite Zmult_mod_idemp_l. f_equal. ring.
Qed.

Lemma raw_decrypt_1 : PaillierPrivateKey.raw_decrypt sk 1 = 0.
Proof.
  apply raw_decrypt_intro; [lia | |].
  - rewrite (lam_1 p (ok_p sk K)). reflexivity.
  - rewrite (lam_1 q (ok_q sk K)). reflexivity.
Qed.

Lemma raw_decrypt_g : PaillierPrivateKey.raw_decrypt sk (n + 1) = 1.
Proof.
  apply raw_decrypt_intro; [nia | |].
  - pose proof (ok_hp sk K) as H. rewrite (ok_g sk K) in H. fold p n hp in H.
    rewrite H. apply Z.mod_small; lia.
  - pose proof (ok_hq sk K) as H. rewrite (ok_g sk K) in H. fold q n hq in H.
    rewrite H. apply Z.mod_small; lia.
Qed.

Lemma unit_g : Z.gcd (n + 1) n = 1.
Proof.
  rewrite Z.gcd_comm. replace (n + 1) with (1 + 1 * n) by ring.
  rewrite Z.gcd_add_mult_diag_r. apply Z.gcd_1_r.
Qed.

Lemma raw_decrypt_pow c k :
  Z.gcd c n = 1 -> 0 <= k ->
  PaillierPrivateKey.raw_decrypt sk (c ^ k)
  = (k * PaillierPrivateKey.raw_decrypt sk c) mod n.
Proof.
  intros G Hk. pattern k. apply natlike_ind; [ | | exact Hk].
  - rewrite Z.pow_0_r, raw_decrypt_1. now rewrite Z.mod_0_l by lia.
  - clear k Hk. intros k Hk IH.
    rewrite Z.pow_succ_r by exact Hk.
    rewrite raw_decrypt_mul; [ | exact G | now apply Z.coprime_pow_l ].
    rewrite IH, Zplus_mod_idemp_r. f_equal. ring.
Qed.

(** The unblinded ciphertext [n*m + 1] decrypts to [m]. *)
Lemma raw_decrypt_nude m :
  0 <= m ->
  PaillierPrivateKey.raw_decrypt sk ((n * m + 1) mod (n * n)) = m mod n.
Proof.
  intros Hm.
  replace (n * m + 1) with (1 + m * n) by ring.
  rewrite <- one_plus_pow by exact Hm.
  rewrite raw_decrypt_mod. replace (1 + n) with (n + 1) by ring.
  rewrite raw_decrypt_pow by (exact unit_g || exact Hm).
  rewrite raw_decrypt_g. f_equal. ring.
Qed.

Lemma unit_nude m : Z.gcd ((n * m + 1) mod (n * n)) n = 1.
Proof.
  assert (H : Z.gcd (n * m + 1) n = 1).
  { rewrite Z.gcd_comm. replace (n * m + 1) with (1 + m * n) by ring.
    rewrite Z.gcd_add_mult_diag_r. apply Z.gcd_1_r. }
  apply unit_n.
  - rewrite <- (Z.gcd_mod_l _ p), Z.mod_mod_divide, Z.gcd_mod_l.
    + now apply unit_p.
    + exists (q * n). rewrite n_eq. ring.
  - rewrite <- (Z.gcd_mod_l _ q), Z.mod_mod_divide, Z.gcd_mod_l.
    + now apply unit_q.
    + exists (p * n). rewrite n_eq. ring.
Qed.

Lemma unit_mod c : Z.gcd c n = 1 -> Z.gcd (c mod (n * n)) n = 1.
Proof.
  intros H. apply unit_n.
  - rewrite <- (Z.gcd_mod_l _ p), Z.mod_mod_divide, Z.gcd_mod_l.
    + now apply unit_p.
    + exists (q * n). rewrite n_eq. ring.
  - rewrite <- (Z.gcd_mod_l _ q), Z.mod_mod_divide, Z.gcd_mod_l.
    + now apply unit_q.
    + exists (p * n). rewrite n_eq. ring.
Qed.

Lemma unit_nsquare c : Z.gcd c n = 1 -> Z.gcd c (n * n) = 1.
Proof. intros H. now apply Z.coprime_mul_r. Qed.

Lemma unit_invmod c : Z.gcd c n = 1 -> Z.gcd (Z.invmod c (n * n)) n = 1.
Proof.
  intros H. pose proof (Z.coprime_invmod c (n * n) (unit_nsquare c H)) as Hi.
  unfold Z.coprime in Hi.
  apply Z.le_antisymm.
  - rewrite <- Hi. apply Z.divide_pos_le; [rewrite Hi; lia|].
    apply Z.gcd_greatest; [apply Z.gcd_divide_l|].
    apply Z.divide_trans with n; [apply Z.gcd_divide_r | exists n; ring].
  - pose proof (Z.gcd_nonneg (Z.invmod c (n * n)) n).
    assert (Z.gcd (Z.invmod c (n * n)) n <> 0); [|lia].
    intros E. apply Z.gcd_eq_0_r in E. nia.
Qed.

Lemma raw_decrypt_invmod c :
  Z.gcd c n = 1 ->
  PaillierPrivateKey.raw_decrypt sk (Z.invmod c (n * n))
  = (- PaillierPrivateKey.raw_decrypt sk c) mod n.
Proof.
  intros G.
  pose proof (Z.invmod_coprime c (n * n) ltac:(nia) (unit_nsquare c G)) as Hi.
  pose proof (raw_decrypt_mul _ _ (unit_invmod c G) G) as Hm.
  rewrite <- raw_decrypt_mod, Hi, raw_decrypt_1 in Hm.
  pose proof (raw_decrypt_range (Z.invmod c (n * n))) as Ri.
  pose proof (raw_decrypt_range c) as Rc.
  set (x := PaillierPrivateKey.raw_decrypt sk (Z.invmod c (n * n))) in *.
  set (y := PaillierPrivateKey.raw_decrypt sk c) in *.
  symmetry in Hm. apply Z.mod_divide in Hm; [|lia].
  destruct Hm as [k Hk].
  apply Z.mod_unique with (q := - k); [left; lia | nia].
Qed.
End KeyPair.

(** ** Building a private key *)

Lemma h_function_ok pk P Q :
  Z.prime P -> Z.gcd Q P = 1 ->
  PaillierPublicKey.g pk = 1 + P * Q ->
  exists h,
    PaillierPrivateKey.h_function pk P (P * P) = Ok h
    /\ (lam P (PaillierPublicKey.g pk) * h) mod P = 1.
Proof.
  intros HP HQ Hg. pose proof (Z.prime_ge_2 _ HP) as P2.
  unfold PaillierPrivateKey.h_function. fold (lam P (PaillierPublicKey.g pk)).
  assert (G : Z.gcd (lam P (PaillierPublicKey.g pk)) P = 1).
  { rewrite Hg, (lam_g P HP). apply Z.coprime_mod_l_iff.
    apply Z.coprime_mul_l; [|exact HQ].
    unfold Z.coprime.
    replace (Z.gcd (P - 1) P) with (Z.gcd (P - 1) (1 + 1 * (P - 1)))
      by (f_equal; ring).
    rewrite Z.gcd_add_mult_diag_r. apply Z.gcd_1_r. }
  rewrite (invert_coprime _ _ G). eexists; split; [reflexivity|].
  rewrite Z.mul_comm. now apply Z.invmod_coprime.
Qed.

Lemma init_ordered pk p q :
  Z.prime p -> Z.prime q -> p < q ->
  PaillierPublicKey.n pk = p * q ->
  PaillierPublicKey.g pk = PaillierPublicKey.n pk + 1 ->
  PaillierPublicKey.nsquare pk = PaillierPublicKey.n pk * PaillierPublicKey.n pk ->
  PaillierPublicKey.max_int pk = PaillierPublicKey.n pk / 3 - 1 ->
  exists pinv hp hq,
    util.invert p q = Ok pinv
    /\ PaillierPrivateKey.h_function pk p (p * p) = Ok hp
    /\ PaillierPrivateKey.h_function pk q (q * q) = Ok hq
    /\ key_ok (PaillierPrivateKey.mk pk p q (p * p) (q * q) pinv hp hq).
Proof.
  intros Hp Hq Hlt Hn Hg Hnsq Hmax.
  pose proof (Z.prime_ge_2 _ Hp) as P2. pose proof (Z.prime_ge_2 _ Hq) as Q2.
  assert (Gpq : Z.gcd p q = 1).
  { apply Z.coprime_prime_l; [exact Hp|]. intros Hd.
    apply Z.divide_prime_prime in Hd; auto. lia. }
  assert (Gqp : Z.gcd q p = 1) by (now rewrite Z.gcd_comm).
  destruct (h_function_ok pk p q Hp Gqp) as (hp & Ehp & Hhp).
  { rewrite Hg, Hn. ring. }
  destruct (h_function_ok pk q p Hq Gpq) as (hq & Ehq & Hhq).
  { rewrite Hg, Hn. ring. }
  exists (Z.invmod p q), hp, hq.
  split; [now apply invert_coprime|]. split; [exact Ehp|]. split; [exact Ehq|].
  constructor; simpl; auto. now apply Z.invmod_coprime.
Qed.

Lemma init_key_ok pk p q :
  Z.prime p -> Z.prime q -> p <> q ->
  PaillierPublicKey.n pk = p * q ->
  PaillierPublicKey.g pk = PaillierPublicKey.n pk + 1 ->
  PaillierPublicKey.nsquare pk = PaillierPublicKey.n pk * PaillierPublicKey.n pk ->
  PaillierPublicKey.max_int pk = PaillierPublicKey.n pk / 3 - 1 ->
  exists sk,
    PaillierPrivateKey.__init__ pk p q = Ok sk
    /\ key_ok sk
    /\ PaillierPrivateKey.public_key sk = pk
    /\ PaillierPrivateKey.p sk = Z.min p q
    /\ PaillierPrivateKey.q sk = Z.max p q.
Proof.
  intros Hp Hq Hne Hn Hg Hnsq Hmax.
  unfold PaillierPrivateKey.__init__.
  rewrite Hn, Z.eqb_refl. simpl negb. cbv iota.
  destruct (Z.eqb_spec p q) as [|_]; [contradiction|].
  destruct (Z.ltb_spec q p) as [Hlt|Hge].
  - destruct (init_ordered pk q p Hq Hp Hlt) as (pinv & hp & hq & E1 & E2 & E3 & Hok);
      auto; [rewrite Hn; ring|].
    rewrite E1. cbn [bind]. rewrite E2. cbn [bind]. rewrite E3. cbn [bind].
    eexists; split; [reflexivity|]. split; [exact Hok|]. simpl.
    repeat split; lia.
  - destruct (init_ordered pk p q Hp Hq ltac:(lia)) as (pinv & hp & hq & E1 & E2 & E3 & Hok);
      auto.
    rewrite E1. cbn [bind]. rewrite E2. cbn [bind]. rewrite E3. cbn [bind].
    eexists; split; [reflexivity|]. split; [exact Hok|]. simpl.
    repeat split; lia.
Qed.

Lemma init_distinct pk p q sk :
  PaillierPrivateKey.__init__ pk p q = Ok sk ->
  p <> q /\ p * q = PaillierPublicKey.n pk.
Proof.
  unfold PaillierPrivateKey.__init__.
  destruct (Z.eqb_spec (p * q) (PaillierPublicKey.n pk)); simpl; [|discriminate].
  destruct (Z.eqb_spec p q); [discriminate|]. auto.
Qed.

Lemma generated_key_ok pk sk :
  generated pk sk -> key_ok sk /\ PaillierPrivateKey.public_key sk = pk.
Proof.
  intros (p & q & tbl & nl & noise & Hp & Hq & Epk & Esk).
  destruct (init_distinct _ _ _ _ Esk) as [Hne Hn].
  destruct (init_key_ok pk p q Hp Hq Hne) as (sk' & E' & Hok & Hpk & _);
    try (subst pk; reflexivity).
  rewrite Esk in E'. injection E' as <-. auto.
Qed.

(** ** Encryption *)

Lemma raw_encrypt_unfold pk plaintext r_value r :
  PaillierPublicKey.raw_encrypt pk plaintext r_value r
  = (nude <- nude_ciphertext (PaillierPublicKey.n pk)
               (PaillierPublicKey.max_int pk) (PaillierPublicKey.nsquare pk)
               plaintext ;;
     '(o, r') <- obfuscator pk r ;;
     Ok (util.mul_mod nude o (PaillierPublicKey.nsquare pk), r')).
Proof. reflexivity. Qed.

Section Encryption.
Variable sk : PaillierPrivateKey.t.
Hypothesis K : key_ok sk.

Let pk := PaillierPrivateKey.public_key sk.
Let n := PaillierPublicKey.n pk.
Let max_int := PaillierPublicKey.max_int pk.

Let n_ge_6 : 6 <= n.
Proof.
  pose proof (Z.prime_ge_2 _ (ok_p sk K)). pose proof (Z.prime_ge_2 _ (ok_q sk K)).
  pose proof (ok_lt sk K). unfold n, pk. rewrite (ok_n sk K). nia.
Qed.

Lemma encrypts_mod c m : encrypts sk c m -> encrypts sk (c mod (n * n)) m.
Proof.
  intros [G D]. split; [now apply (unit_mod sk K)|].
  unfold n, pk. now rewrite (raw_decrypt_mod sk K).
Qed.

Lemma encrypts_mul c1 c2 m1 m2 :
  encrypts sk c1 m1 -> encrypts sk c2 m2 ->
  encrypts sk (util.mul_mod c1 c2 (n * n)) (m1 + m2).
Proof.
  intros [G1 D1] [G2 D2]. unfold util.mul_mod. apply encrypts_mod.
  split; [now apply Z.coprime_mul_l|].
  unfold n, pk in *. rewrite (raw_decrypt_mul sk K) by assumption.
  rewrite D1, D2. now rewrite <- Zplus_mod.
Qed.

Lemma encrypts_nude m : 0 <= m -> encrypts sk ((n * m + 1) mod (n * n)) m.
Proof.
  intros Hm. split; [apply (unit_nude sk K)|].
  now apply (raw_decrypt_nude sk K).
Qed.

Lemma encrypts_invmod c m : encrypts sk c m -> encrypts sk (Z.invmod c (n * n)) (- m).
Proof.
  intros [G D]. split; [now apply (unit_invmod sk K)|].
  unfold n, pk in *. rewrite (raw_decrypt_invmod sk K) by assumption.
  rewrite D. rewrite <- (Z.sub_0_l (m mod _)), <- (Z.sub_0_l m).
  now rewrite Zminus_mod_idemp_r.
Qed.

Lemma encrypts_pow c m k :
  encrypts sk c m -> 0 <= k -> encrypts sk (util.powmod c k (n * n)) (k * m).
Proof.
  intros [G D] Hk. rewrite powmod_correct by nia. apply encrypts_mod.
  split; [now apply Z.coprime_pow_l|].
  unfold n, pk in *. rewrite (raw_decrypt_pow sk K) by assumption.
  rewrite D. now rewrite Zmult_mod_idemp_r.
Qed.

Lemma encrypts_blinding o : blinding n o -> encrypts sk o 0.
Proof.
  intros (b & G & ->). apply encrypts_mod.
  split; [apply Z.coprime_pow_l; [lia | exact G]|].
  unfold n, pk in *. rewrite (raw_decrypt_pow sk K) by (assumption || lia).
  rewrite Z.mul_comm, Z_mod_mult. now rewrite Z.mod_0_l by lia.
Qed.

Lemma encrypts_ext c m m' : encrypts sk c m -> m mod n = m' mod n -> encrypts sk c m'.
Proof.
  intros [G D] E. split; [exact G|]. unfold n, pk in E. now rewrite <- E.
Qed.

Lemma nude_ciphertext_ok mi m :
  0 <= m < n ->
  exists c, nude_ciphertext n mi (n * n) m = Ok c /\ encrypts sk c m.
Proof.
  intros Hm. unfold nude_ciphertext, util.mod_, util.mul.
  destruct ((n - mi <=? m) && (m <? n)).
  - cbv zeta.
    pose proof (encrypts_nude (n - m) ltac:(lia)) as E.
    rewrite invert_coprime
      by (apply (unit_nsquare sk); exact (proj1 E)).
    eexists; split; [reflexivity|].
    apply encrypts_ext with (m := - (n - m)); [now apply encrypts_invmod|].
    replace (- (n - m)) with (m + (-1) * n) by ring. apply Z_mod_plus_full.
  - eexists; split; [reflexivity|]. apply encrypts_nude. lia.
Qed.

Lemma raw_encrypt_ok m r_value r :
  0 <= m < n -> well_blinded pk r ->
  exists c r',
    PaillierPublicKey.raw_encrypt pk m r_value r = Ok (c, r')
    /\ encrypts sk c m.
Proof.
  intros Hm (o & r' & Eo & Bo).
  rewrite raw_encrypt_unfold. fold n. unfold pk. rewrite (ok_nsquare sk K).
  fold pk n.
  destruct (nude_ciphertext_ok (PaillierPublicKey.max_int pk) m Hm)
    as (c0 & E0 & H0).
  rewrite E0. cbn [bind]. rewrite Eo. cbn [bind].
  eexists; eexists; split; [reflexivity|].
  apply encrypts_ext with (m := m + 0); [|now rewrite Z.add_0_r].
  apply encrypts_mul; [exact H0 | now apply encrypts_blinding].
Qed.

Lemma encrypts_decrypt c m :
  encrypts sk c m -> 0 <= m < n -> PaillierPrivateKey.raw_decrypt sk c = m.
Proof. intros [_ D] Hm. rewrite D. fold pk n. apply Z.mod_small; lia. Qed.
End Encryption.

(** ** Encoding *)

Lemma Qeq_bool_inject_Z z : Qeq_bool (inject_Z z) 0 = (z =? 0).
Proof.
  unfold Qeq_bool, inject_Z. simpl. rewrite Z.mul_1_r.
  destruct z; reflexivity.
Qed.

Section Encoding.
Variable BASE : Z.
Hypothesis BASE_gt_1 : 1 < BASE.
Variables n max_int : Z.
Hypothesis n_ge_6 : 6 <= n.
Hypothesis max_int_eq : max_int = n / 3 - 1.

Lemma max_int_bounds : 1 <= max_int /\ 3 * max_int < n.
Proof.
  subst max_int. pose proof (Z.div_mod n 3 ltac:(lia)).
  pose proof (Z.mod_pos_bound n 3 ltac:(lia)). lia.
Qed.

Lemma wrap_Ok v m enc :
  EncodedNumber.wrap n max_int v m = Ok enc ->
  Z.abs m <= max_int /\ 0 <= enc < n /\ enc = m mod n.
Proof.
  pose proof max_int_bounds as Hb.
  unfold EncodedNumber.wrap.
  destruct (Z.ltb_spec max_int (Z.abs m)); [discriminate|].
  destruct ((m =? 0) && negb (Qeq_bool (to_Q v) 0)); [discriminate|].
  intros [= <-]. split; [lia|].
  destruct (Z.ltb_spec m 0).
  - split; [lia|]. apply Z.mod_unique with (q := -1); lia.
  - split; [lia|]. symmetry. apply Z.mod_small. lia.
Qed.

Lemma wrap_int z m :
  Z.abs m <= max_int -> (m = 0 -> z = 0) ->
  EncodedNumber.wrap n max_int (PInt z) m = Ok (m mod n).
Proof.
  pose proof max_int_bounds as Hb. intros Hm Hz.
  unfold EncodedNumber.wrap.
  destruct (Z.ltb_spec max_int (Z.abs m)); [lia|].
  simpl to_Q. rewrite Qeq_bool_inject_Z.
  destruct (Z.eqb_spec m 0) as [->|Hm0].
  - rewrite (Hz eq_refl). simpl. reflexivity.
  - simpl. f_equal. destruct (Z.ltb_spec m 0).
    + apply Z.mod_unique with (q := -1); lia.
    + symmetry. apply Z.mod_small. lia.
Qed.

Lemma mantissa_mod m :
  - max_int < m <= max_int ->
  EncodedNumber.mantissa n max_int (m mod n) = m.
Proof.
  pose proof max_int_bounds as Hb. intros Hm.
  unfold EncodedNumber.mantissa.
  destruct (Z_lt_le_dec m 0).
  - replace (m mod n) with (m + n)
      by (apply Z.mod_unique with (q := -1); lia).
    destruct (Z.ltb_spec (n - max_int) (m + n)); lia.
  - rewrite Z.mod_small by lia.
    destruct (Z.ltb_spec (n - max_int) m); lia.
Qed.

Lemma encode_int z max_exponent :
  let e := EncodedNumber.cap_exponent max_exponent 0 in
  Z.abs (z * BASE ^ (- e)) <= max_int ->
  forall precision,
  EncodedNumber.encode BASE n max_int (PInt z) precision max_exponent
  = Ok (EncodedNumber.mk n max_int ((z * BASE ^ (- e)) mod n) e).
Proof.
  intros e Hz precision. unfold EncodedNumber.encode. cbn [bind].
  fold e. unfold EncodedNumber.int_rep.
  rewrite wrap_int; [reflexivity | exact Hz |].
  intros H0. apply Z.mul_eq_0 in H0. destruct H0 as [H0|H0]; [exact H0|].
  exfalso. unfold e in H0.
  assert (He : 0 <= - EncodedNumber.cap_exponent max_exponent 0).
  { unfold EncodedNumber.cap_exponent. destruct max_exponent; lia. }
  pose proof (Z.pow_pos_nonneg BASE _ ltac:(lia) He). lia.
Qed.

Lemma encode_Ok v precision max_exponent ek :
  EncodedNumber.encode BASE n max_int v precision max_exponent = Ok ek ->
  EncodedNumber.n ek = n /\ EncodedNumber.max_int ek = max_int
  /\ 0 <= EncodedNumber.encoding ek < n
  /\ Z.abs (EncodedNumber.int_rep BASE v (EncodedNumber.exponent ek)) <= max_int
  /\ EncodedNumber.encoding ek
     = EncodedNumber.int_rep BASE v (EncodedNumber.exponent ek) mod n.
Proof.
  unfold EncodedNumber.encode.
  destruct (match v with PInt _ => _ | PFloat _ => _ end) as [pe|]; [|discriminate].
  cbn [bind].
  destruct (EncodedNumber.wrap _ _ _ _) as [enc|] eqn:Ew; [|discriminate].
  cbn [bind]. intros [= <-]. simpl.
  apply wrap_Ok in Ew. intuition.
Qed.
End Encoding.

(** ** Exponents *)

Section Exponents.
Variable BASE : Z.
Hypothesis BASE_gt_1 : 1 < BASE.



End Exponents.

(** ** Scalar ciphertexts *)

Section Scalar.
Variable BASE : Z.
Hypothesis BASE_gt_1 : 1 < BASE.
Variable sk : PaillierPrivateKey.t.
Hypothesis K : key_ok sk.

Let pk := PaillierPrivateKey.public_key sk.
Let n := PaillierPublicKey.n pk.
Let max_int := PaillierPublicKey.max_int pk.

Lemma key_n_ge_6 : 6 <= n.
Proof.
  pose proof (Z.prime_ge_2 _ (ok_p sk K)). pose proof (Z.prime_ge_2 _ (ok_q sk K)).
  pose proof (ok_lt sk K). unfold n, pk. rewrite (ok_n sk K). nia.
Qed.

Lemma key_max_int : 1 <= max_int /\ 3 * max_int < n.
Proof.
  apply max_int_bounds; [exact key_n_ge_6 | exact (ok_max_int sk K)].
Qed.

Lemma raw_mul_ok c m k :
  cipher_ok sk c -> encrypts sk (EncryptedNumber.ciphertext c) m ->
  0 <= k < n ->
  exists x, EncryptedNumber._raw_mul c k = Ok x /\ encrypts sk x (k * m).
Proof.
  intros (En & Ens & Emi) Hc Hk.
  unfold EncryptedNumber._raw_mul. rewrite En, Ens, Emi. fold pk n.
  destruct (Z.ltb_spec k 0); [lia|]. destruct (Z.leb_spec n k); [lia|].
  cbn [orb]. destruct (n - PaillierPublicKey.max_int pk <=? k).
  - rewrite invert_coprime by (apply unit_nsquare; exact (proj1 Hc)).
    cbn [bind]. eexists; split; [reflexivity|].
    apply encrypts_ext with (m := (n - k) * (- m)).
    + apply encrypts_pow; [exact K | now apply encrypts_invmod | lia].
    + fold pk n. replace ((n - k) * - m) with (k * m + (- m) * n) by ring.
      apply Z_mod_plus_full.
  - eexists; split; [reflexivity|]. apply encrypts_pow; [exact K|exact Hc|lia].
Qed.

Lemma mul_encoded_holds c m e ek M :
  holds sk c m e ->
  0 <= EncodedNumber.encoding ek < n ->
  EncodedNumber.encoding ek = M mod n ->
  exists c',
    EncryptedNumber.__mul__ BASE c (EncryptedNumber.Encoded ek) = Ok c'
    /\ holds sk c' (m * M) (e + EncodedNumber.exponent ek).
Proof.
  intros (Hok & He & Hc) Hr HM.
  unfold EncryptedNumber.__mul__. cbn [bind].
  destruct (raw_mul_ok c m _ Hok Hc Hr) as (x & Ex & Hx).
  rewrite Ex. cbn [bind]. eexists; split; [reflexivity|].
  split; [exact Hok|]. split; [simpl; now rewrite He|]. simpl.
  apply encrypts_ext with (m := EncodedNumber.encoding ek * m); [exact Hx|].
  fold pk n. rewrite HM, Zmult_mod_idemp_l. f_equal. ring.
Qed.

Lemma mul_scalar_holds c m e v ek :
  holds sk c m e ->
  EncodedNumber.encode BASE n max_int v None None = Ok ek ->
  exists c',
    EncryptedNumber.__mul__ BASE c (EncryptedNumber.Scalar v) = Ok c'
    /\ holds sk c'
         (m * EncodedNumber.int_rep BASE v (EncodedNumber.exponent ek))
         (e + EncodedNumber.exponent ek).
Proof.
  intros H Ee.
  destruct (encode_Ok BASE n max_int key_n_ge_6 (ok_max_int sk K) _ _ _ _ Ee)
    as (_ & _ & Hr & _ & HM).
  destruct (mul_encoded_holds c m e ek _ H Hr HM) as (c' & Ec & Hc).
  exists c'. split; [|exact Hc].
  unfold EncryptedNumber.__mul__ in *.
  destruct H as ((En & _ & Emi) & _).
  assert (Ee' : EncodedNumber.encode BASE (EncryptedNumber.n c)
                  (EncryptedNumber.max_int c) v None None = Ok ek)
    by (rewrite En, Emi; exact Ee).
  rewrite Ee'. exact Ec.
Qed.

Lemma mul_int_holds c m e k :
  holds sk c m e -> Z.abs k <= max_int ->
  exists c',
    EncryptedNumber.__mul__ BASE c (EncryptedNumber.Scalar (PInt k)) = Ok c'
    /\ holds sk c' (m * k) e.
Proof.
  intros H Hk.
  pose proof (encode_int BASE BASE_gt_1 n max_int key_n_ge_6 (ok_max_int sk K)
                k None) as Ee.
  cbn zeta in Ee. simpl EncodedNumber.cap_exponent in Ee.
  simpl Z.opp in Ee. rewrite Z.pow_0_r, Z.mul_1_r in Ee.
  specialize (Ee Hk None).
  destruct (mul_scalar_holds c m e _ _ H Ee) as (c' & Ec & Hc).
  exists c'. split; [exact Ec|]. simpl in Hc.
  rewrite ?Z.pow_0_r, ?Z.mul_1_r, ?Z.add_0_r in Hc. exact Hc.
Qed.

Lemma decrease_exponent_holds c m e new_exp :
  holds sk c m e -> new_exp <= e -> BASE ^ (e - new_exp) <= max_int ->
  exists c',
    EncryptedNumber.decrease_exponent_to BASE c new_exp = Ok c'
    /\ holds sk c' (m * BASE ^ (e - new_exp)) new_exp.
Proof.
  intros H Hle Hb. unfold EncryptedNumber.decrease_exponent_to.
  pose proof H as (_ & He & _). rewrite He.
  destruct (Z.ltb_spec e new_exp); [lia|].
  assert (Hp : 0 < BASE ^ (e - new_exp)) by (apply Z.pow_pos_nonneg; lia).
  destruct (mul_int_holds c m e (BASE ^ (e - new_exp)) H ltac:(lia))
    as (c' & Ec & (Hok & He' & Hc)).
  rewrite Ec. cbn [bind]. eexists; split; [reflexivity|].
  split; [exact Hok|]. split; [reflexivity|exact Hc].
Qed.

Lemma add_encrypted_holds a b ma mb ea eb :
  holds sk a ma ea -> holds sk b mb eb ->
  BASE ^ (Z.max ea eb - Z.min ea eb) <= max_int ->
  exists c,
    EncryptedNumber._add_encrypted BASE a b = Ok c
    /\ holds sk c (ma * BASE ^ (ea - Z.min ea eb)
                   + mb * BASE ^ (eb - Z.min ea eb)) (Z.min ea eb).
Proof.
  intros Ha Hb Hd. unfold EncryptedNumber._add_encrypted.
  pose proof Ha as ((Ena & Ensa & Emia) & Hea & Hca).
  pose proof Hb as ((Enb & Ensb & Emib) & Heb & Hcb).
  rewrite Ena, Enb, Z.eqb_refl, Hea, Heb. cbn [negb].
  destruct (Z.ltb_spec eb ea) as [Hlt|Hge].
  - replace (Z.max ea eb) with ea in Hd by lia.
    replace (Z.min ea eb) with eb in * by lia.
    destruct (decrease_exponent_holds a ma ea eb Ha ltac:(lia) Hd)
      as (a' & Ea & ((En' & Ens' & Emi') & He' & Hc')).
    rewrite Ea. cbn [bind]. eexists; split; [reflexivity|].
    split; [repeat split; assumption|]. split; [cbn; lia|]. cbn.
    unfold EncryptedNumber._raw_add. rewrite Ens'.
    rewrite Z.sub_diag, Z.pow_0_r, Z.mul_1_r.
    now apply encrypts_mul.
  - destruct (Z.ltb_spec ea eb) as [Hlt|Hge'].
    + replace (Z.max ea eb) with eb in Hd by lia.
      replace (Z.min ea eb) with ea in * by lia.
      destruct (decrease_exponent_holds b mb eb ea Hb ltac:(lia) Hd)
        as (b' & Eb & ((En' & Ens' & Emi') & He' & Hc')).
      rewrite Eb. cbn [bind]. eexists; split; [reflexivity|].
      split; [repeat split; assumption|]. split; [cbn; lia|]. cbn.
      unfold EncryptedNumber._raw_add. rewrite Ensa.
      rewrite Z.sub_diag, Z.pow_0_r, Z.mul_1_r.
      now apply encrypts_mul.
    + replace (Z.min ea eb) with ea by lia.
      replace (eb - ea) with 0 by lia.
      cbn [bind]. eexists; split; [reflexivity|].
      split; [repeat split; assumption|]. split; [cbn; lia|]. cbn.
      unfold EncryptedNumber._raw_add. rewrite Ensa.
      rewrite Z.sub_diag, Z.pow_0_r, !Z.mul_1_r.
      now apply encrypts_mul.
Qed.
End Scalar.

Section Scalar2.
Variable BASE : Z.
Hypothesis BASE_gt_1 : 1 < BASE.
Variable sk : PaillierPrivateKey.t.
Hypothesis K : key_ok sk.

Let pk := PaillierPrivateKey.public_key sk.
Let n := PaillierPublicKey.n pk.
Let max_int := PaillierPublicKey.max_int pk.

Lemma encrypt_encoded_holds ek M r_value r :
  well_blinded pk r ->
  0 <= EncodedNumber.encoding ek < n ->
  EncodedNumber.encoding ek = M mod n ->
  exists c r',
    PaillierPublicKey.encrypt_encoded pk ek r_value r = Ok (c, r')
    /\ holds sk c M (EncodedNumber.exponent ek).
Proof.
  intros Hb Hr HM. unfold PaillierPublicKey.encrypt_encoded.
  destruct (raw_encrypt_ok sk K _ (Some (PaillierPublicKey.or_1 r_value)) r Hr Hb)
    as (c & r' & Ec & Hc).
  fold pk in Ec. rewrite Ec. cbn [bind].
  eexists; eexists; split; [reflexivity|].
  split; [|split; [reflexivity|]].
  - unfold cipher_ok. cbn. fold pk. repeat split. exact (ok_nsquare sk K).
  - cbn. apply (encrypts_ext sk) with (m := EncodedNumber.encoding ek); [exact Hc|].
    fold pk n. rewrite HM. now rewrite Zmod_mod.
Qed.

Lemma encrypt_holds v precision r_value r ek :
  well_blinded pk r ->
  EncodedNumber.encode BASE n max_int v precision None = Ok ek ->
  exists c r',
    PaillierPublicKey.encrypt BASE pk (PlainNumber v) precision r_value r
    = Ok (c, r')
    /\ holds sk c (EncodedNumber.int_rep BASE v (EncodedNumber.exponent ek))
         (EncodedNumber.exponent ek).
Proof.
  intros Hb Ee. unfold PaillierPublicKey.encrypt. fold n max_int.
  rewrite Ee. cbn [bind].
  destruct (encode_Ok BASE n max_int (key_n_ge_6 sk K) (ok_max_int sk K)
              _ _ _ _ Ee) as (_ & _ & Hr & _ & HM).
  now apply encrypt_encoded_holds.
Qed.

Lemma decrypt_holds c m e :
  holds sk c m e -> - max_int < m <= max_int ->
  PaillierPrivateKey.decrypt BASE sk c = Ok (EncodedNumber.scale BASE m e).
Proof.
  intros ((En & _ & _) & He & Hc) Hm.
  unfold PaillierPrivateKey.decrypt, PaillierPrivateKey.decrypt_encoded.
  rewrite En, Z.eqb_refl. cbn [negb bind].
  unfold EncodedNumber.decode. cbn.
  rewrite (proj2 Hc), He. fold pk n max_int.
  rewrite (mantissa_mod n max_int (key_n_ge_6 sk K) (ok_max_int sk K)) by exact Hm.
  reflexivity.
Qed.

Lemma add_encoded_holds a ma ea ek M :
  holds sk a ma ea ->
  EncodedNumber.n ek = n ->
  0 <= EncodedNumber.encoding ek < n ->
  EncodedNumber.encoding ek = M mod n ->
  let eb := EncodedNumber.exponent ek in
  BASE ^ (Z.max ea eb - Z.min ea eb) <= max_int ->
  exists c,
    EncryptedNumber._add_encoded BASE a ek = Ok c
    /\ holds sk c (ma * BASE ^ (ea - Z.min ea eb)
                   + M * BASE ^ (eb - Z.min ea eb)) (Z.min ea eb).
Proof.
  intros Ha Hn Hr HM eb Hd. unfold EncryptedNumber._add_encoded.
  pose proof Ha as ((Ena & Ensa & Emia) & Hea & Hca).
  rewrite Ena, Hn. fold pk n. rewrite Z.eqb_refl, Hea. cbn [negb]. fold eb.
  destruct (Z.ltb_spec eb ea) as [Hlt|Hge].
  - replace (Z.max ea eb) with ea in Hd by lia.
    replace (Z.min ea eb) with eb in * by lia.
    destruct (decrease_exponent_holds BASE BASE_gt_1 sk K a ma ea eb Ha
                ltac:(lia) Hd)
      as (a' & Ea & ((En' & Ens' & Emi') & He' & Hc')).
    rewrite Ea. cbn [bind].
    unfold EncryptedNumber._raw_encrypt. rewrite En', Ens', Emi'.
    fold pk n.
    destruct (nude_ciphertext_ok sk K (PaillierPublicKey.max_int pk)
                (EncodedNumber.encoding ek) Hr) as (x & Ex & Hx).
    unfold nude_ciphertext in Ex. fold pk n in Ex. rewrite Ex. cbn [bind].
    eexists; split; [reflexivity|].
    split; [repeat split; assumption|]. split; [cbn; lia|]. cbn.
    unfold EncryptedNumber._raw_add. rewrite Ens'.
    rewrite Z.sub_diag, Z.pow_0_r, Z.mul_1_r.
    apply (encrypts_mul sk K); [exact Hc'|].
    apply (encrypts_ext sk) with (m := EncodedNumber.encoding ek); [exact Hx|].
    fold pk n. rewrite HM. now rewrite Zmod_mod.
  - destruct (Z.ltb_spec ea eb) as [Hlt|Hge'].
    + replace (Z.max ea eb) with eb in Hd by lia.
      replace (Z.min ea eb) with ea in * by lia.
      unfold EncodedNumber.decrease_exponent_to. fold eb.
      destruct (Z.ltb_spec eb ea); [lia|]. cbn [bind].
      unfold EncryptedNumber._raw_encrypt. rewrite Ena, Ensa, Emia.
      fold pk n. cbn [EncodedNumber.encoding EncodedNumber.n].
      rewrite Hn.
      assert (Hr' : 0 <= (EncodedNumber.encoding ek * BASE ^ (eb - ea)) mod n < n)
        by (apply Z.mod_pos_bound; assert (H6 : 6 <= n) by exact (key_n_ge_6 sk K); lia).
      destruct (nude_ciphertext_ok sk K (PaillierPublicKey.max_int pk) _ Hr')
        as (x & Ex & Hx).
      unfold nude_ciphertext in Ex. fold pk n in Ex. rewrite Ex. cbn [bind].
      eexists; split; [reflexivity|].
      split; [repeat split; assumption|]. split; [cbn; lia|]. cbn.
      unfold EncryptedNumber._raw_add. rewrite Ensa.
      rewrite Z.sub_diag, Z.pow_0_r, Z.mul_1_r.
      apply (encrypts_mul sk K); [exact Hca|].
      apply (encrypts_ext sk) with (1 := Hx).
      fold pk n. rewrite Zmod_mod, HM, Zmult_mod_idemp_l. reflexivity.
    + replace (Z.min ea eb) with ea by lia.
      replace (eb - ea) with 0 by lia.
      cbn [bind].
      unfold EncryptedNumber._raw_encrypt. rewrite Ena, Ensa, Emia.
      fold pk n.
      destruct (nude_ciphertext_ok sk K (PaillierPublicKey.max_int pk)
                  (EncodedNumber.encoding ek) Hr) as (x & Ex & Hx).
      unfold nude_ciphertext in Ex. fold pk n in Ex. rewrite Ex. cbn [bind].
      eexists; split; [reflexivity|].
      split; [repeat split; assumption|]. split; [cbn; lia|]. cbn.
      unfold EncryptedNumber._raw_add. rewrite Ensa.
      rewrite Z.sub_diag, Z.pow_0_r, !Z.mul_1_r.
      apply (encrypts_mul sk K); [exact Hca|].
      apply (encrypts_ext sk) with (m := EncodedNumber.encoding ek); [exact Hx|].
      fold pk n. rewrite HM. now rewrite Zmod_mod.
Qed.
End Scalar2.

(** ** Values of encodings *)

Lemma py_round_inject x z : Qeq x (inject_Z z) -> py_round x = z.
Proof.
  intros E. unfold py_round.
  rewrite (Qfloor_comp _ _ E), Qfloor_Z.
  assert (H : Qeq (Qminus x (inject_Z z)) 0) by (rewrite E; ring).
  assert (C : Qcompare (Qminus x (inject_Z z)) (1 # 2) = Lt).
  { rewrite (Qcompare_comp _ _ H (1 # 2) (1 # 2) (Qeq_refl _)). reflexivity. }
  now rewrite C.
Qed.

Section Values.
Variable BASE : Z.
Hypothesis BASE_gt_1 : 1 < BASE.

Let B_nz : ~ Qeq (inject_Z BASE) 0.
Proof. intros E. apply (inject_Z_injective BASE 0) in E. lia. Qed.

Lemma scale_value m e :
  Qeq (to_Q (EncodedNumber.scale BASE m e)) (value BASE m e).
Proof.
  unfold EncodedNumber.scale, value.
  destruct (Z.leb_spec 0 e) as [He|He]; cbn [to_Q].
  - rewrite inject_Z_mult, Zpower_Qpower by exact He. reflexivity.
  - assert (P : 0 < BASE ^ (- e)) by (apply Z.pow_pos_nonneg; lia).
    rewrite Qmake_Qdiv, Z2Pos.id by exact P.
    rewrite Zpower_Qpower by lia. rewrite Qpower_opp.
    unfold Qdiv. rewrite Qinv_involutive. reflexivity.
Qed.

Lemma value_rescale m e d :
  0 <= d -> Qeq (value BASE (m * BASE ^ d) (e - d)) (value BASE m e).
Proof.
  intros Hd. unfold value.
  rewrite inject_Z_mult, Zpower_Qpower by exact Hd.
  replace e with (d + (e - d)) at 2 by ring.
  rewrite (Qpower_plus _ d (e - d)) by exact B_nz. ring.
Qed.

Lemma value_plus m1 m2 e :
  Qeq (value BASE (m1 + m2) e) (Qplus (value BASE m1 e) (value BASE m2 e)).
Proof. unfold value. rewrite inject_Z_plus. ring. Qed.


Lemma value_0 m : Qeq (value BASE m 0) (inject_Z m).
Proof. unfold value. simpl. ring. Qed.


Lemma find_exponent_sound fuel k prec qs e :
  EncodedNumber.find_exponent BASE fuel k prec qs = Some e ->
  k <= - e /\ forallb (EncodedNumber.meets BASE (- e) prec) qs = true.
Proof.
  revert k. induction fuel as [|fuel IH]; intros k; cbn [EncodedNumber.find_exponent].
  - destruct (forallb (EncodedNumber.meets BASE k prec) qs) eqn:F; [|discriminate].
    intros H. injection H as <-. rewrite Z.opp_involutive. split; [lia|exact F].
  - destruct (forallb (EncodedNumber.meets BASE k prec) qs) eqn:F.
    + intros H. injection H as <-. rewrite Z.opp_involutive. split; [lia|exact F].
    + intros H. apply IH in H. split; [lia|apply H].
Qed.

Lemma meets_within k prec q :
  0 <= k ->
  EncodedNumber.meets BASE k prec q = true ->
  Qle (Qabs (Qminus (value BASE (py_round (Qmult q (inject_Z (BASE ^ k)))) (- k)) q))
      prec.
Proof.
  intros Hk H. unfold EncodedNumber.meets in H. cbv zeta in H.
  apply Qle_bool_imp_le in H.
  set (r := py_round (Qmult q (inject_Z (BASE ^ k)))) in *.
  assert (P : Qlt 0 (inject_Z (BASE ^ k))).
  { change 0%Q with (inject_Z 0). rewrite <- Zlt_Qlt.
    apply Z.pow_pos_nonneg; lia. }
  assert (E : Qeq (Qminus (value BASE r (- k)) q)
                  (Qmult (Qminus (inject_Z r) (Qmult q (inject_Z (BASE ^ k))))
                         (Qinv (inject_Z (BASE ^ k))))).
  { unfold value. rewrite Qpower_opp, <- Zpower_Qpower by exact Hk.
    field. intros E0. rewrite E0 in P. now apply Qlt_irrefl in P. }
  rewrite E, Qabs_Qmult.
  rewrite (Qabs_pos (Qinv _)) by (apply Qinv_le_0_compat, Qlt_le_weak, P).
  apply Qle_shift_div_r; [exact P|exact H].
Qed.

Lemma meets_exact k q :
  EncodedNumber.meets BASE k 0 q = true ->
  Qeq (Qmult q (inject_Z (BASE ^ k)))
      (inject_Z (py_round (Qmult q (inject_Z (BASE ^ k))))).
Proof.
  intros H. unfold EncodedNumber.meets in H. cbv zeta in H.
  apply Qle_bool_imp_le in H. rewrite Qmult_0_l in H.
  set (x := Qmult q (inject_Z (BASE ^ k))) in *.
  set (r := py_round x) in *.
  apply Qabs_Qle_condition in H. destruct H as [H1 H2]. lra.
Qed.
End Values.

Section EncodeValues.
Variable BASE : Z.
Hypothesis BASE_gt_1 : 1 < BASE.
Variables n max_int : Z.

Let B_nz : ~ Qeq (inject_Z BASE) 0.
Proof. intros E. apply (inject_Z_injective BASE 0) in E. lia. Qed.

Lemma cap_exponent_le mx pe :
  EncodedNumber.cap_exponent mx pe <= pe
  /\ forall m, mx = Some m -> EncodedNumber.cap_exponent mx pe <= m.
Proof.
  unfold EncodedNumber.cap_exponent. destruct mx as [m|].
  - split; [lia|]. intros m' [= <-]. lia.
  - split; [lia|]. discriminate.
Qed.

(** An exact scale stays exact at every finer scale. *)
Lemma exact_finer q k j :
  0 <= k -> 0 <= j ->
  EncodedNumber.meets BASE k 0 q = true ->
  Qeq (Qmult q (inject_Z (BASE ^ (k + j))))
      (inject_Z (py_round (Qmult q (inject_Z (BASE ^ (k + j)))))).
Proof.
  intros Hk Hj H. apply (meets_exact BASE) in H.
  set (r := py_round (Qmult q (inject_Z (BASE ^ k)))) in *.
  assert (E : Qeq (Qmult q (inject_Z (BASE ^ (k + j))))
                  (inject_Z (r * BASE ^ j))).
  { rewrite Z.pow_add_r, !inject_Z_mult by assumption.
    rewrite Qmult_assoc, H. reflexivity. }
  rewrite (py_round_inject _ _ E). exact E.
Qed.

Lemma encode_exponent v precision mx ek :
  EncodedNumber.encode BASE n max_int v precision mx = Ok ek ->
  EncodedNumber.exponent ek <= 0
  /\ forall m, mx = Some m -> EncodedNumber.exponent ek <= m.
Proof.
  unfold EncodedNumber.encode. destruct v as [z|q].
  - cbn [bind].
    destruct (EncodedNumber.wrap _ _ _ _); [|discriminate]. cbn [bind].
    intros [= <-]. cbn. pose proof (cap_exponent_le mx 0). intuition lia.
  - destruct (EncodedNumber.find_exponent _ _ _ _ _) as [pe|] eqn:F;
      [|discriminate].
    cbn [bind].
    destruct (EncodedNumber.wrap _ _ _ _); [|discriminate]. cbn [bind].
    intros [= <-]. cbn. apply find_exponent_sound in F.
    pose proof (cap_exponent_le mx pe). intuition lia.
Qed.


(** With a precision a float is encoded within it. *)
Lemma encode_within q precision ek :
  EncodedNumber.encode BASE n max_int (PFloat q) precision None = Ok ek ->
  Qle (Qabs (Qminus
               (value BASE (EncodedNumber.int_rep BASE (PFloat q)
                              (EncodedNumber.exponent ek))
                      (EncodedNumber.exponent ek))
               q))
      (EncodedNumber.precision_or_exact precision).
Proof.
  unfold EncodedNumber.encode.
  destruct (EncodedNumber.find_exponent _ _ _ _ _) as [pe|] eqn:F;
    [|discriminate].
  cbn [bind].
  destruct (EncodedNumber.wrap _ _ _ _); [|discriminate]. cbn [bind].
  intros [= <-]. cbn.
  apply find_exponent_sound in F. destruct F as [Hpe F].
  cbn [forallb] in F. rewrite andb_true_r in F.
  pose proof (meets_within BASE BASE_gt_1 (- pe) _ _ ltac:(lia) F) as W.
  now rewrite Z.opp_involutive in W.
Qed.
End EncodeValues.

Section Scalar3.
Variable BASE : Z.
Hypothesis BASE_gt_1 : 1 < BASE.
Variable sk : PaillierPrivateKey.t.
Hypothesis K : key_ok sk.

Let pk := PaillierPrivateKey.public_key sk.
Let n := PaillierPublicKey.n pk.
Let max_int := PaillierPublicKey.max_int pk.

Lemma decrypt_value c m e :
  holds sk c m e -> - max_int < m <= max_int ->
  exists d, PaillierPrivateKey.decrypt BASE sk c = Ok d
            /\ Qeq (to_Q d) (value BASE m e).
Proof.
  intros H Hm. eexists; split; [apply (decrypt_holds BASE sk K c m e H Hm)|].
  apply (scale_value BASE BASE_gt_1).
Qed.

Lemma add_scalar_holds a ma ea v ek :
  holds sk a ma ea ->
  EncodedNumber.encode BASE n max_int v None (Some ea) = Ok ek ->
  let eb := EncodedNumber.exponent ek in
  BASE ^ (ea - eb) <= max_int ->
  exists c,
    EncryptedNumber._add_scalar BASE a v = Ok c
    /\ holds sk c (ma * BASE ^ (ea - eb) + EncodedNumber.int_rep BASE v eb) eb.
Proof.
  intros Ha Ee eb Hd.
  destruct (encode_Ok BASE n max_int (key_n_ge_6 sk K) (ok_max_int sk K)
              _ _ _ _ Ee) as (Hn & _ & Hr & _ & HM).
  destruct (encode_exponent BASE n max_int _ _ _ _ Ee) as [_ Hle].
  specialize (Hle ea eq_refl). fold eb in Hle, HM.
  unfold EncryptedNumber._add_scalar.
  pose proof Ha as ((Ena & _ & Emia) & Hea & _).
  rewrite Ena, Emia, Hea. fold pk n max_int. rewrite Ee. cbn [bind].
  destruct (add_encoded_holds BASE BASE_gt_1 sk K a ma ea ek _ Ha Hn Hr HM)
    as (c & Ec & Hc).
  { fold eb. replace (Z.max ea eb) with ea by lia.
    replace (Z.min ea eb) with eb by lia. exact Hd. }
  exists c. split; [exact Ec|]. fold eb in Hc.
  replace (Z.min ea eb) with eb in Hc by lia.
  rewrite Z.sub_diag, Z.pow_0_r, Z.mul_1_r in Hc. exact Hc.
Qed.

End Scalar3.

(** ** Concrete primes and blinding factors *)

Lemma no_divisor_sound fuel d x :
  0 < d -> no_divisor fuel d x = true ->
  forall e, d <= e < d + Z.of_nat fuel -> e * e <= x -> x mod e <> 0.
Proof.
  revert d. induction fuel as [|fuel IH]; intros d Hd H e He Hsq.
  - lia.
  - cbn [no_divisor] in H.
    destruct (Z.ltb_spec x (d * d)) as [Hlt|Hge].
    + nia.
    + destruct (Z.eqb_spec (x mod d) 0) as [|Hnz]; [discriminate|].
      destruct (Z.eq_dec e d) as [->|Hne]; [exact Hnz|].
      apply (IH (d + 1)); [lia | exact H | lia | exact Hsq].
Qed.

Lemma is_prime_sound x : is_prime x = true -> Z.prime x.
Proof.
  unfold is_prime. intros H. apply andb_prop in H. destruct H as [H1 H2].
  apply Z.ltb_lt in H1. split; [exact H1|].
  intros m Hm [k Hk].
  assert (Hk1 : 1 < k < x) by nia.
  pose proof (Z.sqrt_spec x ltac:(lia)) as Hs.
  pose proof (Z.sqrt_nonneg x) as Hs0.
  assert (Hsmall : exists e, 2 <= e /\ e * e <= x /\ x mod e = 0).
  { destruct (Z_le_gt_dec m k).
    - exists m. split; [lia|]. split; [nia|].
      rewrite Hk. apply Z_mod_mult.
    - exists k. split; [lia|]. split; [nia|].
      rewrite Hk, Z.mul_comm. apply Z_mod_mult. }
  destruct Hsmall as (e & He2 & Hee & Hmod).
  apply (no_divisor_sound _ 2 x ltac:(lia) H2 e); [|exact Hee|exact Hmod].
  rewrite Z2Nat.id by lia. split; [lia|].
  assert (e <= Z.sqrt x); [|lia].
  apply Z.sqrt_le_square; lia.
Qed.

(** ** Blinding factors *)

Lemma well_blinded_fresh pk r :
  PaillierPublicKey.has_table pk = false ->
  PaillierPublicKey.nsquare pk = PaillierPublicKey.n pk * PaillierPublicKey.n pk ->
  1 < PaillierPublicKey.n pk ->
  Z.gcd (1 + tape r (pos r) mod (PaillierPublicKey.n pk - 1))
        (PaillierPublicKey.n pk) = 1 ->
  well_blinded pk r.
Proof.
  intros Ht Hsq Hn Hg. unfold well_blinded, obfuscator. rewrite Ht.
  unfold PaillierPublicKey.get_random_lt_n, randrange.
  destruct (Z.leb_spec (PaillierPublicKey.n pk) 1); [lia|].
  cbn [draw bind]. eexists; eexists; split; [reflexivity|].
  eexists; split; [exact Hg|]. rewrite Hsq. apply powmod_correct. nia.
Qed.

(** ** The key pair of 5 and 7 *)

Lemma prime_5 : Z.prime 5.
Proof. apply is_prime_sound. vm_compute. reflexivity. Qed.

Lemma prime_7 : Z.prime 7.
Proof. apply is_prime_sound. vm_compute. reflexivity. Qed.

Lemma generated35 : generated pk35 sk35.
Proof.
  exists 5, 7, None, 2048, 3.
  split; [exact prime_5|]. split; [exact prime_7|].
  split; [reflexivity|]. vm_compute. reflexivity.
Qed.

Lemma generate_keys_35 :
  exists r',
    generate_keys 5 6 false (tape_of [5; 5; 7]) = Some (Ok (pk35, sk35, None, r')).
Proof. eexists. vm_compute. reflexivity. Qed.

Lemma blinded35 cell :
  Z.gcd (1 + cell mod 34) 35 = 1 -> well_blinded pk35 (tape_of [cell]).
Proof.
  intros H. apply well_blinded_fresh; [reflexivity | reflexivity | cbn; lia |].
  exact H.
Qed.

(** ** Round trip (C1) *)

(** C1 (amended): with a private key built from two primes, and a blinding
    factor that is the n-th power of a unit, decrypting the encryption of
    an integer [v] with [-max_int < v <= max_int] returns [v]; decrypting
    the encryption of a float that [encode] accepts, whose mantissa is
    above [-max_int], returns a value within the requested precision of it
    (the float itself when no precision is given). *)
Theorem decrypt_encrypt_roundtrip BASE pk sk r_value r :
  1 < BASE -> generated pk sk -> well_blinded pk r ->
  (forall v precision,
      in_range (PaillierPublicKey.max_int pk) v ->
      exists c r',
        PaillierPublicKey.encrypt BASE pk (PlainNumber (PInt v)) precision
          r_value r = Ok (c, r')
        /\ PaillierPrivateKey.decrypt BASE sk c = Ok (PInt v))
  /\ (forall q precision ek,
         EncodedNumber.encode BASE (PaillierPublicKey.n pk)
           (PaillierPublicKey.max_int pk) (PFloat q) precision None = Ok ek ->
         - PaillierPublicKey.max_int pk
         < EncodedNumber.int_rep BASE (PFloat q) (EncodedNumber.exponent ek) ->
         exists c r' d,
           PaillierPublicKey.encrypt BASE pk (PlainNumber (PFloat q)) precision
             r_value r = Ok (c, r')
           /\ PaillierPrivateKey.decrypt BASE sk c = Ok d
           /\ Qle (Qabs (Qminus (to_Q d) q))
                  (EncodedNumber.precision_or_exact precision)).
Proof.
  intros HB Hg Hb. destruct (generated_key_ok pk sk Hg) as [K Hpk].
  subst pk. split.
  - intros v precision Hv. unfold in_range in Hv.
    pose proof (encode_int BASE HB _ _ (key_n_ge_6 sk K) (ok_max_int sk K)
                  v None) as Ee.
    cbn zeta in Ee. simpl EncodedNumber.cap_exponent in Ee. simpl Z.opp in Ee.
    rewrite Z.pow_0_r, Z.mul_1_r in Ee. specialize (Ee ltac:(lia) precision).
    destruct (encrypt_holds BASE sk K _ precision r_value r _ Hb Ee)
      as (c & r' & Ec & Hc).
    exists c, r'. split; [exact Ec|].
    cbn in Hc. rewrite ?Z.pow_0_r, ?Z.mul_1_r in Hc.
    rewrite (decrypt_holds BASE sk K c v 0 Hc Hv).
    unfold EncodedNumber.scale. cbn. now rewrite Z.mul_1_r.
  - intros q precision ek Ee Hm.
    destruct (encrypt_holds BASE sk K _ precision r_value r _ Hb Ee)
      as (c & r' & Ec & Hc).
    destruct (encode_Ok BASE _ _ (key_n_ge_6 sk K) (ok_max_int sk K)
                _ _ _ _ Ee) as (_ & _ & _ & Habs & _).
    destruct (decrypt_value BASE HB sk K c _ _ Hc ltac:(lia)) as (d & Ed & Hd).
    exists c, r', d. split; [exact Ec|]. split; [exact Ed|].
    rewrite Hd. apply (encode_within BASE HB _ _ _ _ _ Ee).
Qed.

Lemma decrypt_encrypt_roundtrip_witness :
  1 < 16 /\ generated pk35 sk35 /\ well_blinded pk35 (tape_of [1])
  /\ in_range (PaillierPublicKey.max_int pk35) 7
  /\ (exists c r',
         PaillierPublicKey.encrypt 16 pk35 (PlainNumber (PInt 7)) None None
           (tape_of [1]) = Ok (c, r')
         /\ PaillierPrivateKey.decrypt 16 sk35 c = Ok (PInt 7))
  /\ (exists c r' d,
         PaillierPublicKey.encrypt 16 pk35 (PlainNumber (PFloat (1 # 2))) None
           None (tape_of [1]) = Ok (c, r')
         /\ PaillierPrivateKey.decrypt 16 sk35 c = Ok d
         /\ Qle (Qabs (Qminus (to_Q d) (1 # 2))) 0).
Proof.
  assert (B : well_blinded pk35 (tape_of [1])) by (apply blinded35; reflexivity).
  assert (R : in_range (PaillierPublicKey.max_int pk35) 7)
    by (unfold in_range; cbn; lia).
  split; [lia|]. split; [exact generated35|]. split; [exact B|].
  split; [exact R|].
  destruct (decrypt_encrypt_roundtrip 16 pk35 sk35 None (tape_of [1])
              ltac:(lia) generated35 B) as [Hint Hfloat].
  split; [exact (Hint 7 None R)|].
  apply (Hfloat (1 # 2)%Q None (EncodedNumber.mk 35 10 8 (-1))).
  - vm_compute. reflexivity.
  - vm_compute. reflexivity.
Defined.

(** C1 fails as stated: for the key pair of 5 and 7 (one [generate_keys]
    returns), the integer 1 encrypted with the blinding base 5, which
    shares a factor with [n = 35], decrypts to 8; and [-max_int = -10],
    encrypted with a coprime base, decrypts to 25, because [decode] takes
    only encodings above [n - max_int] for negative. *)
Lemma decrypt_encrypt_roundtrip_counterexample :
  (exists r',
      generate_keys 5 6 false (tape_of [5; 5; 7])
      = Some (Ok (pk35, sk35, None, r')))
  /\ PaillierPublicKey.max_int pk35 = 10
  /\ fst (randint 1 34 (tape_of [4])) = 5
  /\ roundtrip 16 pk35 sk35 (PInt 1) None (tape_of [4]) = Ok (PInt 8)
  /\ well_blinded pk35 (tape_of [1])
  /\ roundtrip 16 pk35 sk35 (PInt (-10)) None (tape_of [1]) = Ok (PInt 25).
Proof.
  split; [exact generate_keys_35|]. split; [reflexivity|].
  split; [reflexivity|]. split; [vm_compute; reflexivity|].
  split; [apply blinded35; reflexivity|]. vm_compute. reflexivity.
Qed.

(** ** Addition (C2) *)

Lemma encode_int_plain BASE n max_int z precision :
  1 < BASE -> 6 <= n -> max_int = n / 3 - 1 -> Z.abs z <= max_int ->
  EncodedNumber.encode BASE n max_int (PInt z) precision None
  = Ok (EncodedNumber.mk n max_int (z mod n) 0).
Proof.
  intros HB Hn Hmax Hz.
  pose proof (encode_int BASE HB n max_int Hn Hmax z None) as Ee.
  cbn zeta in Ee. simpl EncodedNumber.cap_exponent in Ee. simpl Z.opp in Ee.
  rewrite Z.pow_0_r, Z.mul_1_r in Ee. now apply Ee.
Qed.

Lemma encode_int_capped BASE n max_int z :
  1 < BASE -> 6 <= n -> max_int = n / 3 - 1 -> Z.abs z <= max_int ->
  EncodedNumber.encode BASE n max_int (PInt z) None (Some 0)
  = Ok (EncodedNumber.mk n max_int (z mod n) 0).
Proof.
  intros HB Hn Hmax Hz.
  pose proof (encode_int BASE HB n max_int Hn Hmax z (Some 0)) as Ee.
  cbn zeta in Ee. simpl EncodedNumber.cap_exponent in Ee. simpl Z.opp in Ee.
  rewrite Z.pow_0_r, Z.mul_1_r in Ee. now apply Ee.
Qed.




(** ** Multiplication by a scalar (C3) *)





(** ** List comprehensions *)

Lemma getitem_app_r {A : Type} (pre l : list A) i :
  getitem (pre ++ l) (length pre + i) = getitem l i.
Proof.
  unfold getitem. rewrite nth_error_app2 by lia.
  now replace (length pre + i - length pre)%nat with i by lia.
Qed.

Lemma mapM_ext {A B : Type} (f g : A -> result B) l :
  (forall x, In x l -> f x = g x) -> mapM f l = mapM g l.
Proof.
  induction l as [|x l IH]; intros H; [reflexivity|].
  cbn [mapM]. rewrite (H x (or_introl eq_refl)).
  rewrite IH by (intros y Hy; apply H; now right). reflexivity.
Qed.

(** Iterating over [range(len(l))] and indexing is iterating over [l]. *)
Lemma mapM_range {A B : Type} (f : A -> result B) (pre l : list A) :
  mapM (fun i => c <- getitem (pre ++ l) i ;; f c)
       (seq (length pre) (length l))
  = mapM f l.
Proof.
  revert pre. induction l as [|x l IH]; intros pre; [reflexivity|].
  cbn [length seq mapM].
  replace (length pre) with (length pre + 0)%nat at 1 by lia.
  rewrite getitem_app_r. cbn [getitem nth_error bind].
  specialize (IH (pre ++ [x])). rewrite <- app_assoc in IH. cbn [app] in IH.
  rewrite length_app in IH. cbn [length] in IH.
  replace (length pre + 1)%nat with (S (length pre)) in IH by lia.
  now rewrite IH.
Qed.

Lemma mapM_range_0 {A B : Type} (f : A -> result B) (l : list A) :
  mapM (fun i => c <- getitem l i ;; f c) (seq 0 (length l)) = mapM f l.
Proof. exact (mapM_range f [] l). Qed.

Lemma mapM_Ok {A B : Type} (f : A -> result B) (g : A -> B) l :
  (forall x, In x l -> f x = Ok (g x)) -> mapM f l = Ok (map g l).
Proof.
  induction l as [|x l IH]; intros H; [reflexivity|].
  cbn [mapM map]. rewrite (H x (or_introl eq_refl)). cbn [bind].
  rewrite IH by (intros y Hy; apply H; now right). reflexivity.
Qed.

Lemma mapM_length {A B : Type} (f : A -> result B) l out :
  mapM f l = Ok out -> length out = length l.
Proof.
  revert out. induction l as [|x l IH]; intros out; cbn [mapM].
  - now intros [= <-].
  - destruct (f x); [|discriminate]. cbn [bind].
    destruct (mapM f l) as [ys|]; [|discriminate]. cbn [bind].
    intros [= <-]. cbn. now rewrite (IH ys).
Qed.

(** ** Binding vectors (C9) *)

Lemma bind_assertion_holds len :
  EncryptedVector.py_assert
    (EncryptedVector.truthy (EncryptedVector.bind_message len)) = Ok tt.
Proof. reflexivity. Qed.

(** C9 (amended): for every non-empty list of vectors each of which is
    non-empty, [bind_to_vector] returns the vector of the inputs' first
    residues with the first input's [n], [nsquare], [max_int] and
    [exponent]; inputs with more than one element are accepted, because the
    assertion tests a string that is never empty. *)
Theorem bind_to_vector_first_residues first rest :
  Forall (fun c => EncryptedVector.ciphertext c <> []) (first :: rest) ->
  EncryptedVector.bind_to_vector (first :: rest)
  = Ok (EncryptedVector.mk (EncryptedVector.n first)
          (EncryptedVector.nsquare first) (EncryptedVector.max_int first)
          (map (fun c => hd 0 (EncryptedVector.ciphertext c)) (first :: rest))
          (EncryptedVector.exponent first)).
Proof.
  intros H. unfold EncryptedVector.bind_to_vector.
  cbn [getitem nth_error bind].
  assert (A : (if negb (length (EncryptedVector.ciphertext first) =? 0)%nat
               then EncryptedVector.py_assert
                      (EncryptedVector.truthy
                         (EncryptedVector.bind_message
                            (length (EncryptedVector.ciphertext first))))
               else Ok tt) = Ok tt).
  { destruct (negb _); [apply bind_assertion_holds | reflexivity]. }
  rewrite A. cbn [bind].
  rewrite (mapM_range_0 (fun c => getitem (EncryptedVector.ciphertext c) 0%nat)).
  rewrite (mapM_Ok _ (fun c => hd 0 (EncryptedVector.ciphertext c))).
  - reflexivity.
  - intros c Hc. rewrite Forall_forall in H. specialize (H c Hc).
    destruct (EncryptedVector.ciphertext c); [contradiction|reflexivity].
Qed.

Lemma bind_to_vector_first_residues_witness :
  let v1 := EncryptedVector.mk 35 1225 10 [4; 9] 0 in
  let v2 := EncryptedVector.mk 35 1225 10 [16] 0 in
  Forall (fun c => EncryptedVector.ciphertext c <> []) [v1; v2]
  /\ EncryptedVector.bind_to_vector [v1; v2]
     = Ok (EncryptedVector.mk 35 1225 10 [4; 16] 0).
Proof.
  intros v1 v2.
  assert (H : Forall (fun c => EncryptedVector.ciphertext c <> []) [v1; v2])
    by (repeat constructor; discriminate).
  split; [exact H|]. exact (bind_to_vector_first_residues v1 [v2] H).
Defined.

(** C9 fails as stated: the first input is non-empty, the second is empty,
    and [bind_to_vector] raises [IndexError]. *)
Lemma bind_to_vector_counterexample :
  let v1 := EncryptedVector.mk 35 1225 10 [4] 0 in
  let v2 := EncryptedVector.mk 35 1225 10 [] 0 in
  EncryptedVector.ciphertext v1 <> []
  /\ EncryptedVector.bind_to_vector [v1; v2] = Raise IndexError.
Proof. split; [discriminate | reflexivity]. Qed.

(** ** The unused [r_value] (C10) *)


(** ** Element-wise operations on vectors *)

(** [[f(a[i], b[i]) for i in range(len(a))]]: the pairs up to the length
    of [a] when [b] is at least as long, an [IndexError] otherwise. *)
Lemma mapM_zip {A B C : Type} (f : A -> B -> C) (la : list A) (lb : list B)
    (pa : list A) (pb : list B) :
  length pa = length pb ->
  mapM (fun i => x <- getitem (pa ++ la) i ;;
                 y <- getitem (pb ++ lb) i ;; Ok (f x y))
       (seq (length pa) (length la))
  = if (length la <=? length lb)%nat then Ok (zip_with f la lb)
    else Raise IndexError.
Proof.
  revert lb pa pb. induction la as [|x la IH]; intros lb pa pb Hp.
  - reflexivity.
  - cbn [length seq mapM].
    replace (length pa) with (length pa + 0)%nat at 1 by lia.
    rewrite getitem_app_r. cbn [getitem nth_error bind].
    replace (length pa) with (length pb + 0)%nat at 1 by lia.
    rewrite getitem_app_r.
    destruct lb as [|y lb]; [reflexivity|].
    cbn [getitem nth_error bind].
    specialize (IH lb (pa ++ [x]) (pb ++ [y])).
    rewrite <- !app_assoc in IH. cbn [app] in IH.
    rewrite !length_app in IH. cbn [length] in IH.
    replace (length pa + 1)%nat with (S (length pa)) in IH by lia.
    rewrite IH by lia.
    cbn [length Nat.leb].
    destruct (length la <=? length lb)%nat; reflexivity.
Qed.

Lemma mapM_zip_0 {A B C : Type} (f : A -> B -> C) (la : list A) (lb : list B) :
  mapM (fun i => x <- getitem la i ;; y <- getitem lb i ;; Ok (f x y))
       (seq 0 (length la))
  = if (length la <=? length lb)%nat then Ok (zip_with f la lb)
    else Raise IndexError.
Proof. exact (mapM_zip f la lb [] [] eq_refl). Qed.

Lemma zip_with_length {A B C : Type} (f : A -> B -> C) la lb :
  length (zip_with f la lb) = Nat.min (length la) (length lb).
Proof. unfold zip_with. now rewrite length_map, length_combine. Qed.

Lemma mapM_Forall2 {A B : Type} (f : A -> result B) (P : A -> B -> Prop) l :
  Forall (fun x => exists y, f x = Ok y /\ P x y) l ->
  exists out, mapM f l = Ok out /\ Forall2 P l out.
Proof.
  induction 1 as [|x l (y & E & Hy) _ (out & Eo & Ho)].
  - exists []. split; [reflexivity|constructor].
  - exists (y :: out). cbn [mapM]. rewrite E. cbn [bind]. rewrite Eo.
    split; [reflexivity|now constructor].
Qed.

Lemma mapM_inv {A B : Type} (f : A -> result B) l out :
  mapM f l = Ok out -> Forall2 (fun x y => f x = Ok y) l out.
Proof.
  revert out. induction l as [|x l IH]; intros out; cbn [mapM].
  - intros [= <-]. constructor.
  - destruct (f x) eqn:E; [|discriminate]. cbn [bind].
    destruct (mapM f l) as [ys|]; [|discriminate]. cbn [bind].
    intros [= <-]. constructor; [exact E|now apply IH].
Qed.

(** The addition of two ciphertext vectors with the same modulus and the
    same exponent never looks at the length of [other] beyond indexing. *)
Lemma vector_add_same_exponent BASE a b :
  EncryptedVector.n a = EncryptedVector.n b ->
  EncryptedVector.exponent a = EncryptedVector.exponent b ->
  EncryptedVector._add_encrypted BASE a b
  = if (length (EncryptedVector.ciphertext a)
        <=? length (EncryptedVector.ciphertext b))%nat
    then Ok (EncryptedVector.mk (EncryptedVector.n a)
               (EncryptedVector.nsquare a) (EncryptedVector.max_int a)
               (zip_with (fun x y => util.mul_mod x y (EncryptedVector.nsquare a))
                  (EncryptedVector.ciphertext a) (EncryptedVector.ciphertext b))
               (EncryptedVector.exponent a))
    else Raise IndexError.
Proof.
  intros Hn He. unfold EncryptedVector._add_encrypted.
  rewrite Hn, Z.eqb_refl. cbn [negb]. rewrite He, Z.ltb_irrefl. cbn [bind].
  unfold EncryptedVector._raw_add.
  rewrite (mapM_zip_0 (fun x y => util.mul_mod x y (EncryptedVector.nsquare a))).
  destruct (_ <=? _)%nat; cbn [bind]; [now rewrite Hn, He | reflexivity].
Qed.


Section Vectors.
Variable BASE : Z.
Hypothesis BASE_gt_1 : 1 < BASE.
Variable sk : PaillierPrivateKey.t.
Hypothesis K : key_ok sk.

Let pk := PaillierPrivateKey.public_key sk.
Let n := PaillierPublicKey.n pk.
Let max_int := PaillierPublicKey.max_int pk.

Let n_ge_6 : 6 <= n.
Proof. exact (key_n_ge_6 sk K). Qed.


Lemma raw_mul_2_ok c x m k :
  vector_ok sk c -> encrypts sk x m -> 0 <= k < n ->
  exists y, EncryptedVector._raw_mul_2 c x k = Ok y /\ encrypts sk y (k * m).
Proof.
  intros (En & Ens & Emi) Hx Hk.
  apply (raw_mul_ok sk K
           (EncryptedNumber.mk (EncryptedVector.n c) (EncryptedVector.nsquare c)
              (EncryptedVector.max_int c) x (EncryptedVector.exponent c)) m k).
  - repeat split; assumption.
  - exact Hx.
  - exact Hk.
Qed.

(** Encoding a list of integers: exponent 0, every integer folded. *)
Lemma meets_int z : EncodedNumber.meets BASE 0 0 (inject_Z z) = true.
Proof.
  unfold EncodedNumber.meets. cbv zeta. rewrite Z.pow_0_r.
  assert (E : Qeq (Qmult (inject_Z z) (inject_Z 1)) (inject_Z z)) by ring.
  rewrite (py_round_inject _ _ E).
  apply Qle_bool_iff. rewrite Qmult_0_l.
  assert (E0 : Qeq (Qminus (inject_Z z) (Qmult (inject_Z z) (inject_Z 1))) 0)
    by ring.
  rewrite E0. cbn. apply Qle_refl.
Qed.

Lemma encode_vector_int z :
  Z.abs z <= max_int ->
  EncodedVector.encode BASE n max_int [PInt z] None None
  = Ok (EncodedVector.mk n max_int [z mod n] 0).
Proof.
  intros Hz. unfold EncodedVector.encode. cbn [map to_Q].
  assert (F : forall fuel,
             EncodedNumber.find_exponent BASE fuel 0 0 [inject_Z z] = Some 0).
  { intros fuel. destruct fuel; cbn [EncodedNumber.find_exponent forallb];
      rewrite (meets_int z); reflexivity. }
  cbn [EncodedNumber.precision_or_exact]. rewrite F. cbn [bind].
  cbn [EncodedNumber.cap_exponent mapM EncodedNumber.int_rep].
  change (- 0) with 0. rewrite Z.pow_0_r, Z.mul_1_r.
  rewrite (wrap_int n max_int (key_n_ge_6 sk K) (ok_max_int sk K) z z Hz
             (fun H => H)).
  reflexivity.
Qed.

Lemma vector_mul_int_holds c ms e k :
  holds_each sk c ms e -> Z.abs k <= max_int ->
  exists c',
    EncryptedVector.__mul__ BASE c (EncryptedVector.MScalar (PInt k)) = Ok c'
    /\ holds_each sk c' (map (fun m => m * k) ms) e.
Proof.
  intros (Hok & He & Hc) Hk. pose proof Hok as (En & Ens & Emi).
  cbn [EncryptedVector.__mul__]. rewrite En, Emi. fold pk n max_int.
  rewrite (encode_vector_int k Hk). cbn [bind EncodedVector.encoding
    EncodedVector.exponent getitem nth_error].
  assert (Hr : 0 <= k mod n < n)
    by (apply Z.mod_pos_bound; lia).
  assert (M : exists out,
             mapM (fun cipher => EncryptedVector._raw_mul_2 c cipher (k mod n))
                  (EncryptedVector.ciphertext c) = Ok out
             /\ Forall2 (encrypts sk) out (map (fun m => m * k) ms)).
  { induction Hc as [|x m xs ms' Hx _ (out & Eo & Ho)].
    - exists []. split; [reflexivity|constructor].
    - destruct (raw_mul_2_ok c x m (k mod n) Hok Hx Hr) as (y & Ey & Hy).
      exists (y :: out). cbn [mapM map]. rewrite Ey. cbn [bind]. rewrite Eo.
      split; [reflexivity|]. constructor; [|exact Ho].
      apply (encrypts_ext sk y (k mod n * m)); [exact Hy|].
      fold pk n. rewrite Z.mul_mod_idemp_l, (Z.mul_comm k m); [reflexivity|].
      lia. }
  destruct M as (out & Eo & Ho). rewrite Eo. cbn [bind].
  eexists; split; [reflexivity|].
  split; [unfold vector_ok; cbn; auto|]. split; [cbn; lia|exact Ho].
Qed.


Lemma Forall2_zip_with (xs ys : list Z) ms ms' :
  Forall2 (encrypts sk) xs ms -> Forall2 (encrypts sk) ys ms' ->
  length xs = length ys ->
  Forall2 (encrypts sk)
    (zip_with (fun x y => util.mul_mod x y (n * n)) xs ys)
    (zip_with Z.add ms ms').
Proof.
  intros H. revert ys ms'. induction H as [|x m xs ms Hx _ IH]; intros ys ms' H' L.
  - constructor.
  - destruct H' as [|y m' ys ms' Hy H']; [discriminate|].
    cbn. constructor.
    + apply (encrypts_mul sk K); assumption.
    + apply IH; [exact H'|]. cbn in L. lia.
Qed.

Lemma vector_add_holds a b ms ms' e :
  holds_each sk a ms e -> holds_each sk b ms' e -> length ms = length ms' ->
  exists c,
    EncryptedVector._add_encrypted BASE a b = Ok c
    /\ holds_each sk c (zip_with Z.add ms ms') e.
Proof.
  intros ((Ena & Ensa & Emia) & Hea & Ha) ((Enb & Ensb & Emib) & Heb & Hb) L.
  pose proof (Forall2_length Ha) as La. pose proof (Forall2_length Hb) as Lb.
  rewrite vector_add_same_exponent by congruence.
  destruct (Nat.leb_spec (length (EncryptedVector.ciphertext a))
              (length (EncryptedVector.ciphertext b))); [|lia].
  eexists; split; [reflexivity|].
  split; [repeat split; assumption|]. split; [exact Hea|].
  cbn [EncryptedVector.ciphertext]. rewrite Ensa.
  apply Forall2_zip_with; [exact Ha | exact Hb | lia].
Qed.

Lemma zip_with_self (ms : list Z) :
  zip_with Z.add ms ms = map (fun m => m + m) ms.
Proof.
  unfold zip_with. induction ms as [|m ms IH]; [reflexivity|].
  cbn. now rewrite IH.
Qed.


Lemma vector_decrypt_holds c ms e :
  holds_each sk c ms e -> Forall (in_range max_int) ms ->
  PaillierPrivateKey.decrypt_new BASE sk c
  = Ok (map (fun m => EncodedNumber.scale BASE m e) ms).
Proof.
  intros ((En & _ & _) & He & Hc) Hr.
  unfold PaillierPrivateKey.decrypt_new, PaillierPrivateKey.decrypt_encoded_new.
  rewrite En, Z.eqb_refl. cbn [negb bind]. unfold EncodedVector.decode.
  cbn [EncodedVector.encoding EncodedVector.n EncodedVector.max_int
       EncodedVector.exponent].
  rewrite He, map_map. f_equal.
  induction Hc as [|x m xs ms' [_ Hx] _ IH]; [reflexivity|].
  inversion Hr as [|? ? Hm Hr']; subst. cbn [map].
  rewrite (IH Hr'), Hx. fold pk n max_int.
  rewrite (mantissa_mod n max_int (key_n_ge_6 sk K) (ok_max_int sk K) m Hm).
  reflexivity.
Qed.

Lemma raw_encrypt_step m r_value r o r' :
  obfuscator pk r = Ok (o, r') -> blinding n o -> 0 <= m < n ->
  exists c, PaillierPublicKey.raw_encrypt pk m r_value r = Ok (c, r')
            /\ encrypts sk c m.
Proof.
  intros Eo Hb Hm. rewrite raw_encrypt_unfold.
  destruct (nude_ciphertext_ok sk K (PaillierPublicKey.max_int pk) m Hm)
    as (c0 & E0 & H0).
  unfold n, pk in *. rewrite (ok_nsquare sk K). rewrite E0.
  cbn [bind]. rewrite Eo. cbn [bind].
  eexists; split; [reflexivity|].
  apply (encrypts_ext sk _ (m + 0)); [|now rewrite Z.add_0_r].
  apply (encrypts_mul sk K); [exact H0|apply (encrypts_blinding sk K), Hb].
Qed.

Lemma raw_encrypt_each_ok ms r :
  Forall (fun m => 0 <= m < n) ms ->
  well_blinded_each pk (length ms) r ->
  exists cs r',
    PaillierPublicKey.raw_encrypt_each pk ms r = Ok (cs, r')
    /\ Forall2 (encrypts sk) cs ms.
Proof.
  intros H. revert r. induction H as [|m ms Hm _ IH]; intros r Hb.
  - exists [], r. split; [reflexivity|constructor].
  - cbn [length well_blinded_each] in Hb.
    destruct Hb as (o & r1 & Eo & Ho & Hb).
    destruct (raw_encrypt_step m None r o r1 Eo Ho Hm) as (c & Ec & Hc).
    destruct (IH r1 Hb) as (cs & r' & Ecs & Hcs).
    exists (c :: cs), r'. cbn [PaillierPublicKey.raw_encrypt_each].
    rewrite Ec. cbn [bind]. rewrite Ecs. cbn [bind].
    split; [reflexivity|now constructor].
Qed.

Lemma encrypts_each_mod {A : Type} (g : A -> Z) cs (l : list A) :
  Forall2 (encrypts sk) cs (map (fun v => g v mod n) l) ->
  Forall2 (encrypts sk) cs (map g l).
Proof.
  assert (Hn : n <> 0) by lia.
  revert cs. induction l as [|v l IH]; intros cs H; inversion H; subst;
    cbn [map]; constructor; [|now apply IH].
  apply (encrypts_ext sk _ (g v mod n)); [assumption|].
  unfold n, pk in *. now apply Z.mod_mod.
Qed.

(** What a successful vector encoding is. *)
Lemma encode_vector_Ok l precision mx ev :
  EncodedVector.encode BASE n max_int l precision mx = Ok ev ->
  EncodedVector.n ev = n /\ EncodedVector.max_int ev = max_int
  /\ EncodedVector.exponent ev <= 0
  /\ length (EncodedVector.encoding ev) = length l
  /\ Forall (fun enc => 0 <= enc < n) (EncodedVector.encoding ev)
  /\ EncodedVector.encoding ev
     = map (fun v => EncodedNumber.int_rep BASE v (EncodedVector.exponent ev)
                     mod n) l
  /\ Forall (fun v =>
               Z.abs (EncodedNumber.int_rep BASE v (EncodedVector.exponent ev))
               <= max_int
               /\ (EncodedNumber.int_rep BASE v (EncodedVector.exponent ev) = 0
                   -> Qeq (to_Q v) 0)) l.
Proof.
  unfold EncodedVector.encode.
  destruct (EncodedNumber.find_exponent _ _ _ _ _) as [pe|] eqn:F;
    [|discriminate].
  cbn [bind]. apply (find_exponent_sound BASE) in F. destruct F as [Hpe _].
  set (e := EncodedNumber.cap_exponent mx pe).
  pose proof (cap_exponent_le mx pe) as [Hle _]. fold e in Hle.
  destruct (mapM _ l) as [enc|] eqn:M; [|discriminate]. cbn [bind].
  intros [= <-]. cbn.
  apply mapM_inv in M.
  split; [reflexivity|]. split; [reflexivity|]. split; [lia|].
  split; [symmetry; apply (Forall2_length M)|].
  induction M as [|v y l enc Hv _ (IH1 & IH2 & IH3)].
  - repeat split; constructor.
  - pose proof Hv as Hv'.
    apply (wrap_Ok n max_int (key_n_ge_6 sk K) (ok_max_int sk K)) in Hv.
    destruct Hv as (Habs & Hr & ->).
    split; [constructor; assumption|].
    split; [cbn [map]; now rewrite IH2|].
    constructor; [|exact IH3]. split; [exact Habs|].
    intros Hz. unfold EncodedNumber.wrap in Hv'. rewrite Hz in Hv'.
    cbn in Hv'. destruct (max_int <? 0); [discriminate|].
    destruct (Qeq_bool (to_Q v) 0) eqn:Q; [|discriminate].
    now apply Qeq_bool_eq.
Qed.

Lemma vector_encrypt_new_holds l precision r ev :
  EncodedVector.encode BASE n max_int l precision None = Ok ev ->
  well_blinded_each pk (length l) r ->
  exists c r',
    PaillierPublicKey.encrypt_new BASE pk (PlainNumbers l) precision r
    = Ok (c, r')
    /\ holds_each sk c
         (map (fun v => EncodedNumber.int_rep BASE v (EncodedVector.exponent ev)) l)
         (EncodedVector.exponent ev).
Proof.
  intros Ee Hb.
  destruct (encode_vector_Ok _ _ _ _ Ee) as (_ & _ & _ & Hl & Hr & Henc & _).
  unfold PaillierPublicKey.encrypt_new. fold pk n max_int. rewrite Ee.
  cbn [bind]. unfold PaillierPublicKey.encrypt_encoded_new.
  rewrite <- Hl in Hb.
  destruct (raw_encrypt_each_ok _ r Hr Hb) as (cs & r' & Ecs & Hcs).
  rewrite Ecs. cbn [bind]. eexists; eexists; split; [reflexivity|].
  split; [split; [reflexivity|split; [apply (ok_nsquare sk K)|reflexivity]]|].
  split; [reflexivity|]. cbn [EncryptedVector.ciphertext].
  rewrite Henc in Hcs. now apply encrypts_each_mod.
Qed.

End Vectors.

(** ** More concrete keys *)


Lemma generated62 : generated pk62 sk62.
Proof.
  exists 2147483647, 2147483629, None, 2048, 3.
  split; [apply is_prime_sound; vm_compute; reflexivity|].
  split; [apply is_prime_sound; vm_compute; reflexivity|].
  split; [reflexivity|]. vm_compute. reflexivity.
Qed.

(** ** Lowering the exponent (C7) *)





(** ** Sums along an axis (C6) *)



Lemma values_are_scale BASE (HB : 1 < BASE) ms e :
  values_are (map (fun m => EncodedNumber.scale BASE m e) ms)
             (map (fun m => value BASE m e) ms).
Proof.
  induction ms as [|m ms IH]; cbn [map]; constructor; [|exact IH].
  apply (scale_value BASE HB).
Qed.




(** ** Vectors of unequal lengths (C5) *)

(** C5, as the code has it: adding a longer ciphertext vector to a shorter
    one (same modulus, same exponent) returns a vector of the shorter
    length instead of failing; the other way round the addition fails with
    an [IndexError] from indexing, not with a shape error; only the
    multiplication by a sequence checks the lengths and raises its
    [TypeError]. *)
Theorem add_encrypted_ignores_length BASE a b :
  EncryptedVector.n a = EncryptedVector.n b ->
  EncryptedVector.exponent a = EncryptedVector.exponent b ->
  (length (EncryptedVector.ciphertext a)
   < length (EncryptedVector.ciphertext b))%nat ->
  (exists c,
      EncryptedVector.__add__ BASE a (EncryptedVector.AEncrypted b) = Ok c
      /\ length (EncryptedVector.ciphertext c)
         = length (EncryptedVector.ciphertext a))
  /\ EncryptedVector.__add__ BASE b (EncryptedVector.AEncrypted a)
     = Raise IndexError
  /\ (forall l,
         length l <> length (EncryptedVector.ciphertext a) ->
         EncryptedVector.__mul__ BASE a (EncryptedVector.MArray l)
         = Raise TypeError).
Proof.
  intros Hn He Hl. split; [|split].
  - cbn [EncryptedVector.__add__].
    rewrite (vector_add_same_exponent BASE a b Hn He).
    destruct (Nat.leb_spec (length (EncryptedVector.ciphertext a))
                (length (EncryptedVector.ciphertext b))); [|lia].
    eexists; split; [reflexivity|]. cbn [EncryptedVector.ciphertext].
    rewrite zip_with_length. lia.
  - cbn [EncryptedVector.__add__].
    rewrite (vector_add_same_exponent BASE b a (eq_sym Hn) (eq_sym He)).
    destruct (Nat.leb_spec (length (EncryptedVector.ciphertext b))
                (length (EncryptedVector.ciphertext a))); [lia|reflexivity].
  - intros l Hne. cbn [EncryptedVector.__mul__].
    destruct (Nat.eqb_spec (length l) (length (EncryptedVector.ciphertext a)));
      [contradiction|reflexivity].
Qed.

Lemma add_encrypted_ignores_length_witness :
  let a := EncryptedVector.mk 35 1225 10 [36] 0 in
  let b := EncryptedVector.mk 35 1225 10 [71; 106] 0 in
  EncryptedVector.__add__ 16 a (EncryptedVector.AEncrypted b)
  = Ok (EncryptedVector.mk 35 1225 10 [106] 0)
  /\ EncryptedVector.__add__ 16 b (EncryptedVector.AEncrypted a)
     = Raise IndexError
  /\ EncryptedVector.__mul__ 16 a (EncryptedVector.MArray [PInt 1; PInt 2])
     = Raise TypeError.
Proof.
  intros a b.
  destruct (add_encrypted_ignores_length 16 a b eq_refl eq_refl
              ltac:(cbn; lia)) as (_ & Hr & Hm).
  split; [vm_compute; reflexivity|]. split; [exact Hr|].
  apply Hm. discriminate.
Defined.

(** ** The vector demo (C4) *)

Lemma well_blinded_each_fresh pk count r :
  PaillierPublicKey.has_table pk = false ->
  PaillierPublicKey.nsquare pk = PaillierPublicKey.n pk * PaillierPublicKey.n pk ->
  1 < PaillierPublicKey.n pk ->
  (forall i, (i < count)%nat ->
             Z.gcd (1 + tape r (pos r + i) mod (PaillierPublicKey.n pk - 1))
                   (PaillierPublicKey.n pk) = 1) ->
  well_blinded_each pk count r.
Proof.
  intros Ht Hsq Hn. revert r.
  induction count as [|count IH]; intros r Hg; [exact I|].
  cbn [well_blinded_each]. unfold obfuscator. rewrite Ht.
  unfold PaillierPublicKey.get_random_lt_n, randrange.
  destruct (Z.leb_spec (PaillierPublicKey.n pk) 1); [lia|].
  cbn [draw bind]. eexists; eexists; split; [reflexivity|]. split.
  - eexists; split.
    + specialize (Hg O ltac:(lia)). rewrite Nat.add_0_r in Hg. exact Hg.
    + rewrite Hsq. apply powmod_correct. nia.
  - apply IH. intros i Hi. cbn [tape pos].
    specialize (Hg (S i) ltac:(lia)).
    now replace (S (pos r) + i)%nat with (pos r + S i)%nat by lia.
Qed.

Lemma value_times BASE m k e :
  Qeq (value BASE (m * k) e) (Qmult (inject_Z k) (value BASE m e)).
Proof. unfold value. rewrite inject_Z_mult. ring. Qed.

(** Without a precision a vector encoding is exact on every element. *)
Lemma encode_vector_exact BASE (HB : 1 < BASE) n max_int l mx ev :
  EncodedVector.encode BASE n max_int l None mx = Ok ev ->
  Forall (fun v =>
            Qeq (value BASE
                   (EncodedNumber.int_rep BASE v (EncodedVector.exponent ev))
                   (EncodedVector.exponent ev))
                (to_Q v)) l.
Proof.
  assert (B_nz : ~ Qeq (inject_Z BASE) 0).
  { intros E. apply (inject_Z_injective BASE 0) in E. lia. }
  unfold EncodedVector.encode.
  destruct (EncodedNumber.find_exponent _ _ _ _ _) as [pe|] eqn:F;
    [|discriminate].
  cbn [bind]. apply (find_exponent_sound BASE) in F. destruct F as [Hpe F].
  set (e := EncodedNumber.cap_exponent mx pe).
  pose proof (cap_exponent_le mx pe) as [Hle _]. fold e in Hle.
  destruct (mapM _ l) as [enc|]; [|discriminate]. cbn [bind].
  intros [= <-]. cbn [EncodedVector.exponent].
  cbn [EncodedNumber.precision_or_exact] in F.
  rewrite forallb_forall in F. apply Forall_forall. intros v Hv.
  destruct v as [z|q].
  - cbn [EncodedNumber.int_rep to_Q].
    replace e with (0 - - e) at 2 by ring.
    rewrite (value_rescale BASE HB) by lia. apply value_0.
  - cbn [EncodedNumber.int_rep to_Q].
    assert (M : EncodedNumber.meets BASE (- pe) 0 q = true).
    { apply F. apply in_map_iff. exists (PFloat q). split; [reflexivity|exact Hv]. }
    pose proof (exact_finer BASE q (- pe) (pe - e) ltac:(lia) ltac:(lia) M) as E.
    replace (- pe + (pe - e)) with (- e) in E by ring.
    unfold value. rewrite <- E.
    rewrite Zpower_Qpower by lia. rewrite <- Qmult_assoc.
    rewrite <- Qpower_plus by exact B_nz.
    replace (- e + e) with 0 by ring. simpl. ring.
Qed.

Lemma vector_doubled :
  Forall2 (fun q d => Qeq (Qplus q q) d) vector doubled.
Proof. repeat constructor; vm_compute; reflexivity. Qed.

Lemma vector_octupled :
  Forall2 (fun q d => Qeq (Qmult (inject_Z 4) (Qplus q q)) d) vector octupled.
Proof. repeat constructor; vm_compute; reflexivity. Qed.

Lemma first_not_zero : ~ Qeq (Q_of_float 3.5) 0.
Proof. vm_compute. discriminate. Qed.

Lemma octupled_not_quadrupled :
  ~ Qeq (Q_of_float 28.0) (Q_of_float 14.0).
Proof. vm_compute. discriminate. Qed.

(** C4 (amended): for a key pair built from two primes, blinding factors
    that are n-th powers of units and a modulus with room for eight times
    the mantissas of [3.5; 2.1; 7.9], the demo's first decrypted vector is
    [7.0; 4.2; 15.8], and its second, after multiplying the doubled
    ciphertext by 4, is eight times the input, [28.0; 16.8; 63.2], not
    [14.0; 8.4; 31.6]. *)
Theorem vector_demo_outputs BASE pk sk r ev :
  1 < BASE -> generated pk sk -> well_blinded_each pk 3 r ->
  EncodedVector.encode BASE (PaillierPublicKey.n pk)
    (PaillierPublicKey.max_int pk) (map PFloat vector) None None = Ok ev ->
  Forall (fun q =>
            8 * Z.abs (EncodedNumber.int_rep BASE (PFloat q)
                         (EncodedVector.exponent ev))
            < PaillierPublicKey.max_int pk) vector ->
  exists plaintext plaintext2,
    demo BASE pk sk r = Ok (plaintext, plaintext2)
    /\ values_are plaintext doubled
    /\ values_are plaintext2 octupled
    /\ ~ values_are plaintext2 quadrupled.
Proof.
  intros HB Hg Hb Ee Hroom. destruct (generated_key_ok pk sk Hg) as [K Hpk].
  subst pk. set (e := EncodedVector.exponent ev) in *.
  pose proof (encode_vector_exact BASE HB _ _ _ _ _ Ee) as Hex. fold e in Hex.
  destruct (encode_vector_Ok BASE sk K _ _ _ _ Ee) as (_ & _ & _ & _ & _ & _ & Hnz).
  fold e in Hnz.
  destruct (vector_encrypt_new_holds BASE sk K _ None r ev Ee Hb)
    as (c0 & r' & E0 & H0). fold e in H0.
  unfold vector in Hroom, Hex, Hnz, H0. cbn [map] in Hex, Hnz, H0.
  set (m1 := EncodedNumber.int_rep BASE (PFloat (Q_of_float 3.5)) e) in *.
  set (m2 := EncodedNumber.int_rep BASE (PFloat (Q_of_float 2.1)) e) in *.
  set (m3 := EncodedNumber.int_rep BASE (PFloat (Q_of_float 7.9)) e) in *.
  inversion Hroom as [|? ? R1 Hroom1]; subst.
  inversion Hroom1 as [|? ? R2 Hroom2]; subst.
  inversion Hroom2 as [|? ? R3 _]; subst. clear Hroom Hroom1 Hroom2.
  fold m1 in R1. fold m2 in R2. fold m3 in R3.
  inversion Hex as [|? ? X1 Hex1]; subst.
  inversion Hex1 as [|? ? X2 Hex2]; subst.
  inversion Hex2 as [|? ? X3 _]; subst. clear Hex Hex1 Hex2.
  cbn [to_Q] in X1, X2, X3. fold m1 in X1. fold m2 in X2. fold m3 in X3.
  inversion Hnz as [|? ? [_ Z1] _]; subst. clear Hnz. cbn [to_Q] in Z1.
  assert (Hm1 : m1 <> 0) by (intros Z0; apply first_not_zero, Z1, Z0).
  set (max_int := PaillierPublicKey.max_int (PaillierPrivateKey.public_key sk))
    in *.
  destruct (vector_add_holds BASE sk K c0 c0 _ _ e H0 H0 eq_refl)
    as (c1 & E1 & H1).
  rewrite zip_with_self in H1. cbn [map] in H1.
  destruct (vector_mul_int_holds BASE sk K c1 _ e 4 H1) as (c2 & E2 & H2).
  { fold max_int. lia. }
  cbn [map] in H2.
  assert (D1 : PaillierPrivateKey.decrypt_new BASE sk c1
               = Ok (map (fun m => EncodedNumber.scale BASE m e)
                         [m1 + m1; m2 + m2; m3 + m3])).
  { apply (vector_decrypt_holds BASE sk K c1 _ e H1).
    fold max_int. unfold in_range. repeat constructor; lia. }
  assert (D2 : PaillierPrivateKey.decrypt_new BASE sk c2
               = Ok (map (fun m => EncodedNumber.scale BASE m e)
                         [(m1 + m1) * 4; (m2 + m2) * 4; (m3 + m3) * 4])).
  { apply (vector_decrypt_holds BASE sk K c2 _ e H2).
    fold max_int. unfold in_range. repeat constructor; lia. }
  pose proof vector_doubled as Vd. pose proof vector_octupled as Vo.
  unfold vector, doubled in Vd. unfold vector, octupled in Vo.
  inversion Vd as [|? ? ? ? Vd1 Vd']; subst.
  inversion Vd' as [|? ? ? ? Vd2 Vd'']; subst.
  inversion Vd'' as [|? ? ? ? Vd3 _]; subst. clear Vd Vd' Vd''.
  inversion Vo as [|? ? ? ? Vo1 Vo']; subst.
  inversion Vo' as [|? ? ? ? Vo2 Vo'']; subst.
  inversion Vo'' as [|? ? ? ? Vo3 _]; subst. clear Vo Vo' Vo''.
  assert (P2 : values_are
                 (map (fun m => EncodedNumber.scale BASE m e)
                      [(m1 + m1) * 4; (m2 + m2) * 4; (m3 + m3) * 4])
                 octupled).
  { unfold octupled. cbn [map].
    constructor; [|constructor; [|constructor; [|constructor]]];
      rewrite (scale_value BASE HB), value_times, value_plus.
    - rewrite X1. exact Vo1.
    - rewrite X2. exact Vo2.
    - rewrite X3. exact Vo3. }
  eexists; eexists. split; [|split; [|split]].
  - unfold demo. rewrite E0. cbn [bind].
    cbn [EncryptedVector.__add__]. rewrite E1. cbn [bind].
    rewrite D1. cbn [bind]. rewrite E2. cbn [bind]. rewrite D2. cbn [bind].
    reflexivity.
  - unfold doubled. cbn [map].
    constructor; [|constructor; [|constructor; [|constructor]]];
      rewrite (scale_value BASE HB), value_plus.
    + rewrite X1. exact Vd1.
    + rewrite X2. exact Vd2.
    + rewrite X3. exact Vd3.
  - exact P2.
  - intros Q4. unfold quadrupled in Q4. cbn [map] in Q4.
    inversion Q4 as [|? ? ? ? Q1 _]; subst.
    inversion P2 as [|? ? ? ? O1 _]; subst.
    apply octupled_not_quadrupled. rewrite <- O1. exact Q1.
Qed.

Lemma blinded62 :
  well_blinded_each pk62 3 (tape_of [12345; 67890; 424242]).
Proof.
  apply well_blinded_each_fresh;
    [reflexivity | reflexivity | vm_compute; reflexivity |].
  intros i Hi. destruct i as [|[|[|i]]]; [vm_compute; reflexivity .. | lia].
Qed.

Lemma vector_demo_outputs_witness :
  let r := tape_of [12345; 67890; 424242] in
  1 < 16 /\ generated pk62 sk62 /\ well_blinded_each pk62 3 r
  /\ exists plaintext plaintext2,
      demo 16 pk62 sk62 r = Ok (plaintext, plaintext2)
      /\ values_are plaintext doubled
      /\ values_are plaintext2 octupled
      /\ ~ values_are plaintext2 quadrupled.
Proof.
  intros r. split; [lia|]. split; [exact generated62|].
  split; [exact blinded62|].
  apply (vector_demo_outputs 16 pk62 sk62 r
           (EncodedVector.mk 4611685975477714963 1537228658492571653
              [15762598695796736; 9457559217478042; 35578437056226920] (-13))
           ltac:(lia) generated62 blinded62).
  - vm_compute. reflexivity.
  - repeat constructor; vm_compute; reflexivity.
Defined.

(** C4 fails as stated: with the key pair of the primes 2147483629 and
    2147483647 and radix 16 the demo's first output is [7.0; 4.2; 15.8]
    and its second is [28.0; 16.8; 63.2], which is not
    [14.0; 8.4; 31.6]. *)
Lemma vector_demo_counterexample :
  generated pk62 sk62
  /\ well_blinded_each pk62 3 (tape_of [12345; 67890; 424242])
  /\ exists plaintext plaintext2,
      demo 16 pk62 sk62 (tape_of [12345; 67890; 424242])
      = Ok (plaintext, plaintext2)
      /\ values_are plaintext doubled
      /\ values_are plaintext2 octupled
      /\ ~ values_are plaintext2 quadrupled.
Proof.
  split; [exact generated62|]. split; [exact blinded62|].
  remember (demo 16 pk62 sk62 (tape_of [12345; 67890; 424242])) as d eqn:E.
  vm_compute in E. subst d.
  eexists; eexists. split; [reflexivity|].
  split; [repeat constructor|]. split; [repeat constructor|].
  intros H. inversion H as [|? ? ? ? Q1 _]. vm_compute in Q1. discriminate.
Qed.

(** ** Key generation (C8) *)

Lemma draw_other_prime_spec fuel bits p r q r' :
  draw_other_prime fuel bits p r = Some (q, r') ->
  q <> p /\ tape r' = tape r /\ exists i, q = tape r i.
Proof.
  revert r. induction fuel as [|fuel IH]; intros r; cbn [draw_other_prime];
    [discriminate|].
  unfold util.getprimeover, draw.
  destruct (Z.eqb_spec (tape r (pos r)) p) as [E|N].
  - intros H. apply IH in H. cbn [tape] in H.
    destruct H as (Hq & Ht & i & Hi). split; [exact Hq|]. split; [exact Ht|].
    now exists i.
  - intros [= <- <-]. split; [exact N|]. split; [reflexivity|].
    now exists (pos r).
Qed.

Lemma draw_primes_spec fuel n_length r p q n n_len r' :
  draw_primes fuel n_length r = Some (p, q, n, n_len, r') ->
  p <> q /\ n = p * q /\ n_len = n_length /\ bit_length n = n_length
  /\ (exists i, p = tape r i) /\ (exists j, q = tape r j).
Proof.
  revert r. induction fuel as [|fuel IH]; intros r; cbn [draw_primes];
    [discriminate|].
  unfold util.getprimeover, draw.
  destruct (draw_other_prime fuel (n_length / 2) (tape r (pos r)) _)
    as [[q0 r2]|] eqn:D; [|discriminate].
  apply draw_other_prime_spec in D. cbn [tape] in D.
  destruct D as (Hq & Ht & j & Hj).
  destruct (Z.eqb_spec (bit_length (tape r (pos r) * q0)) n_length) as [E|N].
  - intros [= <- <- <- <- <-].
    split; [congruence|]. split; [reflexivity|]. split; [exact E|].
    split; [exact E|]. split; [now exists (pos r)|now exists j].
  - intros H. apply IH in H. rewrite Ht in H. exact H.
Qed.



Lemma min_mul_max a b : Z.min a b * Z.max a b = a * b.
Proof.
  destruct (Z.le_gt_cases a b);
    [rewrite Z.min_l, Z.max_r by lia|rewrite Z.min_r, Z.max_l by lia]; ring.
Qed.

Lemma init_sym pk x y :
  PaillierPrivateKey.__init__ pk x y = PaillierPrivateKey.__init__ pk y x.
Proof.
  unfold PaillierPrivateKey.__init__. rewrite (Z.mul_comm y x), (Z.eqb_sym y x).
  destruct (negb _); [reflexivity|].
  destruct (Z.eqb_spec x y); [reflexivity|].
  destruct (Z.ltb_spec y x), (Z.ltb_spec x y); try lia; reflexivity.
Qed.

Lemma init_fields pk x y sk :
  PaillierPrivateKey.__init__ pk x y = Ok sk ->
  PaillierPrivateKey.public_key sk = pk
  /\ PaillierPrivateKey.p sk = Z.min x y /\ PaillierPrivateKey.q sk = Z.max x y
  /\ x <> y /\ x * y = PaillierPublicKey.n pk.
Proof.
  unfold PaillierPrivateKey.__init__.
  destruct (Z.eqb_spec (x * y) (PaillierPublicKey.n pk)); [|discriminate].
  cbn [negb]. destruct (Z.eqb_spec x y); [discriminate|].
  destruct (Z.ltb_spec y x).
  - destruct (util.invert _ _); [|discriminate]. cbn [bind].
    destruct (PaillierPrivateKey.h_function _ _ _); [|discriminate]. cbn [bind].
    destruct (PaillierPrivateKey.h_function _ _ _); [|discriminate]. cbn [bind].
    intros [= <-]. cbn. repeat split; try lia.
  - destruct (util.invert _ _); [|discriminate]. cbn [bind].
    destruct (PaillierPrivateKey.h_function _ _ _); [|discriminate]. cbn [bind].
    destruct (PaillierPrivateKey.h_function _ _ _); [|discriminate]. cbn [bind].
    intros [= <-]. cbn. repeat split; try lia.
Qed.



Lemma squares_coprime p q :
  Z.prime p -> Z.prime q -> p <> q -> Z.gcd (q * q) (p * p) = 1.
Proof.
  intros Hp Hq Hne.
  assert (G : Z.gcd q p = 1).
  { apply Z.coprime_prime_l; [exact Hq|]. intros Hd.
    apply Z.divide_prime_prime in Hd; auto. }
  apply Z.coprime_mul_l; apply Z.coprime_mul_r; exact G.
Qed.


Lemma primes_5_7 : primes_of_bits (6 / 2) tape_5_7.
Proof.
  intros i. cbn [tape tape_5_7].
  destruct (Nat.even i); (split; [|reflexivity]).
  - exact prime_5.
  - exact prime_7.
Qed.




(** * Further properties of the code

    ** Raw encryption and decryption *)

(** The residue before blinding encrypts the plaintext modulo [n], for
    every integer plaintext. *)
Lemma nude_ciphertext_any sk (K : key_ok sk) m :
  exists c,
    nude_ciphertext (PaillierPublicKey.n (PaillierPrivateKey.public_key sk))
      (PaillierPublicKey.max_int (PaillierPrivateKey.public_key sk))
      (PaillierPublicKey.n (PaillierPrivateKey.public_key sk)
       * PaillierPublicKey.n (PaillierPrivateKey.public_key sk)) m = Ok c
    /\ encrypts sk c m.
Proof.
  set (n := PaillierPublicKey.n (PaillierPrivateKey.public_key sk)).
  assert (Hn : 6 <= n) by exact (key_n_ge_6 sk K).
  destruct (Z_le_gt_dec 0 m) as [H0|H0];
    [destruct (Z_lt_le_dec m n) as [H1|H1]|].
  - apply (nude_ciphertext_ok sk K). fold n. lia.
  - unfold nude_ciphertext.
    destruct (Z.ltb_spec m n); [lia|]. rewrite andb_false_r.
    eexists; split; [reflexivity|].
    unfold util.mod_, util.mul. now apply (encrypts_nude sk K).
  - unfold nude_ciphertext.
    pose proof (key_max_int sk K) as [Hmi _]. fold n in Hmi.
    destruct (Z.leb_spec (n - PaillierPublicKey.max_int
                                (PaillierPrivateKey.public_key sk)) m);
      [pose proof (key_max_int sk K) as [_ Hmi3]; fold n in Hmi3; lia|].
    cbn [andb]. eexists; split; [reflexivity|].
    unfold util.mod_, util.mul.
    assert (E : (n * m + 1) mod (n * n) = (n * (m mod n) + 1) mod (n * n)).
    { rewrite (Z.div_mod m n) at 1 by lia.
      replace (n * (n * (m / n) + m mod n) + 1)
        with (n * (m mod n) + 1 + (m / n) * (n * n)) by ring.
      apply Z.mod_add. nia. }
    rewrite E.
    apply (encrypts_ext sk _ (m mod n)).
    + apply (encrypts_nude sk K). apply Z.mod_pos_bound. lia.
    + fold n. apply Z.mod_mod. lia.
Qed.

Lemma raw_encrypt_decrypt_mod sk (K : key_ok sk) m r_value r :
  well_blinded (PaillierPrivateKey.public_key sk) r ->
  exists c r',
    PaillierPublicKey.raw_encrypt (PaillierPrivateKey.public_key sk) m
      r_value r = Ok (c, r')
    /\ 0 <= c < PaillierPublicKey.nsquare (PaillierPrivateKey.public_key sk)
    /\ PaillierPrivateKey.raw_decrypt sk c
       = m mod PaillierPublicKey.n (PaillierPrivateKey.public_key sk).
Proof.
  intros (o & r' & Eo & Hb). rewrite raw_encrypt_unfold.
  destruct (nude_ciphertext_any sk K m) as (c0 & E0 & H0).
  rewrite (ok_nsquare sk K), E0. cbn [bind]. rewrite Eo. cbn [bind].
  eexists; eexists. split; [reflexivity|].
  pose proof (key_n_ge_6 sk K) as Hn.
  split; [unfold util.mul_mod; apply Z.mod_pos_bound; nia|].
  assert (He : encrypts sk
                 (util.mul_mod c0 o
                    (PaillierPublicKey.n (PaillierPrivateKey.public_key sk)
                     * PaillierPublicKey.n (PaillierPrivateKey.public_key sk)))
                 (m + 0)).
  { apply (encrypts_mul sk K); [exact H0|apply (encrypts_blinding sk K), Hb]. }
  destruct He as [_ He]. now rewrite Z.add_0_r in He.
Qed.

(** X1: with a key pair built from two primes and a blinding factor that
    is the n-th power of a unit, [raw_encrypt] accepts every integer
    plaintext, returns a residue of [0 .. n^2 - 1], and [raw_decrypt] of
    that residue is the plaintext modulo [n]: the plaintext itself when
    [0 <= m < n]. *)
Theorem raw_encrypt_then_decrypt pk sk m r_value r :
  generated pk sk -> well_blinded pk r ->
  exists c r',
    PaillierPublicKey.raw_encrypt pk m r_value r = Ok (c, r')
    /\ 0 <= c < PaillierPublicKey.nsquare pk
    /\ PaillierPrivateKey.raw_decrypt sk c = m mod PaillierPublicKey.n pk
    /\ (0 <= m < PaillierPublicKey.n pk ->
        PaillierPrivateKey.raw_decrypt sk c = m).
Proof.
  intros Hg Hb. destruct (generated_key_ok pk sk Hg) as [K Hpk]. subst pk.
  destruct (raw_encrypt_decrypt_mod sk K m r_value r Hb)
    as (c & r' & E & Hc & Hd).
  exists c, r'. split; [exact E|]. split; [exact Hc|]. split; [exact Hd|].
  intros Hm. rewrite Hd. now apply Z.mod_small.
Qed.

Lemma raw_encrypt_then_decrypt_witness :
  generated pk35 sk35 /\ well_blinded pk35 (tape_of [1])
  /\ exists c r',
      PaillierPublicKey.raw_encrypt pk35 (-3) None (tape_of [1]) = Ok (c, r')
      /\ 0 <= c < 1225
      /\ PaillierPrivateKey.raw_decrypt sk35 c = 32.
Proof.
  assert (B : well_blinded pk35 (tape_of [1])) by (apply blinded35; reflexivity).
  split; [exact generated35|]. split; [exact B|].
  destruct (raw_encrypt_then_decrypt pk35 sk35 (-3) None (tape_of [1])
              generated35 B) as (c & r' & E & Hc & Hd & _).
  exists c, r'. split; [exact E|]. split; [exact Hc|exact Hd].
Defined.

(** X2: for a key pair built from two primes, [raw_decrypt] returns a
    value of [0 .. n - 1] for every integer handed to it, a valid
    ciphertext or not. *)
Theorem raw_decrypt_stays_below_n pk sk c :
  generated pk sk ->
  0 <= PaillierPrivateKey.raw_decrypt sk c < PaillierPublicKey.n pk.
Proof.
  intros Hg. destruct (generated_key_ok pk sk Hg) as [K Hpk]. subst pk.
  apply (raw_decrypt_range sk K).
Qed.

Lemma raw_decrypt_stays_below_n_witness :
  generated pk35 sk35
  /\ 0 <= PaillierPrivateKey.raw_decrypt sk35 0 < 35
  /\ 0 <= PaillierPrivateKey.raw_decrypt sk35 (-7) < 35.
Proof.
  split; [exact generated35|].
  split; [exact (raw_decrypt_stays_below_n pk35 sk35 0 generated35)|].
  exact (raw_decrypt_stays_below_n pk35 sk35 (-7) generated35).
Defined.

(** X3: for a key pair built from two primes and [0 <= mp < p], [crt]
    returns the one number of [0 .. n - 1] that is [mp] modulo [p] and
    [mq] modulo [q]. *)
Theorem crt_recombines pk sk mp mq :
  generated pk sk -> 0 <= mp < PaillierPrivateKey.p sk ->
  let x := PaillierPrivateKey.crt sk mp mq in
  0 <= x < PaillierPublicKey.n pk
  /\ x mod PaillierPrivateKey.p sk = mp
  /\ x mod PaillierPrivateKey.q sk = mq mod PaillierPrivateKey.q sk
  /\ (forall y, 0 <= y < PaillierPublicKey.n pk ->
                y mod PaillierPrivateKey.p sk = mp ->
                y mod PaillierPrivateKey.q sk = mq mod PaillierPrivateKey.q sk ->
                y = x).
Proof.
  intros Hg Hmp x. destruct (generated_key_ok pk sk Hg) as [K Hpk]. subst pk.
  set (p := PaillierPrivateKey.p sk) in *.
  set (q := PaillierPrivateKey.q sk) in *.
  pose proof (Z.prime_ge_2 _ (ok_p sk K)) as P2. fold p in P2.
  pose proof (Z.prime_ge_2 _ (ok_q sk K)) as Q2. fold q in Q2.
  pose proof (ok_p_inverse sk K) as Hinv. fold p q in Hinv.
  assert (Hn : PaillierPublicKey.n (PaillierPrivateKey.public_key sk) = p * q)
    by exact (ok_n sk K).
  unfold PaillierPrivateKey.crt, util.mul_mod_new in x. fold p q in x.
  set (u := ((mq - mp) * PaillierPrivateKey.p_inverse sk) mod q) in *.
  assert (Hu : 0 <= u < q) by (apply Z.mod_pos_bound; lia).
  assert (X1 : 0 <= x < p * q) by (unfold x; nia).
  assert (X2 : x mod p = mp).
  { unfold x. rewrite Z.mod_add by lia. apply Z.mod_small. lia. }
  assert (X3 : x mod q = mq mod q).
  { unfold x, u. rewrite Z.add_mod, Z.mul_mod_idemp_l by lia.
    rewrite <- Z.mul_assoc, <- Z.mul_mod_idemp_r, Hinv, Z.mul_1_r by lia.
    rewrite <- Z.add_mod by lia. f_equal. ring. }
  rewrite Hn. split; [exact X1|]. split; [exact X2|]. split; [exact X3|].
  intros y Hy Y2 Y3.
  apply (crt_unique p q y x); try lia;
    first [apply (pq_coprime sk K) | now rewrite X2 | now rewrite X3].
Qed.

Lemma crt_recombines_witness :
  generated pk35 sk35 /\ 0 <= 3 < PaillierPrivateKey.p sk35
  /\ PaillierPrivateKey.crt sk35 3 6 mod 5 = 3
  /\ PaillierPrivateKey.crt sk35 3 6 mod 7 = 6 mod 7.
Proof.
  assert (H : 0 <= 3 < PaillierPrivateKey.p sk35) by (cbn; lia).
  split; [exact generated35|]. split; [exact H|].
  destruct (crt_recombines pk35 sk35 3 6 generated35 H) as (_ & H1 & H2 & _).
  split; [exact H1|exact H2].
Defined.

(** ** The blinding table *)

Lemma inverse_coprime a m x : (x * a) mod m = 1 -> Z.gcd m a = 1.
Proof.
  intros H. apply Z.bezout_1_gcd.
  destruct (Z.eq_dec m 0) as [->|Hm].
  - rewrite Z.mod_0_r in H. exists 0, x. lia.
  - exists (- (x * a / m)), x.
    pose proof (Z.div_mod (x * a) m Hm). lia.
Qed.

Lemma pow_mod_n2_spec base exp n_length psquare qsquare qsquare_inv r :
  1 < psquare -> 1 < qsquare ->
  (qsquare_inv * qsquare) mod psquare = 1 -> 0 <= exp ->
  pow_mod_n2 (Some base) exp n_length psquare qsquare qsquare_inv r
  = (base ^ exp mod (psquare * qsquare), r).
Proof.
  intros Hp Hq Hinv He. unfold pow_mod_n2. f_equal.
  rewrite !powmod_correct by lia.
  set (t := base ^ exp).
  set (x := (qsquare_inv * (t mod psquare - t mod qsquare)) mod psquare).
  pose proof (Z.mod_pos_bound t psquare ltac:(lia)) as Bp.
  pose proof (Z.mod_pos_bound t qsquare ltac:(lia)) as Bq.
  assert (Bx : 0 <= x < psquare) by (apply Z.mod_pos_bound; lia).
  apply (crt_unique psquare qsquare); try lia.
  - now apply (inverse_coprime qsquare psquare qsquare_inv).
  - nia.
  - apply Z.mod_pos_bound. nia.
  - rewrite (Z.mod_mod_divide t (psquare * qsquare) psquare)
      by (exists qsquare; ring).
    unfold x. rewrite Z.add_mod, Z.mul_mod_idemp_l by lia.
    replace (qsquare_inv * (t mod psquare - t mod qsquare) * qsquare)
      with ((qsquare_inv * qsquare) * (t mod psquare - t mod qsquare)) by ring.
    rewrite <- Z.mul_mod_idemp_l, Hinv, Z.mul_1_l by lia.
    rewrite <- Z.add_mod by lia.
    replace (t mod psquare - t mod qsquare + t mod qsquare)
      with (t mod psquare) by ring.
    apply Z.mod_mod. lia.
  - rewrite (Z.mod_mod_divide t (psquare * qsquare) qsquare)
      by (exists psquare; ring).
    rewrite Z.add_comm, Z.mod_add by lia. apply Z.mod_mod. lia.
Qed.

(** X4: [pow_mod_n2], given a base, the inverse of [qsquare] modulo
    [psquare] and a non-negative exponent, returns [base ^ exp] modulo
    [psquare * qsquare] and draws nothing; without a base it draws one
    number and returns its power. *)
Theorem pow_mod_n2_is_power exp n_length psquare qsquare qsquare_inv r :
  1 < psquare -> 1 < qsquare ->
  (qsquare_inv * qsquare) mod psquare = 1 -> 0 <= exp ->
  (forall base,
      pow_mod_n2 (Some base) exp n_length psquare qsquare qsquare_inv r
      = (base ^ exp mod (psquare * qsquare), r))
  /\ pow_mod_n2 None exp n_length psquare qsquare qsquare_inv r
     = (fst (util.rand_int_bits (n_length / 3) r) ^ exp
        mod (psquare * qsquare),
        snd (draw r)).
Proof.
  intros Hp Hq Hinv He. split.
  - intros base. now apply pow_mod_n2_spec.
  - pose proof (pow_mod_n2_spec (fst (util.rand_int_bits (n_length / 3) r))
                  exp n_length psquare qsquare qsquare_inv (snd (draw r))
                  Hp Hq Hinv He) as H.
    unfold pow_mod_n2 in *. unfold util.rand_int_bits, draw in *.
    cbn [fst snd] in *. exact H.
Qed.

Lemma pow_mod_n2_is_power_witness :
  1 < 25 /\ 1 < 49 /\ (24 * 49) mod 25 = 1 /\ 0 <= 35
  /\ pow_mod_n2 (Some 3) 35 6 25 49 24 (tape_of [7])
     = (3 ^ 35 mod (25 * 49), tape_of [7]).
Proof.
  assert (H1 : 1 < 25) by lia. assert (H2 : 1 < 49) by lia.
  assert (H3 : (24 * 49) mod 25 = 1) by reflexivity.
  assert (H4 : 0 <= 35) by lia.
  split; [exact H1|]. split; [exact H2|]. split; [exact H3|].
  split; [exact H4|].
  exact (proj1 (pow_mod_n2_is_power 35 6 25 49 24 (tape_of [7]) H1 H2 H3 H4) 3).
Defined.

(** What a successful [generate_keys] with a table returns. *)
Lemma generate_keys_table fuel L r res :
  primes_of_bits (L / 2) r -> L <> 0 ->
  generate_keys fuel L true r = Some res ->
  exists p q tbl sk r',
    Z.prime p /\ Z.prime q /\ p <> q
    /\ bit_length p = L / 2 /\ bit_length q = L / 2
    /\ power_table (p * q) tbl
    /\ PaillierPrivateKey.__init__
         (PaillierPublicKey.__init__ (p * q) (Some tbl) L
            PaillierPublicKey.default_noise) p q = Ok sk
    /\ res = Ok (PaillierPublicKey.__init__ (p * q) (Some tbl) L
                   PaillierPublicKey.default_noise,
                 sk, Some (mk_table (p * q) L p q tbl), r').
Proof.
  intros Hc HL G. unfold generate_keys in G.
  destruct (Z.eqb_spec L 0) as [|_]; [contradiction|].
  destruct (draw_primes fuel L r) as [[[[[p q] n] n_len] r']|] eqn:D;
    [|discriminate].
  apply draw_primes_spec in D.
  destruct D as (Hne & -> & -> & Hb & (i & ->) & (j & ->)).
  destruct (Hc i) as [Pi Bi]. destruct (Hc j) as [Pj Bj].
  set (p := tape r i) in *. set (q := tape r j) in *.
  pose proof (Z.prime_ge_2 _ Pi) as P2. pose proof (Z.prime_ge_2 _ Pj) as Q2.
  pose proof (squares_coprime p q Pi Pj Hne) as Gsq.
  unfold libnum.invmod in G. rewrite Gsq in G.
  cbn [Z.eqb Pos.eqb bind] in G. cbv zeta in G.
  assert (Hinv : (Z.invmod (q * q) (p * p) * (q * q)) mod (p * p) = 1)
    by (apply Z.invmod_coprime; [nia|exact Gsq]).
  remember (map _ (seq 0 table_size)) as tbl eqn:Etbl in G.
  assert (T : power_table (p * q) tbl).
  { subst tbl. split; [now rewrite length_map, length_seq|].
    intros k Hk. rewrite nth_error_map, nth_error_seq.
    destruct (Nat.ltb_spec k table_size); [|lia]. cbn [option_map Nat.add].
    rewrite pow_mod_n2_spec; [|nia|nia|exact Hinv|nia]. cbn [fst].
    do 2 f_equal. ring. }
  clear Etbl.
  destruct (init_key_ok
              (PaillierPublicKey.__init__ (p * q) (Some tbl) L
                 PaillierPublicKey.default_noise) p q Pi Pj Hne
              eq_refl eq_refl eq_refl eq_refl) as (sk & Esk & _).
  rewrite Esk in G. cbn [bind] in G. injection G as <-.
  exists p, q, tbl, sk, r'. repeat (split; [assumption|]). reflexivity.
Qed.

Lemma bit_length_lower k x :
  0 < x -> 1 <= k -> bit_length x = k -> 2 ^ (k - 1) <= x.
Proof.
  intros Hx Hk B. unfold bit_length in B.
  destruct (Z.eqb_spec x 0); [lia|]. rewrite Z.abs_eq in B by lia.
  pose proof (Z.log2_spec x Hx) as [L _].
  now replace (k - 1) with (Z.log2 x) by lia.
Qed.

(** A product of randomly indexed slots of a power table is the n-th
    power of a unit when both primes are above the largest index. *)
Lemma blend_blinding pk p q tbl count :
  Z.prime p -> Z.prime q -> 16383 < p -> 16383 < q ->
  PaillierPublicKey.n pk = p * q ->
  PaillierPublicKey.nsquare pk = PaillierPublicKey.n pk * PaillierPublicKey.n pk ->
  PaillierPublicKey.r_pow_n_l pk = Some tbl ->
  power_table (PaillierPublicKey.n pk) tbl ->
  forall acc r,
    blinding (PaillierPublicKey.n pk) acc ->
    exists o r', PaillierPublicKey.blend pk count acc r = Ok (o, r')
                 /\ blinding (PaillierPublicKey.n pk) o.
Proof.
  intros Pp Pq Hp Hq Hn Hsq Ht [Hlen Hslot].
  set (n := PaillierPublicKey.n pk) in *.
  assert (Hn0 : 0 < n) by nia.
  induction count as [|count IH]; intros acc r Hacc.
  - exists acc, r. split; [reflexivity|exact Hacc].
  - cbn [PaillierPublicKey.blend]. unfold randint, draw.
    set (idx := 1 + tape r (pos r) mod (16383 - 1 + 1)).
    assert (Hidx : 1 <= idx <= 16383).
    { unfold idx.
      pose proof (Z.mod_pos_bound (tape r (pos r)) (16383 - 1 + 1) ltac:(lia)).
      lia. }
    assert (Hslot' : nth_error tbl (Z.to_nat idx) = Some (idx ^ n mod (n * n))).
    { rewrite Hslot by (unfold table_size; lia).
      now rewrite Z2Nat.id by lia. }
    unfold PaillierPublicKey.table, getitem. rewrite Ht, Hslot'. cbn [bind].
    apply IH. destruct Hacc as (b & Gb & ->).
    exists (b * idx). split.
    + apply Z.coprime_mul_l; [exact Gb|]. rewrite Hn.
      apply Z.coprime_mul_r; unfold Z.coprime; rewrite Z.gcd_comm;
        (apply Z.coprime_prime_l; [assumption|]);
        intros Hd; apply Z.divide_pos_le in Hd; lia.
    + rewrite Hsq. fold n. unfold util.mul_mod.
      rewrite <- Z.mul_mod by nia. now rewrite Z.pow_mul_l.
Qed.

(** X5: a key pair [generate_keys] returns with a precomputed table, for
    a bit length of at least 30 and under the contract of [getprimeover],
    is blinded correctly whatever is drawn: the table holds [i ^ n]
    modulo [n^2] in slot [i], and for every plaintext and every tape
    [raw_encrypt] succeeds and [raw_decrypt] returns the plaintext modulo
    [n]. *)
Theorem table_keys_always_decrypt fuel L r res :
  primes_of_bits (L / 2) r -> 30 <= L ->
  generate_keys fuel L true r = Some res ->
  exists pk sk tbl r',
    res = Ok (pk, sk, Some tbl, r')
    /\ generated pk sk
    /\ PaillierPublicKey.r_pow_n_l pk = Some (table_r_pow_n_l tbl)
    /\ power_table (PaillierPublicKey.n pk) (table_r_pow_n_l tbl)
    /\ (forall r0, well_blinded pk r0)
    /\ (forall m r_value r0,
           exists c r1,
             PaillierPublicKey.raw_encrypt pk m r_value r0 = Ok (c, r1)
             /\ PaillierPrivateKey.raw_decrypt sk c
                = m mod PaillierPublicKey.n pk).
Proof.
  intros Hc HL G.
  destruct (generate_keys_table fuel L r res Hc ltac:(lia) G)
    as (p & q & tbl & sk & r' & Pp & Pq & Hne & Bp & Bq & T & Esk & ->).
  set (pk := PaillierPublicKey.__init__ (p * q) (Some tbl) L
               PaillierPublicKey.default_noise) in *.
  assert (Hg : generated pk sk).
  { exists p, q, (Some tbl), L, PaillierPublicKey.default_noise. auto. }
  destruct (generated_key_ok pk sk Hg) as [K Hpk].
  pose proof (Z.prime_ge_2 _ Pp) as P2. pose proof (Z.prime_ge_2 _ Pq) as Q2.
  assert (H15 : 15 <= L / 2) by (apply Z.div_le_lower_bound; lia).
  assert (Hp : 16383 < p).
  { pose proof (bit_length_lower (L / 2) p ltac:(lia) ltac:(lia) Bp).
    pose proof (Z.pow_le_mono_r 2 14 (L / 2 - 1) ltac:(lia) ltac:(lia)).
    change (2 ^ 14) with 16384 in *. lia. }
  assert (Hq : 16383 < q).
  { pose proof (bit_length_lower (L / 2) q ltac:(lia) ltac:(lia) Bq).
    pose proof (Z.pow_le_mono_r 2 14 (L / 2 - 1) ltac:(lia) ltac:(lia)).
    change (2 ^ 14) with 16384 in *. lia. }
  assert (Hw : forall r0, well_blinded pk r0).
  { intros r0. unfold well_blinded, obfuscator.
    assert (Hhas : PaillierPublicKey.has_table pk = true).
    { unfold PaillierPublicKey.has_table. cbn [pk PaillierPublicKey.__init__
        PaillierPublicKey.r_pow_n_l].
      destruct T as [Hlen _]. destruct tbl as [|x tbl]; [|reflexivity].
      exfalso. cbn [length] in Hlen. unfold table_size in Hlen. lia. }
    rewrite Hhas.
    apply (blend_blinding pk p q tbl _ Pp Pq Hp Hq eq_refl eq_refl eq_refl T).
    exists 1. split; [apply Z.gcd_1_l|].
    cbn [pk PaillierPublicKey.__init__ PaillierPublicKey.n].
    rewrite Z.pow_1_l by nia. symmetry. apply Z.mod_small. nia. }
  exists pk, sk, (mk_table (p * q) L p q tbl), r'.
  split; [reflexivity|]. split; [exact Hg|]. split; [reflexivity|].
  split; [exact T|]. split; [exact Hw|].
  clearbody pk. subst pk. intros m r_value r0.
  destruct (raw_encrypt_decrypt_mod sk K m r_value r0 (Hw r0))
    as (c & r1 & E & _ & Hd).
  now exists c, r1.
Qed.

Lemma generate_keys_returns fuel L precompute r :
  draw_primes fuel L r <> None ->
  exists res, generate_keys fuel L precompute r = Some res.
Proof.
  intros D. unfold generate_keys.
  destruct (L =? 0); [eexists; reflexivity|].
  destruct (draw_primes fuel L r) as [[[[[p q] n] n_len] r']|];
    [eexists; reflexivity|contradiction].
Qed.

Lemma primes_15_bits : primes_of_bits (30 / 2) tape_15_bits.
Proof.
  intros i. cbn [tape tape_15_bits].
  destruct (Nat.even i); (split; [|reflexivity]);
    apply is_prime_sound; vm_compute; reflexivity.
Qed.

Lemma table_keys_always_decrypt_witness :
  primes_of_bits (30 / 2) tape_15_bits /\ 30 <= 30
  /\ exists res,
      generate_keys 3 30 true tape_15_bits = Some res
      /\ exists pk sk tbl r',
          res = Ok (pk, sk, Some tbl, r')
          /\ generated pk sk
          /\ forall r0, well_blinded pk r0.
Proof.
  assert (H30 : 30 <= 30) by lia.
  split; [exact primes_15_bits|]. split; [exact H30|].
  destruct (generate_keys_returns 3 30 true tape_15_bits) as (res & G).
  { vm_compute. discriminate. }
  exists res. split; [exact G|].
  destruct (table_keys_always_decrypt 3 30 tape_15_bits res primes_15_bits
              H30 G) as (pk & sk & tbl & r' & E & Hg & _ & _ & Hw & _).
  exists pk, sk, tbl, r'. split; [exact E|]. split; [exact Hg|exact Hw].
Defined.

(** ** Building and reloading keys *)

Lemma init_record pk x y sk :
  PaillierPrivateKey.__init__ pk x y = Ok sk ->
  exists pinv hp hq,
    util.invert (Z.min x y) (Z.max x y) = Ok pinv
    /\ PaillierPrivateKey.h_function pk (Z.min x y) (Z.min x y * Z.min x y)
       = Ok hp
    /\ PaillierPrivateKey.h_function pk (Z.max x y) (Z.max x y * Z.max x y)
       = Ok hq
    /\ sk = PaillierPrivateKey.mk pk (Z.min x y) (Z.max x y)
              (Z.min x y * Z.min x y) (Z.max x y * Z.max x y) pinv hp hq.
Proof.
  unfold PaillierPrivateKey.__init__.
  destruct (negb _); [discriminate|].
  destruct (Z.eqb_spec x y); [discriminate|].
  destruct (Z.ltb_spec y x);
    [rewrite (Z.min_r x y), (Z.max_l x y) by lia
    |rewrite (Z.min_l x y), (Z.max_r x y) by lia];
    (destruct (util.invert _ _) as [pinv|]; [|discriminate]; cbn [bind];
     destruct (PaillierPrivateKey.h_function _ _ _) as [hp|];
       [|discriminate]; cbn [bind];
     destruct (PaillierPrivateKey.h_function _ _ _) as [hq|];
       [|discriminate]; cbn [bind];
     intros [= <-]; exists pinv, hp, hq; auto).
Qed.

(** The private key depends on the public key through [n] and [g] only. *)
Lemma init_other_key pk pk' x y sk :
  PaillierPrivateKey.__init__ pk x y = Ok sk ->
  PaillierPublicKey.n pk' = PaillierPublicKey.n pk ->
  PaillierPublicKey.g pk' = PaillierPublicKey.g pk ->
  PaillierPrivateKey.__init__ pk' x y
  = Ok (PaillierPrivateKey.mk pk' (PaillierPrivateKey.p sk)
          (PaillierPrivateKey.q sk) (PaillierPrivateKey.psquare sk)
          (PaillierPrivateKey.qsquare sk) (PaillierPrivateKey.p_inverse sk)
          (PaillierPrivateKey.hp sk) (PaillierPrivateKey.hq sk)).
Proof.
  intros E Hn Hg. revert E.
  unfold PaillierPrivateKey.__init__, PaillierPrivateKey.h_function.
  rewrite Hn, Hg.
  destruct (negb _); [discriminate|].
  destruct (x =? y); [discriminate|].
  destruct (y <? x);
    (destruct (util.invert _ _); [|discriminate]; cbn [bind];
     destruct (util.invert _ _); [|discriminate]; cbn [bind];
     destruct (util.invert _ _); [|discriminate]; cbn [bind];
     intros [= <-]; reflexivity).
Qed.

(** X6: [PaillierPrivateKey(public_key, p, q)] raises [ValueError] when
    [p * q] is not the modulus or [p = q]; a key it returns holds the
    smaller prime as [p], the squares of both, an inverse of [p] modulo
    [q], and is the same whichever way round the primes are given; for two
    distinct primes and the public key of their product it returns a
    key. *)
Theorem private_key_constructor pk p q :
  (p * q <> PaillierPublicKey.n pk \/ p = q ->
   PaillierPrivateKey.__init__ pk p q = Raise ValueError)
  /\ (forall sk,
         PaillierPrivateKey.__init__ pk p q = Ok sk ->
         PaillierPrivateKey.public_key sk = pk
         /\ PaillierPrivateKey.p sk = Z.min p q
         /\ PaillierPrivateKey.q sk = Z.max p q
         /\ PaillierPrivateKey.p sk < PaillierPrivateKey.q sk
         /\ PaillierPrivateKey.p sk * PaillierPrivateKey.q sk
            = PaillierPublicKey.n pk
         /\ PaillierPrivateKey.psquare sk
            = PaillierPrivateKey.p sk * PaillierPrivateKey.p sk
         /\ PaillierPrivateKey.qsquare sk
            = PaillierPrivateKey.q sk * PaillierPrivateKey.q sk
         /\ (PaillierPrivateKey.p_inverse sk * PaillierPrivateKey.p sk)
            mod PaillierPrivateKey.q sk = 1 mod PaillierPrivateKey.q sk
         /\ PaillierPrivateKey.__init__ pk q p = Ok sk)
  /\ (forall r_pow_n_l n_length noise,
         Z.prime p -> Z.prime q -> p <> q ->
         pk = PaillierPublicKey.__init__ (p * q) r_pow_n_l n_length noise ->
         exists sk, PaillierPrivateKey.__init__ pk p q = Ok sk /\ key_ok sk).
Proof.
  split; [|split].
  - intros H. unfold PaillierPrivateKey.__init__.
    destruct (Z.eqb_spec (p * q) (PaillierPublicKey.n pk)); [|reflexivity].
    cbn [negb]. destruct (Z.eqb_spec p q); [reflexivity|].
    destruct H; contradiction.
  - intros sk E. pose proof (init_fields _ _ _ _ E) as (Hpk & Hp & Hq & Hne & Hn).
    destruct (init_record _ _ _ _ E) as (pinv & hp & hq & Ei & _ & _ & ->).
    cbn. split; [reflexivity|]. split; [reflexivity|]. split; [reflexivity|].
    split; [lia|]. split; [rewrite min_mul_max; exact Hn|].
    split; [reflexivity|]. split; [reflexivity|].
    split.
    + apply invert_Ok in Ei. destruct Ei as [G ->].
      now apply Z.invmod_coprime'.
    + rewrite init_sym. exact E.
  - intros tbl nl noise Pp Pq Hne ->.
    destruct (init_key_ok (PaillierPublicKey.__init__ (p * q) tbl nl noise)
                p q Pp Pq Hne eq_refl eq_refl eq_refl eq_refl)
      as (sk & E & K & _).
    now exists sk.
Qed.

Lemma private_key_constructor_witness :
  PaillierPrivateKey.__init__ pk35 5 5 = Raise ValueError
  /\ PaillierPrivateKey.__init__ pk35 3 7 = Raise ValueError
  /\ PaillierPrivateKey.__init__ pk35 7 5 = Ok sk35
  /\ PaillierPrivateKey.p sk35 < PaillierPrivateKey.q sk35
  /\ PaillierPrivateKey.__init__ pk35 5 7 = Ok sk35.
Proof.
  assert (E : PaillierPrivateKey.__init__ pk35 7 5 = Ok sk35)
    by (vm_compute; reflexivity).
  destruct (private_key_constructor pk35 7 5) as (_ & H & _).
  destruct (H sk35 E) as (_ & _ & _ & Hlt & _ & _ & _ & _ & Hsym).
  split; [apply (proj1 (private_key_constructor pk35 5 5)); now right|].
  split; [apply (proj1 (private_key_constructor pk35 3 7)); left; discriminate|].
  split; [exact E|]. split; [exact Hlt|exact Hsym].
Defined.

(** X7: the table [generate_paillier_keypair] writes when it generates a
    key pair with a table is reused by every later call for the same bit
    length: that call draws nothing, leaves the table as it is and returns
    keys equal ([__eq__]) to the generated ones, with the same primes and
    the same blinding table, the public key's [n_length] being the default
    2048 whatever the bit length was. *)
Theorem keypair_reloaded_from_table fuel L r pk sk t r' :
  generate_paillier_keypair fuel L true None r
  = Some (Ok (pk, sk, Some t, r')) ->
  table_n t = PaillierPublicKey.n pk /\ table_n_length t = L
  /\ PaillierPublicKey.r_pow_n_l pk = Some (table_r_pow_n_l t)
  /\ forall fuel2 precompute2 r2,
      exists pk2 sk2,
        generate_paillier_keypair fuel2 L precompute2 (Some t) r2
        = Some (Ok (pk2, sk2, Some t, r2))
        /\ PaillierPublicKey.__eq__ pk2 pk = true
        /\ PaillierPublicKey.r_pow_n_l pk2 = PaillierPublicKey.r_pow_n_l pk
        /\ PaillierPublicKey.n_length pk2 = 2048
        /\ PaillierPrivateKey.__eq__ sk2 sk = true
        /\ PaillierPrivateKey.public_key sk2 = pk2
        /\ PaillierPrivateKey.p sk2 = PaillierPrivateKey.p sk
        /\ PaillierPrivateKey.q sk2 = PaillierPrivateKey.q sk.
Proof.
  unfold generate_paillier_keypair at 1. unfold generate_keys.
  destruct (L =? 0); [discriminate|].
  destruct (draw_primes fuel L r) as [[[[[p q] n] n_len] r0]|] eqn:D;
    [|discriminate].
  apply draw_primes_spec in D. destruct D as (_ & _ & -> & _).
  cbv zeta.
  destruct (libnum.invmod (q * q) (p * p)) as [qinv|]; [|discriminate].
  cbn [bind].
  remember (map _ (seq 0 table_size)) as tbl eqn:Etbl. clear Etbl.
  destruct (PaillierPrivateKey.__init__ _ p q) as [sk0|] eqn:Esk;
    [|discriminate].
  cbn [bind]. intros [= <- <- <- <-].
  cbn [table_n table_n_length table_r_pow_n_l PaillierPublicKey.__init__
       PaillierPublicKey.n PaillierPublicKey.r_pow_n_l].
  split; [reflexivity|]. split; [reflexivity|]. split; [reflexivity|].
  intros fuel2 precompute2 r2. unfold generate_paillier_keypair.
  cbn [table_n table_n_length table_r_pow_n_l table_p table_q].
  rewrite Z.eqb_refl. cbn [negb].
  rewrite (init_other_key _
             (PaillierPublicKey.__init__ n (Some tbl)
                PaillierPublicKey.default_n_length
                PaillierPublicKey.default_noise) p q sk0 Esk eq_refl eq_refl).
  cbn [bind]. eexists; eexists. split; [reflexivity|].
  unfold PaillierPublicKey.__eq__, PaillierPrivateKey.__eq__. cbn.
  rewrite !Z.eqb_refl. repeat split; reflexivity.
Qed.

Lemma keypair_reloaded_from_table_witness :
  exists pk sk t r',
    generate_paillier_keypair 3 6 true None tape_5_7
    = Some (Ok (pk, sk, Some t, r'))
    /\ table_n_length t = 6
    /\ exists pk2 sk2,
        generate_paillier_keypair 0 6 false (Some t) (tape_of [])
        = Some (Ok (pk2, sk2, Some t, tape_of []))
        /\ PaillierPublicKey.__eq__ pk2 pk = true
        /\ PaillierPrivateKey.__eq__ sk2 sk = true.
Proof.
  destruct (generate_keys_returns 3 6 true tape_5_7) as (res & G).
  { vm_compute. discriminate. }
  destruct (generate_keys_table 3 6 tape_5_7 res primes_5_7 ltac:(lia) G)
    as (p & q & tbl & sk & r' & _ & _ & _ & _ & _ & _ & _ & ->).
  assert (G' : generate_paillier_keypair 3 6 true None tape_5_7
               = Some (Ok (PaillierPublicKey.__init__ (p * q) (Some tbl) 6
                             PaillierPublicKey.default_noise,
                           sk, Some (mk_table (p * q) 6 p q tbl), r'))).
  { unfold generate_paillier_keypair. rewrite G. reflexivity. }
  eexists; exists sk; eexists; exists r'. split; [exact G'|].
  destruct (keypair_reloaded_from_table 3 6 tape_5_7 _ sk _ r' G')
    as (_ & Hl & _ & H).
  split; [exact Hl|].
  destruct (H O false (tape_of [])) as (pk2 & sk2 & E & H1 & _ & _ & H2 & _).
  exists pk2, sk2. split; [exact E|]. split; [exact H1|exact H2].
Defined.

(** ** Subtraction of scalar ciphertexts *)

(** X8: for a key pair built from two primes, blinding factors that are
    n-th powers of units and integers [a], [b] within the bound whose
    difference is in range, subtraction is homomorphic in its three
    forms: [encrypt(a) - encrypt(b)], [encrypt(a) - b] and
    [a - encrypt(b)] all decrypt to [a - b]. *)
Theorem subtraction_homomorphic BASE pk sk ra rb a b :
  1 < BASE -> generated pk sk -> well_blinded pk ra -> well_blinded pk rb ->
  Z.abs a <= PaillierPublicKey.max_int pk ->
  Z.abs b <= PaillierPublicKey.max_int pk ->
  in_range (PaillierPublicKey.max_int pk) (a - b) ->
  exists ca ra' cb rb' c1 c2 c3,
    PaillierPublicKey.encrypt BASE pk (PlainNumber (PInt a)) None None ra
    = Ok (ca, ra')
    /\ PaillierPublicKey.encrypt BASE pk (PlainNumber (PInt b)) None None rb
       = Ok (cb, rb')
    /\ EncryptedNumber.__sub__ BASE ca (EncryptedNumber.SubEncrypted cb) = Ok c1
    /\ PaillierPrivateKey.decrypt BASE sk c1 = Ok (PInt (a - b))
    /\ EncryptedNumber.__sub__ BASE ca (EncryptedNumber.SubScalar (PInt b))
       = Ok c2
    /\ PaillierPrivateKey.decrypt BASE sk c2 = Ok (PInt (a - b))
    /\ EncryptedNumber.__rsub__ BASE cb (PInt a) = Ok c3
    /\ PaillierPrivateKey.decrypt BASE sk c3 = Ok (PInt (a - b)).
Proof.
  intros HB Hg Hba Hbb Ha Hb Hab.
  destruct (generated_key_ok pk sk Hg) as [K Hpk]. subst pk.
  set (n := PaillierPublicKey.n (PaillierPrivateKey.public_key sk)) in *.
  set (max_int := PaillierPublicKey.max_int (PaillierPrivateKey.public_key sk))
    in *.
  assert (Hn6 : 6 <= n) by exact (key_n_ge_6 sk K).
  assert (Hmax : max_int = n / 3 - 1) by exact (ok_max_int sk K).
  assert (H1m : 1 <= max_int) by exact (proj1 (key_max_int sk K)).
  pose proof (encode_int_plain BASE n max_int a None HB Hn6 Hmax Ha) as Ea.
  pose proof (encode_int_plain BASE n max_int b None HB Hn6 Hmax Hb) as Eb.
  destruct (encrypt_holds BASE sk K _ None None ra _ Hba Ea)
    as (ca & ra' & Eca & Hca).
  destruct (encrypt_holds BASE sk K _ None None rb _ Hbb Eb)
    as (cb & rb' & Ecb & Hcb).
  cbn in Hca, Hcb. rewrite ?Z.pow_0_r, ?Z.mul_1_r in Hca, Hcb.
  (* the negated ciphertexts *)
  destruct (mul_int_holds BASE HB sk K cb b 0 (-1) Hcb) as (nb & Enb & Hnb).
  { fold max_int. lia. }
  destruct (mul_int_holds BASE HB sk K ca a 0 (-1) Hca) as (na & Ena & Hna).
  { fold max_int. lia. }
  (* ciphertext minus ciphertext *)
  destruct (add_encrypted_holds BASE HB sk K ca nb a (b * -1) 0 0 Hca Hnb)
    as (c1 & E1 & H1).
  { simpl. exact H1m. }
  change (Z.min 0 0) with 0 in H1. simpl in H1.
  rewrite ?Z.pow_0_r, ?Z.mul_1_r in H1.
  (* ciphertext minus number *)
  assert (Hb' : Z.abs (b * -1) <= max_int) by lia.
  pose proof (encode_int_capped BASE n max_int (b * -1) HB Hn6 Hmax Hb') as Eb'.
  destruct (add_scalar_holds BASE HB sk K ca a 0 (PInt (b * -1)) _ Hca Eb')
    as (c2 & E2 & H2).
  { simpl. exact H1m. }
  cbn in H2. rewrite ?Z.pow_0_r, ?Z.mul_1_r in H2.
  (* number minus ciphertext *)
  pose proof (encode_int_capped BASE n max_int a HB Hn6 Hmax Ha) as Ea'.
  destruct (add_scalar_holds BASE HB sk K nb (b * -1) 0 (PInt a) _ Hnb Ea')
    as (c3 & E3 & H3).
  { simpl. exact H1m. }
  cbn in H3. rewrite ?Z.pow_0_r, ?Z.mul_1_r in H3.
  assert (R1 : in_range max_int (a + b * -1))
    by (unfold in_range in *; lia).
  assert (R3 : in_range max_int (b * -1 + a))
    by (unfold in_range in *; lia).
  assert (D : forall c m, holds sk c m 0 -> in_range max_int m -> m = a - b ->
                          PaillierPrivateKey.decrypt BASE sk c
                          = Ok (PInt (a - b))).
  { intros c m Hc Hr ->. rewrite (decrypt_holds BASE sk K c _ 0 Hc Hr).
    unfold EncodedNumber.scale. cbn. now rewrite Z.mul_1_r. }
  exists ca, ra', cb, rb', c1, c2, c3.
  split; [exact Eca|]. split; [exact Ecb|].
  split; [cbn [EncryptedNumber.__sub__]; rewrite Enb; exact E1|].
  split; [apply (D c1 _ H1 R1); ring|].
  split; [exact E2|].
  split; [apply (D c2 _ H2 R1); ring|].
  split; [unfold EncryptedNumber.__rsub__; rewrite Enb; exact E3|].
  apply (D c3 _ H3 R3); ring.
Qed.

Lemma subtraction_homomorphic_witness :
  1 < 16 /\ generated pk35 sk35
  /\ well_blinded pk35 (tape_of [1]) /\ well_blinded pk35 (tape_of [2])
  /\ exists ca ra' cb rb' c1 c3,
      PaillierPublicKey.encrypt 16 pk35 (PlainNumber (PInt 4)) None None
        (tape_of [1]) = Ok (ca, ra')
      /\ PaillierPublicKey.encrypt 16 pk35 (PlainNumber (PInt 9)) None None
           (tape_of [2]) = Ok (cb, rb')
      /\ EncryptedNumber.__sub__ 16 ca (EncryptedNumber.SubEncrypted cb) = Ok c1
      /\ PaillierPrivateKey.decrypt 16 sk35 c1 = Ok (PInt (4 - 9))
      /\ EncryptedNumber.__rsub__ 16 cb (PInt 4) = Ok c3
      /\ PaillierPrivateKey.decrypt 16 sk35 c3 = Ok (PInt (4 - 9)).
Proof.
  assert (B1 : well_blinded pk35 (tape_of [1])) by (apply blinded35; reflexivity).
  assert (B2 : well_blinded pk35 (tape_of [2])) by (apply blinded35; reflexivity).
  split; [lia|]. split; [exact generated35|]. split; [exact B1|].
  split; [exact B2|].
  destruct (subtraction_homomorphic 16 pk35 sk35 (tape_of [1]) (tape_of [2])
              4 9 ltac:(lia) generated35 B1 B2)
    as (ca & ra' & cb & rb' & c1 & c2 & c3 & Ea & Eb & E1 & D1 & _ & _ & E3 & D3);
    [cbn; lia | cbn; lia | unfold in_range; cbn; lia |].
  exists ca, ra', cb, rb', c1, c3. repeat (split; [assumption|]). assumption.
Defined.

(** ** Vector ciphertexts: encryption, decryption and arithmetic *)

Lemma find_exponent_ints BASE fuel zs :
  EncodedNumber.find_exponent BASE fuel 0 0 (map to_Q (map PInt zs)) = Some 0.
Proof.
  assert (F : forallb (EncodedNumber.meets BASE 0 0) (map to_Q (map PInt zs))
              = true).
  { induction zs as [|z zs IH]; [reflexivity|].
    cbn [map to_Q forallb]. now rewrite (meets_int BASE z), IH. }
  destruct fuel; cbn [EncodedNumber.find_exponent]; now rewrite F.
Qed.

(** Encoding a list of integers: one exponent, every integer scaled and
    folded. *)
Lemma encode_vector_ints BASE n max_int zs mx :
  1 < BASE -> 6 <= n -> max_int = n / 3 - 1 ->
  let e := EncodedNumber.cap_exponent mx 0 in
  Forall (fun z => Z.abs (z * BASE ^ (- e)) <= max_int) zs ->
  EncodedVector.encode BASE n max_int (map PInt zs) None mx
  = Ok (EncodedVector.mk n max_int
          (map (fun z => (z * BASE ^ (- e)) mod n) zs) e).
Proof.
  intros HB Hn Hmax e Hz. unfold EncodedVector.encode.
  cbn [EncodedNumber.precision_or_exact]. rewrite find_exponent_ints.
  cbn [bind]. fold e.
  pose proof (cap_exponent_le mx 0) as [He _]. fold e in He.
  assert (P : 0 < BASE ^ (- e)) by (apply Z.pow_pos_nonneg; lia).
  rewrite (mapM_Ok _ (fun v => match v with
                               | PInt z => (z * BASE ^ (- e)) mod n
                               | PFloat _ => 0
                               end)).
  - rewrite map_map. reflexivity.
  - intros v Hv. apply in_map_iff in Hv. destruct Hv as (z & <- & Hin).
    rewrite Forall_forall in Hz. cbn [EncodedNumber.int_rep].
    apply (wrap_int n max_int Hn Hmax); [now apply Hz|nia].
Qed.

Lemma mapM_zip_r {A B C : Type} (f : A -> B -> C) (la : list A) (lb : list B)
    (pa : list A) (pb : list B) :
  length pa = length pb ->
  mapM (fun i => x <- getitem (pa ++ la) i ;;
                 y <- getitem (pb ++ lb) i ;; Ok (f x y))
       (seq (length pb) (length lb))
  = if (length lb <=? length la)%nat then Ok (zip_with f la lb)
    else Raise IndexError.
Proof.
  revert la pa pb. induction lb as [|y lb IH]; intros la pa pb Hp.
  - destruct la; reflexivity.
  - cbn [length seq mapM].
    replace (length pb) with (length pa + 0)%nat at 1 by lia.
    rewrite getitem_app_r.
    destruct la as [|x la]; [reflexivity|].
    cbn [getitem nth_error bind].
    replace (length pb) with (length pb + 0)%nat at 1 by lia.
    rewrite getitem_app_r. cbn [getitem nth_error bind].
    specialize (IH la (pa ++ [x]) (pb ++ [y])).
    rewrite <- !app_assoc in IH. cbn [app] in IH.
    rewrite !length_app in IH. cbn [length] in IH.
    replace (length pb + 1)%nat with (S (length pb)) in IH by lia.
    rewrite IH by lia. cbn [length Nat.leb].
    destruct (length lb <=? length la)%nat; reflexivity.
Qed.


Lemma mapM_zip_r_0 {A B C : Type} (f : A -> B -> C) (la : list A)
    (lb : list B) :
  mapM (fun i => x <- getitem la i ;; y <- getitem lb i ;; Ok (f x y))
       (seq 0 (length lb))
  = if (length lb <=? length la)%nat then Ok (zip_with f la lb)
    else Raise IndexError.
Proof. exact (mapM_zip_r f la lb [] [] eq_refl). Qed.


Section MoreVectors.
Variable BASE : Z.
Hypothesis BASE_gt_1 : 1 < BASE.
Variable sk : PaillierPrivateKey.t.
Hypothesis K : key_ok sk.

Let pk := PaillierPrivateKey.public_key sk.
Let n := PaillierPublicKey.n pk.
Let max_int := PaillierPublicKey.max_int pk.

Let n_ge_6 : 6 <= n.
Proof. exact (key_n_ge_6 sk K). Qed.

Let max_int_eq : max_int = n / 3 - 1.
Proof. exact (ok_max_int sk K). Qed.


(** The unblinded encryption of a list of encodings. *)
Lemma vector_raw_encrypt_ok c encs :
  vector_ok sk c -> Forall (fun x => 0 <= x < n) encs ->
  exists cs, EncryptedVector._raw_encrypt c encs = Ok cs
             /\ Forall2 (encrypts sk) cs encs.
Proof.
  intros (En & Ens & Emi) H. unfold EncryptedVector._raw_encrypt.
  induction H as [|x encs Hx _ (cs & Ecs & Hcs)].
  - exists []. split; [reflexivity|constructor].
  - destruct (nude_ciphertext_ok sk K (EncryptedVector.max_int c) x Hx)
      as (y & Ey & Hy).
    exists (y :: cs). cbn [mapM]. unfold nude_ciphertext in Ey.
    rewrite En, Ens. rewrite Ey. cbn [bind].
    rewrite En, Ens in Ecs. rewrite Ecs.
    split; [reflexivity|now constructor].
Qed.

(** Adding an array of integers to a vector at an exponent that is not
    positive. *)
Lemma vector_add_ints_holds c ms e ks :
  holds_each sk c ms e -> e <= 0 ->
  Forall (fun k => Z.abs (k * BASE ^ (- e)) <= max_int) ks ->
  EncryptedVector._add_scalar BASE c (map PInt ks)
  = (if (length ks <=? length ms)%nat
     then EncryptedVector._add_scalar BASE c (map PInt ks)
     else Raise IndexError)
  /\ ((length ks <= length ms)%nat ->
      exists c',
        EncryptedVector._add_scalar BASE c (map PInt ks) = Ok c'
        /\ holds_each sk c'
             (zip_with (fun m k => m + k * BASE ^ (- e)) ms ks) e).
Proof.
  intros (Hok & He & Hc) Hle Hk. pose proof Hok as (En & Ens & Emi).
  pose proof (Forall2_length Hc) as Lc.
  assert (Ecap : EncodedNumber.cap_exponent (Some e) 0 = e)
    by (cbn; lia).
  assert (Eenc : EncodedVector.encode BASE n max_int (map PInt ks) None (Some e)
                 = Ok (EncodedVector.mk n max_int
                         (map (fun z => (z * BASE ^ (- e)) mod n) ks) e)).
  { pose proof (encode_vector_ints BASE n max_int ks (Some e) BASE_gt_1
                  n_ge_6 max_int_eq) as H.
    cbv zeta in H. rewrite Ecap in H. now apply H. }
  assert (Hr : Forall (fun x => 0 <= x < n)
                 (map (fun z => (z * BASE ^ (- e)) mod n) ks)).
  { apply Forall_forall. intros x Hx. apply in_map_iff in Hx.
    destruct Hx as (z & <- & _). apply Z.mod_pos_bound. lia. }
  destruct (vector_raw_encrypt_ok c _ Hok Hr) as (cs & Ecs & Hcs).
  pose proof (Forall2_length Hcs) as Lcs. rewrite length_map in Lcs.
  assert (U : EncryptedVector._add_scalar BASE c (map PInt ks)
              = if (length ks <=? length ms)%nat
                then Ok (EncryptedVector.mk n (n * n) max_int
                           (zip_with (fun x y => util.mul_mod x y (n * n))
                              (EncryptedVector.ciphertext c) cs) e)
                else Raise IndexError).
  { unfold EncryptedVector._add_scalar. rewrite En, Emi, He.
    fold pk n max_int. rewrite Eenc. cbn [bind].
    unfold EncryptedVector._add_encoded_scalar.
    cbn [EncodedVector.n EncodedVector.exponent EncodedVector.encoding].
    rewrite En. fold pk n. rewrite Z.eqb_refl. cbn [negb].
    rewrite He, Z.ltb_irrefl. cbn [bind EncodedVector.encoding].
    rewrite Ecs. cbn [bind].
    unfold EncryptedVector._raw_add.
    rewrite (mapM_zip_r_0 (fun x y => util.mul_mod x y
                                        (EncryptedVector.nsquare c))
               (EncryptedVector.ciphertext c) cs).
    rewrite Lcs, Lc.
    destruct (length ks <=? length ms)%nat; [|reflexivity].
    cbn [bind]. rewrite En, Ens, Emi, He. reflexivity. }
  split.
  - rewrite U. destruct (length ks <=? length ms)%nat; reflexivity.
  - intros Hlen. rewrite U.
    destruct (Nat.leb_spec (length ks) (length ms)); [|lia].
    eexists; split; [reflexivity|].
    split; [unfold vector_ok; cbn; auto|]. split; [reflexivity|].
    cbn [EncryptedVector.ciphertext].
    clear U Ecs Lc Lcs Eenc Hr Hk H Hlen.
    revert ks cs Hcs. induction Hc as [|x m xs ms' Hx _ IH]; intros ks cs Hcs.
    + constructor.
    + destruct ks as [|k ks]; inversion Hcs as [|y ? cs' ? Hy Hcs']; subst;
        [constructor|].
      unfold zip_with. cbn [combine map fst snd]. constructor.
      * apply (encrypts_mul sk K _ _ _ _ Hx).
        apply (encrypts_ext sk y _ _ Hy). fold pk n. apply Z.mod_mod. lia.
      * now apply IH.
Qed.

End MoreVectors.

(** Every element of a concrete list, by arithmetic. *)
Ltac each_by_lia :=
  unfold in_range; repeat (apply Forall_cons; [cbn; lia|]); apply Forall_nil.

Section VectorsOfIntegers.
Variable BASE : Z.
Hypothesis BASE_gt_1 : 1 < BASE.
Variable sk : PaillierPrivateKey.t.
Hypothesis K : key_ok sk.

Let pk := PaillierPrivateKey.public_key sk.
Let n := PaillierPublicKey.n pk.
Let max_int := PaillierPublicKey.max_int pk.

Lemma encrypt_ints_holds zs r :
  well_blinded_each pk (length zs) r ->
  Forall (fun z => Z.abs z <= max_int) zs ->
  exists c r',
    PaillierPublicKey.encrypt_new BASE pk (PlainNumbers (map PInt zs)) None r
    = Ok (c, r')
    /\ holds_each sk c zs 0.
Proof.
  intros Hb Hz.
  assert (Ee : EncodedVector.encode BASE n max_int (map PInt zs) None None
               = Ok (EncodedVector.mk n max_int
                       (map (fun z => (z * BASE ^ (- 0)) mod n) zs) 0)).
  { apply (encode_vector_ints BASE n max_int zs None BASE_gt_1
             (key_n_ge_6 sk K) (ok_max_int sk K)).
    cbn [EncodedNumber.cap_exponent]. change (- 0) with 0.
    rewrite Z.pow_0_r. eapply Forall_impl; [|exact Hz].
    intros z Hz'. cbn beta in Hz'. now rewrite Z.mul_1_r. }
  rewrite <- (length_map PInt) in Hb.
  destruct (vector_encrypt_new_holds BASE sk K _ None r _ Ee Hb)
    as (c & r' & Ec & Hc).
  exists c, r'. split; [exact Ec|].
  cbn [EncodedVector.exponent] in Hc. rewrite map_map in Hc.
  cbn [EncodedNumber.int_rep] in Hc. change (- 0) with 0 in Hc.
  rewrite Z.pow_0_r in Hc.
  rewrite (map_ext _ (fun z => z)) in Hc by (intros; apply Z.mul_1_r).
  now rewrite map_id in Hc.
Qed.

Lemma decrypt_ints_holds c ms :
  holds_each sk c ms 0 -> Forall (in_range max_int) ms ->
  PaillierPrivateKey.decrypt_new BASE sk c = Ok (map PInt ms).
Proof.
  intros Hc Hr. rewrite (vector_decrypt_holds BASE sk K c ms 0 Hc Hr).
  f_equal. apply map_ext. intros m. unfold EncodedNumber.scale. cbn.
  now rewrite Z.mul_1_r.
Qed.

End VectorsOfIntegers.



Lemma holds_each_length sk c ms e :
  holds_each sk c ms e -> length (EncryptedVector.ciphertext c) = length ms.
Proof. intros (_ & _ & H). exact (Forall2_length H). Qed.



(** X10: for two lists of integers of the same length, each within the
    bound and with element-wise sums in range, the sum of their
    ciphertext vectors has their length and decrypts to the element-wise
    sums; the difference of the ciphertext vectors decrypts to the
    element-wise differences when those are in range. *)
Theorem vector_addition_homomorphic BASE pk sk ra rb xs ys :
  1 < BASE -> generated pk sk ->
  well_blinded_each pk (length xs) ra -> well_blinded_each pk (length ys) rb ->
  length xs = length ys ->
  Forall (fun z => Z.abs z <= PaillierPublicKey.max_int pk) xs ->
  Forall (fun z => Z.abs z <= PaillierPublicKey.max_int pk) ys ->
  exists ca ra' cb rb',
    PaillierPublicKey.encrypt_new BASE pk (PlainNumbers (map PInt xs)) None ra
    = Ok (ca, ra')
    /\ PaillierPublicKey.encrypt_new BASE pk (PlainNumbers (map PInt ys)) None
         rb = Ok (cb, rb')
    /\ (Forall (in_range (PaillierPublicKey.max_int pk)) (zip_with Z.add xs ys) ->
        exists c,
          EncryptedVector.__add__ BASE ca (EncryptedVector.AEncrypted cb) = Ok c
          /\ length (EncryptedVector.ciphertext c) = length xs
          /\ PaillierPrivateKey.decrypt_new BASE sk c
             = Ok (map PInt (zip_with Z.add xs ys)))
    /\ (Forall (in_range (PaillierPublicKey.max_int pk)) (zip_with Z.sub xs ys) ->
        exists c,
          EncryptedVector.__sub__ BASE ca (EncryptedVector.AEncrypted cb) = Ok c
          /\ length (EncryptedVector.ciphertext c) = length xs
          /\ PaillierPrivateKey.decrypt_new BASE sk c
             = Ok (map PInt (zip_with Z.sub xs ys))).
Proof.
  intros HB Hg Hba Hbb Hl Hx Hy.
  destruct (generated_key_ok pk sk Hg) as [K Hpk]. subst pk.
  destruct (encrypt_ints_holds BASE HB sk K xs ra Hba Hx)
    as (ca & ra' & Eca & Hca).
  destruct (encrypt_ints_holds BASE HB sk K ys rb Hbb Hy)
    as (cb & rb' & Ecb & Hcb).
  exists ca, ra', cb, rb'. split; [exact Eca|]. split; [exact Ecb|]. split.
  - intros Hr.
    destruct (vector_add_holds BASE sk K ca cb xs ys 0 Hca Hcb Hl)
      as (c & Ec & Hc).
    exists c. split; [exact Ec|].
    split; [rewrite (holds_each_length _ _ _ _ Hc), zip_with_length; lia|].
    exact (decrypt_ints_holds BASE sk K c _ Hc Hr).
  - intros Hr.
    destruct (vector_mul_int_holds BASE sk K cb ys 0 (-1) Hcb)
      as (nb & Enb & Hnb).
    { pose proof (key_max_int sk K). lia. }
    destruct (vector_add_holds BASE sk K ca nb xs _ 0 Hca Hnb)
      as (c & Ec & Hc).
    { now rewrite length_map. }
    assert (Ez : zip_with Z.add xs (map (fun m => m * -1) ys)
                 = zip_with Z.sub xs ys).
    { clear. revert ys. unfold zip_with.
      induction xs as [|x xs IH]; intros [|y ys]; cbn; try reflexivity.
      rewrite IH. f_equal. lia. }
    rewrite Ez in Hc.
    exists c. split; [cbn [EncryptedVector.__sub__]; rewrite Enb; exact Ec|].
    split; [rewrite (holds_each_length _ _ _ _ Hc), zip_with_length; lia|].
    exact (decrypt_ints_holds BASE sk K c _ Hc Hr).
Qed.

Lemma vector_addition_homomorphic_witness :
  let ra := tape_of [1; 2] in
  let rb := tape_of [3; 5] in
  1 < 16 /\ generated pk35 sk35
  /\ well_blinded_each pk35 2 ra /\ well_blinded_each pk35 2 rb
  /\ exists ca ra' cb rb' c d,
      PaillierPublicKey.encrypt_new 16 pk35 (PlainNumbers (map PInt [3; -4]))
        None ra = Ok (ca, ra')
      /\ PaillierPublicKey.encrypt_new 16 pk35 (PlainNumbers (map PInt [5; -5]))
           None rb = Ok (cb, rb')
      /\ EncryptedVector.__add__ 16 ca (EncryptedVector.AEncrypted cb) = Ok c
      /\ PaillierPrivateKey.decrypt_new 16 sk35 c = Ok [PInt 8; PInt (-9)]
      /\ EncryptedVector.__sub__ 16 ca (EncryptedVector.AEncrypted cb) = Ok d
      /\ PaillierPrivateKey.decrypt_new 16 sk35 d = Ok [PInt (-2); PInt 1].
Proof.
  intros ra rb.
  assert (Ba : well_blinded_each pk35 2 ra).
  { apply well_blinded_each_fresh; [reflexivity|reflexivity|cbn; lia|].
    intros i Hi. destruct i as [|[|i]]; [reflexivity .. | lia]. }
  assert (Bb : well_blinded_each pk35 2 rb).
  { apply well_blinded_each_fresh; [reflexivity|reflexivity|cbn; lia|].
    intros i Hi. destruct i as [|[|i]]; [reflexivity .. | lia]. }
  split; [lia|]. split; [exact generated35|]. split; [exact Ba|].
  split; [exact Bb|].
  destruct (vector_addition_homomorphic 16 pk35 sk35 ra rb [3; -4] [5; -5]
              ltac:(lia) generated35 Ba Bb eq_refl)
    as (ca & ra' & cb & rb' & Ea & Eb & Hadd & Hsub);
    [each_by_lia | each_by_lia |].
  destruct Hadd as (c & Ec & _ & Dc);
    [each_by_lia|].
  destruct Hsub as (d & Ed & _ & Dd);
    [each_by_lia|].
  exists ca, ra', cb, rb', c, d. repeat (split; [assumption|]). assumption.
Defined.



(** X12: adding a plain integer, or an array of integers, to a ciphertext
    vector does not broadcast: the result has as many elements as the
    plain operand (one for a number), each the sum of the corresponding
    elements, and a plain operand longer than the vector raises
    [IndexError]. *)
Theorem vector_plus_plain_truncates BASE pk sk r xs :
  1 < BASE -> generated pk sk -> well_blinded_each pk (length xs) r ->
  Forall (fun z => Z.abs z <= PaillierPublicKey.max_int pk) xs ->
  exists ca r',
    PaillierPublicKey.encrypt_new BASE pk (PlainNumbers (map PInt xs)) None r
    = Ok (ca, r')
    /\ (forall ks,
           Forall (fun k => Z.abs k <= PaillierPublicKey.max_int pk) ks ->
           (length ks <= length xs)%nat ->
           exists c,
             EncryptedVector.__add__ BASE ca
               (EncryptedVector.AArray (map PInt ks)) = Ok c
             /\ length (EncryptedVector.ciphertext c) = length ks
             /\ (Forall (in_range (PaillierPublicKey.max_int pk))
                   (zip_with Z.add xs ks) ->
                 PaillierPrivateKey.decrypt_new BASE sk c
                 = Ok (map PInt (zip_with Z.add xs ks))))
    /\ (forall k,
           Z.abs k <= PaillierPublicKey.max_int pk -> xs <> [] ->
           exists c,
             EncryptedVector.__add__ BASE ca (EncryptedVector.AScalar (PInt k))
             = Ok c
             /\ length (EncryptedVector.ciphertext c) = 1%nat
             /\ (in_range (PaillierPublicKey.max_int pk) (hd 0 xs + k) ->
                 PaillierPrivateKey.decrypt_new BASE sk c
                 = Ok [PInt (hd 0 xs + k)]))
    /\ (forall ks,
           Forall (fun k => Z.abs k <= PaillierPublicKey.max_int pk) ks ->
           (length xs < length ks)%nat ->
           EncryptedVector.__add__ BASE ca
             (EncryptedVector.AArray (map PInt ks)) = Raise IndexError).
Proof.
  intros HB Hg Hb Hx.
  destruct (generated_key_ok pk sk Hg) as [K Hpk]. subst pk.
  destruct (encrypt_ints_holds BASE HB sk K xs r Hb Hx)
    as (ca & r' & Eca & Hca).
  assert (Hks : forall ks,
             Forall (fun k => Z.abs k
                              <= PaillierPublicKey.max_int
                                   (PaillierPrivateKey.public_key sk)) ks ->
             Forall (fun k => Z.abs (k * BASE ^ (- 0))
                              <= PaillierPublicKey.max_int
                                   (PaillierPrivateKey.public_key sk)) ks).
  { intros ks. apply Forall_impl. intros k Hk. change (- 0) with 0.
    now rewrite Z.pow_0_r, Z.mul_1_r. }
  assert (Ez : forall ks,
             zip_with (fun m k => m + k * BASE ^ (- 0)) xs ks
             = zip_with Z.add xs ks).
  { intros ks. unfold zip_with. apply map_ext. intros [m k]. cbn [fst snd].
    change (- 0) with 0. rewrite Z.pow_0_r. ring. }
  assert (Harr : forall ks,
             Forall (fun k => Z.abs k
                              <= PaillierPublicKey.max_int
                                   (PaillierPrivateKey.public_key sk)) ks ->
             (length ks <= length xs)%nat ->
             exists c,
               EncryptedVector._add_scalar BASE ca (map PInt ks) = Ok c
               /\ length (EncryptedVector.ciphertext c) = length ks
               /\ (Forall (in_range (PaillierPublicKey.max_int
                                       (PaillierPrivateKey.public_key sk)))
                     (zip_with Z.add xs ks) ->
                   PaillierPrivateKey.decrypt_new BASE sk c
                   = Ok (map PInt (zip_with Z.add xs ks)))).
  { intros ks Hk Hl.
    destruct (vector_add_ints_holds BASE HB sk K ca xs 0 ks Hca ltac:(lia)
                (Hks ks Hk)) as [_ H].
    destruct (H Hl) as (c & Ec & Hc). rewrite Ez in Hc.
    exists c. split; [exact Ec|].
    split; [rewrite (holds_each_length _ _ _ _ Hc), zip_with_length; lia|].
    intros Hr. exact (decrypt_ints_holds BASE sk K c _ Hc Hr). }
  exists ca, r'. split; [exact Eca|]. split; [exact Harr|]. split.
  - intros k Hk Hne. destruct xs as [|x xs]; [contradiction|].
    destruct (Harr [k]) as (c & Ec & Lc & Dc);
      [repeat constructor; exact Hk | cbn; lia |].
    exists c. split; [exact Ec|]. split; [exact Lc|].
    intros Hr. unfold zip_with in Dc. cbn [combine] in Dc.
    rewrite combine_nil in Dc. cbn [map fst snd] in Dc.
    apply Dc. apply Forall_cons; [exact Hr|apply Forall_nil].
  - intros ks Hk Hl.
    destruct (vector_add_ints_holds BASE HB sk K ca xs 0 ks Hca ltac:(lia)
                (Hks ks Hk)) as [H _].
    cbn [EncryptedVector.__add__]. rewrite H.
    destruct (Nat.leb_spec (length ks) (length xs)); [lia|reflexivity].
Qed.

Lemma vector_plus_plain_truncates_witness :
  let r := tape_of [1; 2] in
  1 < 16 /\ generated pk35 sk35 /\ well_blinded_each pk35 2 r
  /\ exists ca r' c,
      PaillierPublicKey.encrypt_new 16 pk35 (PlainNumbers (map PInt [3; -2]))
        None r = Ok (ca, r')
      /\ EncryptedVector.__add__ 16 ca (EncryptedVector.AScalar (PInt 4)) = Ok c
      /\ PaillierPrivateKey.decrypt_new 16 sk35 c = Ok [PInt 7]
      /\ EncryptedVector.__add__ 16 ca
           (EncryptedVector.AArray (map PInt [1; 1; 1])) = Raise IndexError.
Proof.
  intros r.
  assert (B : well_blinded_each pk35 2 r).
  { apply well_blinded_each_fresh; [reflexivity|reflexivity|cbn; lia|].
    intros i Hi. destruct i as [|[|i]]; [reflexivity .. | lia]. }
  split; [lia|]. split; [exact generated35|]. split; [exact B|].
  destruct (vector_plus_plain_truncates 16 pk35 sk35 r [3; -2]
              ltac:(lia) generated35 B)
    as (ca & r' & Ea & _ & Hs & Hlong);
    [each_by_lia|].
  destruct (Hs 4) as (c & Ec & _ & Dc); [cbn; lia | discriminate |].
  exists ca, r', c. split; [exact Ea|]. split; [exact Ec|].
  split; [apply Dc; unfold in_range; cbn; lia|].
  apply Hlong; [each_by_lia | cbn; lia].
Defined.

(** ** Splitting, binding and summing vectors *)

Lemma bind_to_vector_Ok first rest :
  Forall (fun c => EncryptedVector.ciphertext c <> []) (first :: rest) ->
  EncryptedVector.bind_to_vector (first :: rest)
  = Ok (EncryptedVector.mk (EncryptedVector.n first)
          (EncryptedVector.nsquare first) (EncryptedVector.max_int first)
          (map (fun c => hd 0 (EncryptedVector.ciphertext c)) (first :: rest))
          (EncryptedVector.exponent first)).
Proof.
  intros H. unfold EncryptedVector.bind_to_vector.
  cbn [getitem nth_error bind].
  assert (A : (if negb (length (EncryptedVector.ciphertext first) =? 0)%nat
               then EncryptedVector.py_assert
                      (EncryptedVector.truthy
                         (EncryptedVector.bind_message
                            (length (EncryptedVector.ciphertext first))))
               else Ok tt) = Ok tt).
  { destruct (negb _); [apply bind_assertion_holds | reflexivity]. }
  rewrite A. cbn [bind].
  rewrite (mapM_range_0 (fun c => getitem (EncryptedVector.ciphertext c) 0%nat)).
  rewrite (mapM_Ok _ (fun c => hd 0 (EncryptedVector.ciphertext c))).
  - reflexivity.
  - intros c Hc. rewrite Forall_forall in H. specialize (H c Hc).
    destruct (EncryptedVector.ciphertext c); [contradiction|reflexivity].
Qed.

(** X13: indexing a ciphertext vector at each of its positions gives
    one-element vectors with its modulus and exponent, and
    [bind_to_vector] of these, in order, is the vector itself, when it is
    not empty; an index past the end raises [IndexError], and so does
    binding the empty list. *)
Theorem split_then_bind c :
  (EncryptedVector.ciphertext c <> [] ->
   exists parts,
     mapM (EncryptedVector.__getitem__ c)
          (seq 0 (length (EncryptedVector.ciphertext c))) = Ok parts
     /\ length parts = length (EncryptedVector.ciphertext c)
     /\ Forall (fun p => length (EncryptedVector.ciphertext p) = 1%nat
                         /\ EncryptedVector.n p = EncryptedVector.n c
                         /\ EncryptedVector.exponent p
                            = EncryptedVector.exponent c) parts
     /\ EncryptedVector.bind_to_vector parts = Ok c)
  /\ (forall i, (length (EncryptedVector.ciphertext c) <= i)%nat ->
                EncryptedVector.__getitem__ c i = Raise IndexError)
  /\ EncryptedVector.bind_to_vector [] = Raise IndexError.
Proof.
  split; [|split].
  - intros Hne.
    set (single := fun x => EncryptedVector.mk (EncryptedVector.n c)
                              (EncryptedVector.nsquare c)
                              (EncryptedVector.max_int c) [x]
                              (EncryptedVector.exponent c)).
    exists (map single (EncryptedVector.ciphertext c)).
    split.
    { unfold EncryptedVector.__getitem__.
      rewrite (mapM_range_0 (fun x => Ok (single x))).
      now apply mapM_Ok. }
    split; [apply length_map|].
    split.
    { apply Forall_forall. intros p Hp. apply in_map_iff in Hp.
      destruct Hp as (x & <- & _). cbn. auto. }
    destruct c as [cn cnsq cmi cs ce]. cbn [EncryptedVector.ciphertext] in *.
    destruct cs as [|x cs]; [contradiction|]. cbn [map].
    rewrite bind_to_vector_Ok.
    + cbn. rewrite map_map. cbn. now rewrite map_id.
    + apply Forall_forall. intros p [<-|Hp]; [discriminate|].
      apply in_map_iff in Hp. destruct Hp as (y & <- & _). discriminate.
  - intros i Hi. unfold EncryptedVector.__getitem__, getitem.
    apply nth_error_None in Hi. now rewrite Hi.
  - reflexivity.
Qed.

Lemma split_then_bind_witness :
  let c := EncryptedVector.mk 35 1225 10 [36; 71; 106] 0 in
  EncryptedVector.ciphertext c <> []
  /\ exists parts,
      mapM (EncryptedVector.__getitem__ c) [0; 1; 2]%nat = Ok parts
      /\ EncryptedVector.bind_to_vector parts = Ok c.
Proof.
  intros c.
  assert (H : EncryptedVector.ciphertext c <> []) by discriminate.
  split; [exact H|].
  destruct (proj1 (split_then_bind c) H) as (parts & E & _ & _ & B).
  exists parts. split; [exact E|exact B].
Defined.

Section Sums.
Variable sk : PaillierPrivateKey.t.
Hypothesis K : key_ok sk.

Let pk := PaillierPrivateKey.public_key sk.
Let n := PaillierPublicKey.n pk.





End Sums.



(** ** Vectors at different exponents *)








(** ** Ciphertexts of another key *)

(** X16: ciphertexts are tied to a modulus: adding two encrypted numbers,
    or two encrypted vectors, with different [n] raises [ValueError]
    whatever their residues and exponents are, and so does every
    decryption ([decrypt], [decrypt_encoded], [decrypt_new],
    [decrypt_no_decode]) with a private key whose modulus is not the
    ciphertext's. *)
Theorem other_key_is_refused BASE sk :
  (forall a b,
      EncryptedNumber.n a <> EncryptedNumber.n b ->
      EncryptedNumber.__add__ BASE a (EncryptedNumber.Encrypted b)
      = Raise ValueError
      /\ EncryptedNumber.__radd__ BASE a (EncryptedNumber.Encrypted b)
         = Raise ValueError)
  /\ (forall a b,
         EncryptedVector.n a <> EncryptedVector.n b ->
         EncryptedVector.__add__ BASE a (EncryptedVector.AEncrypted b)
         = Raise ValueError
         /\ EncryptedVector.__radd__ BASE a (EncryptedVector.AEncrypted b)
            = Raise ValueError)
  /\ (forall c,
         PaillierPublicKey.n (PaillierPrivateKey.public_key sk)
         <> EncryptedNumber.n c ->
         PaillierPrivateKey.decrypt_encoded sk c = Raise ValueError
         /\ PaillierPrivateKey.decrypt BASE sk c = Raise ValueError)
  /\ (forall c,
         PaillierPublicKey.n (PaillierPrivateKey.public_key sk)
         <> EncryptedVector.n c ->
         PaillierPrivateKey.decrypt_encoded_new sk c = Raise ValueError
         /\ PaillierPrivateKey.decrypt_no_decode sk c = Raise ValueError
         /\ PaillierPrivateKey.decrypt_new BASE sk c = Raise ValueError).
Proof.
  repeat split.
  - unfold EncryptedNumber.__add__, EncryptedNumber._add_encrypted.
    destruct (Z.eqb_spec (EncryptedNumber.n a) (EncryptedNumber.n b));
      [contradiction|reflexivity].
  - unfold EncryptedNumber.__radd__, EncryptedNumber.__add__,
      EncryptedNumber._add_encrypted.
    destruct (Z.eqb_spec (EncryptedNumber.n a) (EncryptedNumber.n b));
      [contradiction|reflexivity].
  - unfold EncryptedVector.__add__, EncryptedVector._add_encrypted.
    destruct (Z.eqb_spec (EncryptedVector.n a) (EncryptedVector.n b));
      [contradiction|reflexivity].
  - unfold EncryptedVector.__radd__, EncryptedVector.__add__,
      EncryptedVector._add_encrypted.
    destruct (Z.eqb_spec (EncryptedVector.n a) (EncryptedVector.n b));
      [contradiction|reflexivity].
  - unfold PaillierPrivateKey.decrypt_encoded.
    destruct (Z.eqb_spec
                (PaillierPublicKey.n (PaillierPrivateKey.public_key sk))
                (EncryptedNumber.n c)); [contradiction|reflexivity].
  - unfold PaillierPrivateKey.decrypt, PaillierPrivateKey.decrypt_encoded.
    destruct (Z.eqb_spec
                (PaillierPublicKey.n (PaillierPrivateKey.public_key sk))
                (EncryptedNumber.n c)); [contradiction|reflexivity].
  - unfold PaillierPrivateKey.decrypt_encoded_new.
    destruct (Z.eqb_spec
                (PaillierPublicKey.n (PaillierPrivateKey.public_key sk))
                (EncryptedVector.n c)); [contradiction|reflexivity].
  - unfold PaillierPrivateKey.decrypt_no_decode,
      PaillierPrivateKey.decrypt_encoded_new.
    destruct (Z.eqb_spec
                (PaillierPublicKey.n (PaillierPrivateKey.public_key sk))
                (EncryptedVector.n c)); [contradiction|reflexivity].
  - unfold PaillierPrivateKey.decrypt_new,
      PaillierPrivateKey.decrypt_encoded_new.
    destruct (Z.eqb_spec
                (PaillierPublicKey.n (PaillierPrivateKey.public_key sk))
                (EncryptedVector.n c)); [contradiction|reflexivity].
Qed.

Lemma other_key_is_refused_witness :
  let a := EncryptedNumber.mk 35 1225 10 36 0 in
  let b := EncryptedNumber.mk 143 20449 46 144 0 in
  EncryptedNumber.__add__ 16 a (EncryptedNumber.Encrypted b)
  = Raise ValueError
  /\ PaillierPrivateKey.decrypt 16 sk35 b = Raise ValueError
  /\ PaillierPrivateKey.decrypt_new 16 sk143
       (EncryptedVector.mk 35 1225 10 [36; 71] 0) = Raise ValueError.
Proof.
  intros a b.
  destruct (other_key_is_refused 16 sk35) as (H1 & _ & H3 & _).
  destruct (other_key_is_refused 16 sk143) as (_ & _ & _ & H4).
  split; [apply (H1 a b); discriminate|].
  split; [apply (H3 b); vm_compute; discriminate|].
  apply H4. vm_compute. discriminate.
Defined.
